(** * siren-router: a shallow embedding of [lib/router.js] and [lib/route.js]

    The development follows the two source files.  JavaScript strings are
    modelled by [string] (the octets of the text in UTF-8, a lone surrogate
    being three octets that UTF-8 does not allow), objects
    used as dictionaries by [gmap string _], arrays by lists, and the
    generator functions that make up koa middleware by a small command
    tree ([Gen]) that is interpreted in an explicit state-and-exception
    monad. *)

From Stdlib Require Import ZArith String Ascii List Bool Lia.
From stdpp Require Import base option list gmap strings fin_maps pretty.

Local Open Scope string_scope.
Local Open Scope Z_scope.

(** ** JavaScript string and array primitives used by the sources *)

Module Js.

(** The letters [a] to [z] in upper case: how the names of HTTP header
    fields are compared, and what [String.prototype.toUpperCase] does to a
    text in ASCII. *)
Definition upper_ascii (c : ascii) : ascii :=
  let n := nat_of_ascii c in
  if ((97 <=? n)%nat && (n <=? 122)%nat)%bool then ascii_of_nat (n - 32) else c.

Fixpoint fold_case (s : string) : string :=
  match s with
  | EmptyString => EmptyString
  | String c r => String (upper_ascii c) (fold_case r)
  end.

(** [Array.prototype.indexOf] on an array of strings: the first position
    of [x], or [-1]. *)
Fixpoint indexOf (l : list string) (x : string) : Z :=
  match l with
  | [] => -1
  | y :: r => if String.eqb y x then 0
              else let i := indexOf r x in if i <? 0 then -1 else i + 1
  end.

(** [Array.prototype.join]. *)
Fixpoint join (sep : string) (l : list string) : string :=
  match l with
  | [] => ""
  | [x] => x
  | x :: r => x +:+ sep +:+ join sep r
  end.

(** [String.prototype.split] with a one-character separator. *)
Fixpoint split (sep : ascii) (s : string) : list string :=
  match s with
  | EmptyString => [""]
  | String c r =>
      if Ascii.eqb c sep then "" :: split sep r
      else match split sep r with
           | [] => [String c ""]
           | w :: ws => String c w :: ws
           end
  end.

(** [String.prototype.substr] with one argument. *)
Fixpoint substr (n : nat) (s : string) : string :=
  match n, s with
  | O, _ => s
  | S n', String _ r => substr n' r
  | S _, EmptyString => EmptyString
  end.

(** [s[0]], the first character when there is one. *)
Definition charAt0 (s : string) : option ascii :=
  match s with
  | EmptyString => None
  | String c _ => Some c
  end.

(** The replacement text of [String.prototype.replace] (GetSubstitution)
    for a pattern without capture groups: [$$], [$&], [$`] and [$'] are
    expanded, everything else is literal. *)
Fixpoint GetSubstitution (matched before after replacement : string) : string :=
  match replacement with
  | EmptyString => EmptyString
  | String "$" (String "$" r) => String "$" (GetSubstitution matched before after r)
  | String "$" (String "&" r) => matched +:+ GetSubstitution matched before after r
  | String "$" (String "`" r) => before +:+ GetSubstitution matched before after r
  | String "$" (String "'" r) => after +:+ GetSubstitution matched before after r
  | String c r => String c (GetSubstitution matched before after r)
  end.

(** The first occurrence of [pat] in [s], as the text before it and the
    text after it. *)
Fixpoint search (pat s : string) : option (string * string) :=
  if String.prefix pat s then Some ("", substr (String.length pat) s)
  else match s with
       | EmptyString => None
       | String c r =>
           match search pat r with
           | Some (b, a) => Some (String c b, a)
           | None => None
           end
       end.

(** [s.replace(pat, replacement)] with a string pattern: only the first
    occurrence is replaced. *)
Definition replace (pat replacement s : string) : string :=
  match search pat s with
  | Some (b, a) => b +:+ GetSubstitution pat b a replacement +:+ a
  | None => s
  end.

(** The longest prefix of [s] without a slash, and the rest. *)
Fixpoint span_noslash (s : string) : string * string :=
  match s with
  | EmptyString => ("", "")
  | String c r =>
      if Ascii.eqb c "/" then ("", s)
      else let '(w, rest) := span_noslash r in (String c w, rest)
  end.

(** The first match of the regular expression [/:[^\/]+/] in [s]: text
    before, matched text, text after. *)
Fixpoint search_placeholder (s : string) : option (string * string * string) :=
  match s with
  | EmptyString => None
  | String c r =>
      let here :=
        if Ascii.eqb c ":" then
          match span_noslash r with
          | (EmptyString, _) => None
          | (w, rest) => Some ("", String c w, rest)
          end
        else None in
      match here with
      | Some m => Some m
      | None =>
          match search_placeholder r with
          | Some (b, m, a) => Some (String c b, m, a)
          | None => None
          end
      end
  end.

(** [s.replace(/:[^\/]+/, replacement)]. *)
Definition replace_placeholder (replacement s : string) : string :=
  match search_placeholder s with
  | Some (b, m, a) => b +:+ GetSubstitution m b a replacement +:+ a
  | None => s
  end.

(** No slash occurs in [s]. *)
Fixpoint no_slash (s : string) : bool :=
  match s with
  | EmptyString => true
  | String c r => negb (Ascii.eqb c "/") && no_slash r
  end.

(** An array index in canonical form, as a number: such property names are
    enumerated first, in ascending order. *)
Definition digit (c : ascii) : option N :=
  let n := N_of_ascii c in
  if ((48 <=? n) && (n <=? 57))%N%bool then Some (n - 48)%N else None.

Fixpoint decimal (acc : N) (s : string) : option N :=
  match s with
  | EmptyString => Some acc
  | String c r =>
      match digit c with
      | Some d => decimal (10 * acc + d)%N r
      | None => None
      end
  end.

Definition array_index (s : string) : option N :=
  match s with
  | EmptyString => None
  | String "0" EmptyString => Some 0%N
  | String "0" _ => None
  | _ => match decimal 0 s with
         | Some n => if (n <? 4294967295)%N then Some n else None
         | None => None
         end
  end.

Fixpoint insert_sorted (k : N * string) (l : list (N * string)) : list (N * string) :=
  match l with
  | [] => [k]
  | h :: t => if (fst k <=? fst h)%N then k :: l else h :: insert_sorted k t
  end.

(** [Object.keys] of an object whose own properties were created in the
    order [own]. *)
Definition keys (own : list string) : list string :=
  map snd (foldr insert_sorted []
             (omap (fun s => (fun n => (n, s)) <$> array_index s) own))
  ++ List.filter (fun s => match array_index s with None => true | Some _ => false end) own.

(** [a[i]] on an array: [None] is [undefined]. *)
Definition element {A} (a : list A) (i : Z) : option A :=
  if i <? 0 then None else a !! Z.to_nat i.

(** [obj[key] = true] on such an object. *)
Definition define (own : list string) (key : string) : list string :=
  if 0 <=? indexOf own key then own else own ++ [key].

(** The character [c] does not occur in [s]. *)
Fixpoint free (c : ascii) (s : string) : bool :=
  match s with
  | EmptyString => true
  | String a r => negb (Ascii.eqb a c) && free c r
  end.



End Js.

(** ** The URI codec of the host language

    [encodeURIComponent] and [decodeURIComponent] are built into the
    language.  Both raise [URIError] (here: [None]): the first on a text
    with a lone surrogate, which is a string whose octets do not spell
    UTF-8, the second on a malformed escape or on escapes that do not
    spell a UTF-8 sequence. *)

Module Uri.

Definition unreserved (c : ascii) : bool :=
  let n := nat_of_ascii c in
  (((65 <=? n) && (n <=? 90)) || ((97 <=? n) && (n <=? 122)) ||
   ((48 <=? n) && (n <=? 57)) ||
   existsb (Nat.eqb n) [45; 95; 46; 33; 126; 42; 39; 40; 41])%nat%bool.

Definition hex_digit (n : nat) : ascii :=
  if (n <? 10)%nat then ascii_of_nat (48 + n) else ascii_of_nat (55 + n).

(** Every octet that is not an unreserved character, as [%XX]. *)
Fixpoint escape (s : string) : string :=
  match s with
  | EmptyString => EmptyString
  | String c r =>
      if unreserved c then String c (escape r)
      else let n := nat_of_ascii c in
           String "%" (String (hex_digit (n / 16)) (String (hex_digit (n mod 16))
             (escape r)))
  end.

Definition hex_value (c : ascii) : option N :=
  let n := N_of_ascii c in
  if ((48 <=? n) && (n <=? 57))%N%bool then Some (n - 48)%N
  else if ((65 <=? n) && (n <=? 70))%N%bool then Some (n - 55)%N
  else if ((97 <=? n) && (n <=? 102))%N%bool then Some (n - 87)%N
  else None.

(** The octets of a text: [(true, b)] for an escape [%XX], [(false, b)] for
    a character that stands for itself. *)
Fixpoint unescape (s : string) : option (list (bool * N)) :=
  match s with
  | EmptyString => Some []
  | String "%" (String h (String l r)) =>
      match hex_value h, hex_value l, unescape r with
      | Some a, Some b, Some t => Some ((true, (16 * a + b)%N) :: t)
      | _, _, _ => None
      end
  | String "%" _ => None
  | String c r =>
      match unescape r with
      | Some t => Some ((false, N_of_ascii c) :: t)
      | None => None
      end
  end.

(** Escaped octets above 127 must spell one UTF-8 sequence each: [need]
    continuation escapes are still expected, [cp] is the code point read so
    far and [lo] the least code point the sequence length may encode. *)
Fixpoint well_formed (need : nat) (cp lo : N) (ts : list (bool * N)) : bool :=
  match ts with
  | [] => Nat.eqb need 0
  | (esc, b) :: r =>
      match need with
      | O =>
          if (negb esc || (b <? 128))%N%bool then well_formed 0 0 0 r
          else if ((192 <=? b) && (b <=? 223))%N%bool then well_formed 1 (b - 192) 128 r
          else if ((224 <=? b) && (b <=? 239))%N%bool then well_formed 2 (b - 224) 2048 r
          else if ((240 <=? b) && (b <=? 247))%N%bool then well_formed 3 (b - 240) 65536 r
          else false
      | S need' =>
          if (esc && (128 <=? b) && (b <=? 191))%N%bool then
            let cp' := (cp * 64 + (b - 128))%N in
            match need' with
            | O =>
                ((lo <=? cp') && (cp' <=? 1114111) &&
                 negb ((55296 <=? cp') && (cp' <=? 57343)))%N%bool
                && well_formed 0 0 0 r
            | S _ => well_formed need' cp' lo r
            end
          else false
      end
  end.

Definition decodeURIComponent (s : string) : option string :=
  match unescape s with
  | Some ts =>
      if well_formed 0 0 0 ts
      then Some (string_of_list_ascii (map (fun t => ascii_of_N (snd t)) ts))
      else None
  | None => None
  end.

(** The octets of [s] spell a UTF-8 text, which is what represents a
    JavaScript string without lone surrogates. *)
Definition utf8 (s : string) : bool :=
  well_formed 0 0 0 (map (fun c => (true, N_of_ascii c)) (list_ascii_of_string s)).

(** [encodeURIComponent]: [URIError] on a lone surrogate. *)
Definition encodeURIComponent (s : string) : option string :=
  if utf8 s then Some (escape s) else None.

End Uri.

(** ** Values shared by both source files *)

(** A JavaScript [Error] object: its constructor name and its message. *)
Record Error := { error_name : string; error_message : string }.

Definition mkError (msg : string) : Error :=
  {| error_name := "Error"; error_message := msg |}.

Definition TypeError (msg : string) : Error :=
  {| error_name := "TypeError"; error_message := msg |}.

Definition URIError (msg : string) : Error :=
  {| error_name := "URIError"; error_message := msg |}.

(** The result of a call: a returned value or a raised exception. *)
Inductive Outcome (A : Type) : Type :=
| Returns (a : A)
| Throws (e : Error).
Arguments Returns {A} a.
Arguments Throws {A} e.

(** The request context that koa hands to every middleware as [this]. *)
Module Context.

Record t := {
  path : string;
  params : option (gmap string (option string));
  method : string;
  statusCode : Z;                  (* [res.statusCode] *)
  statusMessage : option string;   (* [res.statusMessage] *)
  explicitStatus : bool;           (* [response._explicitStatus] *)
  headers : gmap string string;    (* written by [ctx.set] *)
  body : option string;
  state : gmap string string       (* [ctx.state] *)
}.

Definition set_path (v : string) (c : t) : t :=
  {| path := v; params := params c; method := method c;
     statusCode := statusCode c; statusMessage := statusMessage c;
     explicitStatus := explicitStatus c; headers := headers c;
     body := body c; state := state c |}.

Definition set_params (v : option (gmap string (option string))) (c : t) : t :=
  {| path := path c; params := v; method := method c;
     statusCode := statusCode c; statusMessage := statusMessage c;
     explicitStatus := explicitStatus c; headers := headers c;
     body := body c; state := state c |}.

Definition set_statusCode (v : Z) (c : t) : t :=
  {| path := path c; params := params c; method := method c;
     statusCode := v; statusMessage := statusMessage c;
     explicitStatus := explicitStatus c; headers := headers c;
     body := body c; state := state c |}.

Definition set_statusMessage (v : option string) (c : t) : t :=
  {| path := path c; params := params c; method := method c;
     statusCode := statusCode c; statusMessage := v;
     explicitStatus := explicitStatus c; headers := headers c;
     body := body c; state := state c |}.

(** [ctx.set(field, value)]. *)
Definition set (field value : string) (c : t) : t :=
  {| path := path c; params := params c; method := method c;
     statusCode := statusCode c; statusMessage := statusMessage c;
     explicitStatus := explicitStatus c; headers := <[field := value]> (headers c);
     body := body c; state := state c |}.

(** [ctx.status = code]: koa's setter also marks the status as explicit. *)
Definition set_status (v : Z) (c : t) : t :=
  {| path := path c; params := params c; method := method c;
     statusCode := v; statusMessage := statusMessage c;
     explicitStatus := true; headers := headers c;
     body := body c; state := state c |}.

Definition set_state (key value : string) (c : t) : t :=
  {| path := path c; params := params c; method := method c;
     statusCode := statusCode c; statusMessage := statusMessage c;
     explicitStatus := explicitStatus c; headers := headers c;
     body := body c; state := <[key := value]> (state c) |}.

End Context.

(** The body of a generator function used as middleware.  A body may
    inspect and update the context it runs on, delegate to the
    continuation it was given ([yield *next]), raise, and catch. *)
Inductive Gen : Type :=
| Ret : Gen
| Throw : Error -> Gen
| Update : (Context.t -> Context.t) -> Gen -> Gen
| Inspect : (Context.t -> Gen) -> Gen
| YieldNext : Gen -> Gen
| TryCatch : Gen -> (Error -> Gen) -> Gen -> Gen.

(** What [koa-compose] is handed and what it returns: a generator function,
    or the composition of a list of them. *)
Inductive Fn : Type :=
| Plain (g : Gen)
| Composed (gs : list Gen).

(** What a route finally calls: one such function, or the composition of
    the route's list. *)
Inductive Callable : Type :=
| Single (f : Fn)
| Compose (fs : list Fn).

(** A value passed as middleware to a registration call: a function, a koa
    application (anything with a [use] property, with its [middleware]
    list), or any other value, of which only [typeof] matters. *)
Inductive Middleware : Type :=
| Function (g : Gen)
| Application (gs : list Gen)
| Other (type : string).

(** The interface of [path-to-regexp]. *)
Module P2R.

Record Options := { sensitive : bool; strict : bool; end_ : bool }.

Record Key := { name : string; optional : bool }.

(** A regular expression, as far as [String.prototype.match] shows it: the
    matched text and the captures, [None] for a group that did not take
    part in the match. *)
Record RegExp := {
  source : string;
  exec : string -> option (string * list (option string))
}.

End P2R.

(** What the sources take from outside: the modules they [require],
    which are [path-to-regexp], [methods] and [statuses], and
    [String.prototype.toUpperCase] of the host, whose case mapping covers
    every cased letter of Unicode. *)
Module Deps.

Class t := {
  pathToRegexp : string -> P2R.Options -> Outcome (P2R.RegExp * list P2R.Key);
  methods : list string;
  statuses : Z -> option string;
  toUpperCase : string -> string
}.

End Deps.

(** The options object shared by a router and its routes; a missing
    property reads as [false]. *)
Module Opts.

Record t := { strict : bool; caseSensitive : bool; mergeParams : bool }.

Definition empty : t :=
  {| strict := false; caseSensitive := false; mergeParams := false |}.

End Opts.

(** ** [lib/route.js] *)

(** The object literal [{ params, path }] that [Route#match] returns. *)
Module Captured.

Record t := { params : gmap string (option string); path : string }.

End Captured.

Module Route.

(** The [path] argument of the constructor: a template or a [RegExp]. *)
Inductive Path : Type :=
| Template (s : string)
| Pattern (re : P2R.RegExp).

(** A parameter middleware: it receives the value of its parameter. *)
Definition Hook : Type := option string -> Gen.

Record t := {
  name : option string;
  asPrefix : bool;
  methods : list string;
  params : list P2R.Key;
  fns_params : gmap string Gen;      (* [this.fns.params] *)
  fns_middleware : list Fn;          (* [this.fns.middleware] *)
  opts : Opts.t;
  path : string;
  regexp : P2R.RegExp;
  middleware : option Callable       (* [None] is [undefined] *)
}.

(** [name || null]: the empty string is falsy. *)
Definition truthy (name : option string) : option string :=
  match name with
  | Some EmptyString => None
  | other => other
  end.

(** The options object handed to [pathToRegexp]. *)
Definition regexp_options (opts : Opts.t) (asPrefix : bool) : P2R.Options :=
  {| P2R.sensitive := Opts.caseSensitive opts;
     P2R.strict := Opts.strict opts || negb asPrefix;
     P2R.end_ := if asPrefix then false else true |}.

(** [path.toString()] inside the error message. *)
Definition path_text (path : Path) : string :=
  match path with
  | Template s => s
  | Pattern re => "/" +:+ P2R.source re +:+ "/"
  end.

(** One step of [middleware.forEach]: an application is replaced by the
    composition of its middleware, a function is kept, anything else
    raises. *)
Definition ensure (methods : list string) (name : option string) (path : Path)
    (fn : Middleware) : Outcome Fn :=
  match fn with
  | Application gs => Returns (Composed gs)
  | Function g => Returns (Plain g)
  | Other type =>
      Throws (mkError
        (Js.join "," methods +:+ " `" +:+
         match truthy name with Some n => n | None => path_text path end +:+
         "`: `middleware` must be a function or application, not `" +:+ type +:+ "`"))
  end.

Fixpoint ensure_all (methods : list string) (name : option string) (path : Path)
    (middleware : list Middleware) : Outcome (list Fn) :=
  match middleware with
  | [] => Returns []
  | fn :: rest =>
      match ensure methods name path fn with
      | Throws e => Throws e
      | Returns f =>
          match ensure_all methods name path rest with
          | Throws e => Throws e
          | Returns fs => Returns (f :: fs)
          end
      end
  end.

(** [compose(middleware)] when there are several, [middleware[0]] else. *)
Definition composed (middleware : list Fn) : option Callable :=
  if (1 <? length middleware)%nat then Some (Compose middleware)
  else Single <$> middleware !! 0%nat.

(** [new Route(path, methods, middleware, name, opts)]; [methods] is
    [None] when the caller passes [null]. *)
Definition new `{Deps.t} (path : Path) (methods : option (list string))
    (middleware : list Middleware) (name : option string) (opts : option Opts.t)
    : Outcome t :=
  match methods with
  | None => Throws (TypeError "Cannot read property 'length' of null")
  | Some ms =>
      let asPrefix_ := match ms with [] => true | _ :: _ => false end in
      let opts_ := default Opts.empty opts in
      let compiled :=
        match path with
        | Pattern re => Returns (P2R.source re, re, [])
        | Template s =>
            match Deps.pathToRegexp s (regexp_options opts_ asPrefix_) with
            | Returns (re, keys) => Returns (s, re, keys)
            | Throws e => Throws e
            end
        end in
      match compiled with
      | Throws e => Throws e
      | Returns (path_, regexp_, params_) =>
          match ensure_all ms name path middleware with
          | Throws e => Throws e
          | Returns fns =>
              Returns {| name := truthy name;
                         asPrefix := asPrefix_;
                         methods := map Deps.toUpperCase ms;
                         params := params_;
                         fns_params := ∅;
                         fns_middleware := fns;
                         opts := opts_;
                         path := path_;
                         regexp := regexp_;
                         middleware := composed fns |}
          end
      end
  end.

(** [safeDecodeURIComponent]. *)
Definition safeDecodeURIComponent (text : string) : string :=
  match Uri.decodeURIComponent text with
  | Some decoded => decoded
  | None => text
  end.

(** [c ? safeDecodeURIComponent(c) : c]: [undefined] and the empty string
    are falsy and kept. *)
Definition decode_capture (c : option string) : option string :=
  match c with
  | Some EmptyString => Some EmptyString
  | Some s => Some (safeDecodeURIComponent s)
  | None => None
  end.

(** The loop over the captures of a route with parameter names: capture
    [i] is stored under the name of key [i], when there is such a key.
    The record is an array in the source; the [gmap] stands for it as long
    as the names are ordinary own properties of an array, which [length]
    and [__proto__] are not, and the statements about this loop leave
    these two names out. *)
Fixpoint named (keys : list P2R.Key) (captures : list (option string))
    (params : gmap string (option string)) : gmap string (option string) :=
  match captures, keys with
  | c :: cs, k :: ks => named ks cs (<[P2R.name k := decode_capture c]> params)
  | _, _ => params
  end.

(** The loop of a route without parameter names: capture [i] is stored
    under the index [i]. *)
Fixpoint positional (i : nat) (captures : list (option string))
    (params : gmap string (option string)) : gmap string (option string) :=
  match captures with
  | [] => params
  | c :: cs => positional (S i) cs (<[pretty i := decode_capture c]> params)
  end.

(** [Route#match]. *)
Definition match_ (r : t) (path : string) : option Captured.t :=
  match P2R.exec (regexp r) path with
  | Some (matched, captures) =>
      let params_ :=
        match params r with
        | _ :: _ => named (params r) captures ∅
        | [] => positional 0 captures ∅
        end in
      let rest := Js.substr (String.length matched) path in
      let rest :=
        match Js.charAt0 rest with
        | Some "/"%char => rest
        | _ => "/" +:+ rest
        end in
      Some {| Captured.params := params_; Captured.path := rest |}
  | None => None
  end.

(** An argument of [Route#url]. *)
Inductive Arg : Type :=
| Obj (entries : list (string * string))   (* in enumeration order *)
| Arr (items : list string)
| Str (s : string)
| Null
| Undefined.

(** [ToString] of an argument used as a replacement text. *)
Definition to_string (a : Arg) : string :=
  match a with
  | Obj _ => "[object Object]"
  | Arr items => Js.join "," items
  | Str s => s
  | Null => "null"
  | Undefined => "undefined"
  end.

(** [typeof a === "object"]. *)
Definition is_object (a : Arg) : bool :=
  match a with
  | Obj _ | Arr _ | Null => true
  | Str _ | Undefined => false
  end.

(** The two loops of [Route#url] that replace the placeholders of the
    template [url], called with the argument list [arguments]. *)
Definition substitute (url : string) (arguments : list Arg) : string :=
  let params_ := default Undefined (arguments !! 0%nat) in
  if is_object params_ then
    match params_ with
    | Arr items => foldl (fun u a => Js.replace_placeholder a u) url items
    | Obj entries => foldl (fun u kv => Js.replace (":" +:+ fst kv) (snd kv) u) url entries
    | _ => url
    end
  else foldl (fun u a => Js.replace_placeholder (to_string a) u) url arguments.

(** [Route#url]: the first component that cannot be encoded makes the
    call raise. *)
Definition url (r : t) (arguments : list Arg) : Outcome string :=
  match mapM Uri.encodeURIComponent (Js.split "/" (substitute (path r) arguments)) with
  | Some components => Returns (Js.join "/" components)
  | None => Throws (URIError "URI malformed")
  end.

(** The template of a route in the words of the specification: segments
    between slashes, each one a literal text or a placeholder [:name]. *)
Inductive Segment : Type :=
| Literal (text : string)
| Placeholder (name : string).

Definition segment_text (seg : Segment) : string :=
  match seg with
  | Literal text => text
  | Placeholder name => String ":" name
  end.

Definition render (segs : list Segment) : string :=
  Js.join "/" (map segment_text segs).

Definition placeholders (segs : list Segment) : list string :=
  omap (fun seg => match seg with
                   | Placeholder name => Some name
                   | Literal _ => None
                   end) segs.



(** For values given by position: the first value is substituted for the
    first placeholder, the second for the second, and so on. *)
Fixpoint supply_in_order (values : list string) (segs : list Segment) : list Segment :=
  match segs with
  | [] => []
  | Literal text :: rest => Literal text :: supply_in_order values rest
  | Placeholder name :: rest =>
      match values with
      | value :: values' => Literal value :: supply_in_order values' rest
      | [] => Placeholder name :: supply_in_order [] rest
      end
  end.


(** A template whose literal segments and names have neither a colon
    nor a slash, and no name twice. *)
Definition template (segs : list Segment) : Prop :=
  segs <> [] /\
  Forall (fun seg => match seg with
                     | Literal text => Js.free ":" text = true /\ Js.free "/" text = true
                     | Placeholder name =>
                         Js.free ":" name = true /\ Js.free "/" name = true
                     end) segs /\
  NoDup (placeholders segs).

(** The wrapper that [Route#param] stores for a hook: it calls the hook
    with [this.params[param]] and the wrapper's own continuation. *)
Definition wrap (param : string) (fn : Hook) : Gen :=
  Inspect (fun ctx =>
    match Context.params ctx with
    | Some ps => fn (default None (ps !! param))
    | None => Throw (TypeError "Cannot read property of undefined")
    end).

(** The hooks of the route's parameters, in the order of [this.params].
    The table [this.fns.params] is a plain object; the [gmap] stands for
    it at every name that is not in [Js.inherited], and the statements
    about the hooks of a route leave the inherited names out. *)
Definition hooks (keys : list P2R.Key) (fns : gmap string Gen) : list Fn :=
  omap (fun key => Plain <$> fns !! P2R.name key) keys.

(** [Route#param]. *)
Definition param (param_ : string) (fn : Hook) (r : t) : t :=
  let fns := <[param_ := wrap param_ fn]> (fns_params r) in
  {| name := name r; asPrefix := asPrefix r; methods := methods r;
     params := params r;
     fns_params := fns;
     fns_middleware := fns_middleware r;
     opts := opts r; path := path r; regexp := regexp r;
     middleware := Some (Compose (hooks (params r) fns ++ fns_middleware r)) |}.

End Route.

(** ** Running generators

    [yield *gen] runs the body of a generator object; a generator object
    runs once, so delegating again to one that has started does nothing.
    The state [S] is whatever the caller threads through; a body only sees
    its context. *)

Module Koa.

Section Run.

Context {S : Type} (get : S -> Context.t) (put : Context.t -> S -> S).

(** A generator object waiting to be delegated to; [None] is a run that
    needs more fuel than it was given. *)
Definition Cont : Type := S -> option (Outcome unit * S).

(** [run g next started s]: the body [g] on state [s], with continuation
    [next], which has already been delegated to iff [started]. *)
Fixpoint run (g : Gen) (next : Cont) (started : bool) (s : S)
    : option (Outcome unit * bool * S) :=
  match g with
  | Ret => Some (Returns tt, started, s)
  | Throw e => Some (Throws e, started, s)
  | Update f k => run k next started (put (f (get s)) s)
  | Inspect f => run (f (get s)) next started s
  | YieldNext k =>
      if started then run k next true s
      else match next s with
           | None => None
           | Some (Returns _, s') => run k next true s'
           | Some (Throws e, s') => Some (Throws e, true, s')
           end
  | TryCatch body handler k =>
      match run body next started s with
      | None => None
      | Some (Returns _, st, s') => run k next st s'
      | Some (Throws e, st, s') =>
          match run (handler e) next st s' with
          | None => None
          | Some (Returns _, st', s'') => run k next st' s''
          | Some (Throws e', st', s'') => Some (Throws e', st', s'')
          end
      end
  end.

(** [yield *g.call(this, next)]. *)
Definition call_gen (g : Gen) (next : Cont) : Cont :=
  fun s =>
    match run g next false s with
    | Some (o, _, s') => Some (o, s')
    | None => None
    end.

(** [yield *compose(gs).call(this, next)]: each function gets the
    generator of the one after it, the last one gets [next]. *)
Fixpoint compose (gs : list Gen) (next : Cont) : Cont :=
  match gs with
  | [] => next
  | g :: rest => call_gen g (compose rest next)
  end.

Definition call_fn (f : Fn) (next : Cont) : Cont :=
  match f with
  | Plain g => call_gen g next
  | Composed gs => compose gs next
  end.

Fixpoint compose_fns (fs : list Fn) (next : Cont) : Cont :=
  match fs with
  | [] => next
  | f :: rest => call_fn f (compose_fns rest next)
  end.

Definition call (c : Callable) (next : Cont) : Cont :=
  match c with
  | Single f => call_fn f next
  | Compose fs => compose_fns fs next
  end.

End Run.

End Koa.

(** ** [lib/router.js] *)

(** An element of the array that [Router#match] returns: what the route's
    [match] returned, with the route itself. *)
Module Matched.

Record t := {
  params : gmap string (option string);
  path : string;
  route : Route.t
}.

End Matched.

Module Router.

Record t := {
  opts : Opts.t;
  methods : list string;
  routes : list Route.t;
  params : gmap string Route.Hook
}.

(** [new Router(opts)]. *)
Definition new (opts : option Opts.t) : t :=
  {| opts := default Opts.empty opts;
     methods := ["OPTIONS"];
     routes := [];
     params := ∅ |}.

(** [this.methods.push(method)] unless it is there already. *)
Definition accept (methods : list string) (method : string) : list string :=
  if Js.indexOf methods method <? 0 then methods ++ [method] else methods.

(** The loop [Object.keys(this.params).forEach(...)] that composes a new
    route with the parameter middleware known so far. *)
Definition with_params (r : t) (route : Route.t) : Route.t :=
  map_fold Route.param route (params r).

(** [Router#register]; it returns the route, and the router as it is
    afterwards. *)
Definition register `{Deps.t} (name : option string) (path : Route.Path)
    (methods_ : list string) (middleware : list Middleware) (r : t)
    : Outcome (Route.t * t) :=
  match Route.new path (Some methods_) middleware name (Some (opts r)) with
  | Throws e => Throws e
  | Returns route =>
      let route := with_params r route in
      Returns (route,
               {| opts := opts r;
                  methods := foldl accept (methods r) (Route.methods route);
                  routes := routes r ++ [route];
                  params := params r |})
  end.

Definition returning_this {A} (o : Outcome (A * t)) : Outcome t :=
  match o with
  | Returns (_, r) => Returns r
  | Throws e => Throws e
  end.

(** [router[method](name, path, middleware...)], defined for each member of
    [methods].  The source tells a call with a name from a call without
    one by the type of its second argument; [name], [path] and
    [middleware] are the arguments as it then hands them to [register],
    which they are for a call with a name, and for a call without one
    whose first middleware is neither a string nor a regular expression. *)
Definition verb `{Deps.t} (method : string) (name : option string)
    (path : Route.Path) (middleware : list Middleware) (r : t) : Outcome t :=
  if 0 <=? Js.indexOf Deps.methods method
  then returning_this (register name path [method] middleware r)
  else Throws (TypeError ("router." +:+ method +:+ " is not a function")).

(** [Router#all], on the arguments as the source hands them to
    [register]: those of the call when it has a name, or has none and its
    first middleware, if any, is a function. *)
Definition all `{Deps.t} (name : option string) (path : Route.Path)
    (middleware : list Middleware) (r : t) : Outcome t :=
  returning_this (register name path Deps.methods middleware r).

(** [Router#mount], also known as [Router#use]: the route is built with
    [null] for its methods. *)
Definition mount `{Deps.t} (name : option string) (path : Route.Path)
    (middleware : list Middleware) (r : t) : Outcome t :=
  match Route.new path None middleware name (Some (opts r)) with
  | Throws e => Throws e
  | Returns route =>
      let route := with_params r route in
      Returns {| opts := opts r;
                 methods := methods r;
                 routes := routes r ++ [route];
                 params := params r |}
  end.

(** [Router#route]: the first route with the given name. *)
Fixpoint lookup (routes_ : list Route.t) (name : string) : option Route.t :=
  match routes_ with
  | [] => None
  | route_ :: rest =>
      match Route.name route_ with
      | Some n => if String.eqb n name then Some route_ else lookup rest name
      | None => lookup rest name
      end
  end.

Definition route (r : t) (name : string) : option Route.t :=
  lookup (routes r) name.

(** What [Router#url] returns: a string, or an [Error] object. *)
Inductive Url : Type :=
| Generated (url : string)
| Failed (e : Error).

(** [Router#url]. *)
Definition url (r : t) (name : string) (args : list Route.Arg) : Outcome Url :=
  match route r name with
  | Some route_ =>
      match Route.url route_ args with
      | Returns generated => Returns (Generated generated)
      | Throws e => Throws e
      end
  | None => Returns (Failed (mkError ("No route found for name: " +:+ name)))
  end.

(** [Router#param]. *)
Definition param (param_ : string) (fn : Route.Hook) (r : t) : t :=
  {| opts := opts r;
     methods := methods r;
     routes := map (Route.param param_ fn) (routes r);
     params := <[param_ := fn]> (params r) |}.

(** [Router#match]. *)
Definition match_ (r : t) (pathname : string) : option (list Matched.t) :=
  let matchedRoutes :=
    omap (fun route_ =>
            (fun m => {| Matched.params := Captured.params m;
                         Matched.path := Captured.path m;
                         Matched.route := route_ |}) <$> Route.match_ route_ pathname)
         (routes r) in
  match matchedRoutes with
  | [] => None
  | _ :: _ => Some matchedRoutes
  end.

(** [mergeParams(a, b)]. *)
Definition mergeParams (a b : option (gmap string (option string)))
    : option (gmap string (option string)) :=
  match b with
  | None => a
  | Some b_ => Some (b_ ∪ default ∅ a)
  end.

(** The chain of a route in the words of the specification: the hooks in
    the order in which their names appear in the URL pattern, each one
    called with the value of its parameter, followed by the original
    handler chain; a name without a hook is left out. *)
Section Chain.

Context {S : Type} (get : S -> Context.t) (put : Context.t -> S -> S).


End Chain.

(** The variables of one run of the router middleware: the context, and
    the locals [index], [called] and [methodsAvailable] that the closure
    [next] shares between its runs.  [delegations] counts the executions of
    [yield *done]; it is not in the source. *)
Record Frame := {
  context : Context.t;
  index : Z;
  called : bool;
  methodsAvailable : list string;
  delegations : nat
}.

Definition put (c : Context.t) (fr : Frame) : Frame :=
  {| context := c; index := index fr; called := called fr;
     methodsAvailable := methodsAvailable fr; delegations := delegations fr |}.

Definition set_index (i : Z) (fr : Frame) : Frame :=
  {| context := context fr; index := i; called := called fr;
     methodsAvailable := methodsAvailable fr; delegations := delegations fr |}.

Definition set_called (b : bool) (fr : Frame) : Frame :=
  {| context := context fr; index := index fr; called := b;
     methodsAvailable := methodsAvailable fr; delegations := delegations fr |}.

Definition set_methodsAvailable (l : list string) (fr : Frame) : Frame :=
  {| context := context fr; index := index fr; called := called fr;
     methodsAvailable := l; delegations := delegations fr |}.

Definition set_delegations (n : nat) (fr : Frame) : Frame :=
  {| context := context fr; index := index fr; called := called fr;
     methodsAvailable := methodsAvailable fr; delegations := n |}.

(** The part of a frame that no middleware body can reach. *)
Definition locals (fr : Frame) : Z * bool * list string * nat :=
  (index fr, called fr, methodsAvailable fr, delegations fr).

(** The run from [fr] to [fr'] went through one run of the generator [k],
    started on the locals of [fr]. *)
Definition delegated (k : Frame -> option (Outcome unit * Frame)) (fr fr' : Frame) : Prop :=
  exists fr1 o1 fr2,
    locals fr1 = locals fr /\ k fr1 = Some (o1, fr2) /\ locals fr' = locals fr2.

(** The generator [k'] does what [k] does wherever [k] runs to an end. *)
Definition extends (k k' : Frame -> option (Outcome unit * Frame)) : Prop :=
  forall fr r, k fr = Some r -> k' fr = Some r.

(** Fuel that lets [next] run from [fr] over [n] matched routes. *)
Definition need (n : nat) (fr : Frame) : nat :=
  S (Z.to_nat (Z.of_nat n - (index fr + 1))).

(** The downstream middleware, as the generator object [done]: what its
    body does to the context. *)
Definition Downstream : Type := Context.t -> Outcome unit * Context.t.

(** [yield *done]. *)
Definition yield_done (done : Downstream) (fr : Frame) : Outcome unit * Frame :=
  let fr' := set_delegations (S (delegations fr)) fr in
  match delegations fr with
  | O => let '(o, c) := done (context fr) in (o, put c fr')
  | S _ => (Returns tt, fr')
  end.

(** The block that writes the status when nothing handled the request. *)
Definition synthesize `{Deps.t} (r : t) (methodsAvailable_ : list string)
    (c : Context.t) : Context.t :=
  let c := Context.set_statusCode
             (if String.eqb (Context.method c) "OPTIONS" then 204 else 405) c in
  let c := Context.set "Allow" (Js.join ", " (Js.keys methodsAvailable_)) c in
  let c := if Js.indexOf (methods r) (Context.method c) <? 0
           then Context.set_statusCode 501 c else c in
  Context.set_statusMessage (Deps.statuses (Context.statusCode c)) c.

Section Dispatch.

Context `{Deps.t} (router : t) (done : Downstream).
Context (routes_ : list Matched.t) (pathname method : string).
Context (params_ : option (gmap string (option string))).

(** [shouldCallMiddleware] and the test that follows it. *)
Definition shouldCallMiddleware (route_ : Route.t) : bool :=
  (0 <=? Js.indexOf (Route.methods route_) method) || Route.asPrefix route_.

Definition applicable (route_ : Route.t) : bool :=
  shouldCallMiddleware route_ ||
  (String.eqb method "HEAD" && (0 <=? Js.indexOf (Route.methods route_) "GET")).

(** Replacing the context with the route context, and restoring it. *)
Definition rescope (m : Matched.t) (fr : Frame) : Frame :=
  put (Context.set_params
         (if Opts.mergeParams (opts router)
          then mergeParams params_ (Some (Matched.params m))
          else Some (Matched.params m))
         (Context.set_path (Matched.path m) (context fr))) fr.

Definition restore (prevParams : option (gmap string (option string)))
    (prevPathname : string) (fr : Frame) : Frame :=
  put (Context.set_path prevPathname (Context.set_params prevParams (context fr))) fr.

(** The branch of [next] that runs when the cursor has left the array:
    the downstream runs on the path and parameters of the request, the
    status is written if nothing handled the request, and the context of
    the caller is put back. *)
Definition exhausted (prevParams : option (gmap string (option string)))
    (prevPathname : string) (fr : Frame) : Outcome unit * Frame :=
  let fr := put (Context.set_params params_
                   (Context.set_path pathname (context fr))) fr in
  match yield_done done fr with
  | (Throws e, fr) => (Throws e, fr)
  | (Returns _, fr) =>
      let fr :=
        if negb (called fr) && negb (Context.explicitStatus (context fr))
        then put (synthesize router (methodsAvailable fr) (context fr)) fr
        else fr in
      (Returns tt, restore prevParams prevPathname fr)
  end.

(** The generator function [next]; every call [next()] makes a generator
    object, and [fuel] bounds how deeply they nest. *)
Fixpoint next (fuel : nat) (fr : Frame) : option (Outcome unit * Frame) :=
  match fuel with
  | O => None
  | S fuel' =>
      let prevParams := Context.params (context fr) in
      let prevPathname := Context.path (context fr) in
      let fr := set_index (index fr + 1) fr in
      if Z.of_nat (length routes_) <=? index fr then
        Some (exhausted prevParams prevPathname fr)
      else
        match Js.element routes_ (index fr) with
        | None =>
            Some (Throws (TypeError "Cannot read property 'route' of undefined"), fr)
        | Some m =>
            let route_ := Matched.route m in
            let fr :=
              if negb (shouldCallMiddleware route_) && String.eqb method "OPTIONS"
              then set_methodsAvailable
                     (foldl Js.define (methodsAvailable fr) (Route.methods route_)) fr
              else fr in
            if applicable route_ then
              let fr := rescope m (set_called true fr) in
              match Route.middleware route_ with
              | None =>
                  Some (Throws (TypeError "Cannot read property 'call' of undefined"), fr)
              | Some mw =>
                  match Koa.call context put mw (next fuel') fr with
                  | None => None
                  | Some (Throws e, fr) => Some (Throws e, fr)
                  | Some (Returns _, fr) =>
                      Some (Returns tt, restore prevParams prevPathname fr)
                  end
              end
            else next fuel' fr
        end
  end.

End Dispatch.

(** What the walk has recorded in [methodsAvailable], starting from [own],
    once it has passed the matched routes [routes_] without calling any:
    for an [OPTIONS] request the methods those routes declare, each once,
    in the order met; for any other request nothing. *)
Definition recorded (method : string) (routes_ : list Matched.t) (own : list string)
    : list string :=
  if String.eqb method "OPTIONS"
  then foldl Js.define own (concat (map (fun m => Route.methods (Matched.route m)) routes_))
  else own.

(** The generator function that [Router#middleware] returns, run on the
    context [ctx] with the downstream generator [done]. *)
Definition initial (ctx : Context.t) : Frame :=
  {| context := ctx; index := -1; called := false;
     methodsAvailable := []; delegations := 0 |}.

Definition middleware `{Deps.t} (router : t) (done : Downstream) (ctx : Context.t)
    : option (Outcome unit * Frame) :=
  let pathname := Context.path ctx in
  match match_ router pathname with
  | None => Some (yield_done done (initial ctx))
  | Some routes_ =>
      next router done routes_ pathname (Context.method ctx) (Context.params ctx)
           (S (length routes_)) (initial ctx)
  end.

(** The downstream has run once if the cursor has left an array of [n]
    matched routes, and not at all if it has not. *)
Definition exhausted_once (n : nat) (fr : Frame) : Prop :=
  delegations fr = if Z.of_nat n <=? index fr then 1%nat else 0%nat.


(** What identifies a route, its hooks apart. *)
Definition route_id (rt : Route.t) : option string * string * list string * bool :=
  (Route.name rt, Route.path rt, Route.methods rt, Route.asPrefix rt).

(** A registration call on a router. *)
Inductive Call : Type :=
| Register (name : option string) (path : Route.Path) (methods_ : list string)
    (middleware_ : list Middleware)
| Verb (method : string) (name : option string) (path : Route.Path)
    (middleware_ : list Middleware)
| All (name : option string) (path : Route.Path) (middleware_ : list Middleware)
| Mount (name : option string) (path : Route.Path) (middleware_ : list Middleware)
| Param (param_ : string) (fn : Route.Hook).

Definition apply `{Deps.t} (c : Call) (r : t) : Outcome t :=
  match c with
  | Register name path methods_ mws => returning_this (register name path methods_ mws r)
  | Verb method name path mws => verb method name path mws r
  | All name path mws => all name path mws r
  | Mount name path mws => mount name path mws r
  | Param param_ fn => Returns (param param_ fn r)
  end.

(** The router after a call; a call that raises has not changed it. *)
Definition after `{Deps.t} (r : t) (c : Call) : t :=
  match apply c r with
  | Returns r' => r'
  | Throws _ => r
  end.

(** The router that a sequence of calls on [new Router(opts)] leaves. *)
Definition configured `{Deps.t} (opts : option Opts.t) (calls : list Call) : t :=
  foldl after (new opts) calls.

End Router.

(** ** An instance of the required modules

    Modelled from the spec: [path-to-regexp], [methods] and [statuses] are
    packages the sources [require]; the theorems below hold for any
    instance, and the examples run on this one.  The compiler follows the
    contract of the Pattern Compiler for templates made of literal segments
    and [:name] segments: a literal segment matches itself, a [:name]
    segment captures one non-empty segment without a slash, [strict] makes
    a trailing slash significant, [end_] anchors the match at the end of the
    path, and without [end_] the match stops on a segment boundary. *)

Module Model.

Inductive Token : Type :=
| Lit (text : string)
| Par (name : string).

Definition token (segment : string) : Token :=
  match segment with
  | String ":" (String c r) => Par (String c r)
  | _ => Lit segment
  end.

Definition same (sensitive : bool) (a b : string) : bool :=
  if sensitive then String.eqb a b
  else String.eqb (Js.fold_case a) (Js.fold_case b).

(** One segment of the template against the front of the path. *)
Definition match_token (sensitive : bool) (t : Token) (p : string)
    : option (list (option string) * string) :=
  match t with
  | Lit text =>
      let n := String.length text in
      if same sensitive text (String.substring 0 n p)
      then Some ([], Js.substr n p) else None
  | Par _ =>
      match Js.span_noslash p with
      | (EmptyString, _) => None
      | (w, rest) => Some ([Some w], rest)
      end
  end.

(** The segments after the first one, each behind a slash. *)
Fixpoint match_segments (sensitive : bool) (ts : list Token) (p : string)
    : option (list (option string) * string) :=
  match ts with
  | [] => Some ([], p)
  | t :: rest =>
      match p with
      | String "/" p' =>
          match match_token sensitive t p' with
          | Some (caps, p'') =>
              match match_segments sensitive rest p'' with
              | Some (caps', r) => Some ((caps ++ caps')%list, r)
              | None => None
              end
          | None => None
          end
      | _ => None
      end
  end.

Definition match_template (sensitive : bool) (ts : list Token) (p : string)
    : option (list (option string) * string) :=
  match ts with
  | [] => Some ([], p)
  | t :: rest =>
      match match_token sensitive t p with
      | Some (caps, p') =>
          match match_segments sensitive rest p' with
          | Some (caps', r) => Some ((caps ++ caps')%list, r)
          | None => None
          end
      | None => None
      end
  end.

Definition ends_with_slash (ts : list Token) : bool :=
  match ts with
  | _ :: _ :: _ => match last ts with Some (Lit EmptyString) => true | _ => false end
  | _ => false
  end.

Definition exec (template : string) (o : P2R.Options) (p : string)
    : option (string * list (option string)) :=
  let ts := map token (Js.split "/" template) in
  let slash := ends_with_slash ts in
  let ts := if negb (P2R.strict o) && slash then removelast ts else ts in
  match match_template (P2R.sensitive o) ts p with
  | None => None
  | Some (caps, rest) =>
      let rest := if negb (P2R.strict o) && String.eqb rest "/" then "" else rest in
      let matched := String.substring 0 (String.length p - String.length rest) p in
      if P2R.end_ o then
        if String.eqb rest "" then Some (matched, caps) else None
      else if P2R.strict o && slash then Some (matched, caps)
      else match Js.charAt0 rest with
           | None | Some "/"%char => Some (matched, caps)
           | Some _ => None
           end
  end.

Definition names (template : string) : list P2R.Key :=
  omap (fun t => match t with
                 | Par n => Some {| P2R.name := n; P2R.optional := false |}
                 | Lit _ => None
                 end)
       (map token (Js.split "/" template)).

Definition pathToRegexp (template : string) (o : P2R.Options)
    : Outcome (P2R.RegExp * list P2R.Key) :=
  Returns ({| P2R.source := template; P2R.exec := exec template o |}, names template).

Definition methods : list string :=
  ["get"; "post"; "put"; "head"; "delete"; "options"; "trace"; "copy"; "lock";
   "mkcol"; "move"; "purge"; "propfind"; "proppatch"; "unlock"; "report";
   "mkactivity"; "checkout"; "merge"; "m-search"; "notify"; "subscribe";
   "unsubscribe"; "patch"; "search"; "connect"].

Definition statuses (code : Z) : option string :=
  if code =? 204 then Some "No Content"
  else if code =? 404 then Some "Not Found"
  else if code =? 405 then Some "Method Not Allowed"
  else if code =? 501 then Some "Not Implemented"
  else None.

(** The names of the methods and of the routes in the examples are in
    ASCII, where [toUpperCase] is [Js.fold_case]. *)
#[export] Instance deps : Deps.t :=
  {| Deps.pathToRegexp := pathToRegexp;
     Deps.methods := methods;
     Deps.statuses := statuses;
     Deps.toUpperCase := Js.fold_case |}.

(** A fresh koa context for a request. *)
Definition request (method path : string) : Context.t :=
  {| Context.path := path; Context.params := None; Context.method := method;
     Context.statusCode := 404; Context.statusMessage := None;
     Context.explicitStatus := false; Context.headers := ∅;
     Context.body := None; Context.state := ∅ |}.

(** A downstream that does nothing. *)
Definition idle : Router.Downstream := fun c => (Returns tt, c).

End Model.

(** ** Routers and requests used in the examples *)

Module Examples.

Import Model.

Definition noop : Middleware := Function Ret.

(** [GET /user] and [POST /user]. *)
Definition users : Router.t :=
  Router.configured None
    [Router.Verb "get" None (Route.Template "/user") [noop];
     Router.Verb "post" None (Route.Template "/user") [noop]].

(** The same, with [DELETE /others]. *)
Definition users_and_others : Router.t :=
  Router.configured None
    [Router.Verb "get" None (Route.Template "/user") [noop];
     Router.Verb "post" None (Route.Template "/user") [noop];
     Router.Verb "delete" None (Route.Template "/others") [noop]].

(** [GET /:category/:title], named [books]. *)
Definition books : Router.t :=
  Router.configured None
    [Router.Verb "get" (Some "books") (Route.Template "/:category/:title") [noop]].

(** [GET /user] with a middleware that raises. *)
Definition boom : Error := mkError "boom".

Definition failing : Router.t :=
  Router.configured None
    [Router.Verb "get" None (Route.Template "/user") [Function (Throw boom)]].

(** [ctx.state.orders += s]. *)
Definition push (s : string) (c : Context.t) : Context.t :=
  Context.set_state "orders" (default "" (Context.state c !! "orders") +:+ s) c.

(** Hooks for [user] and then for [first], and a route whose template
    names [first] before [user]. *)
Definition hook (s : string) : Route.Hook :=
  fun _ => Update (push s) (YieldNext Ret).

Definition nested : Router.t :=
  Router.configured None
    [Router.Param "user" (hook "2");
     Router.Param "first" (hook "1");
     Router.Verb "get" None (Route.Template "/:first/users/:user")
       [Function (Update (push "3") Ret)];
     Router.Param "other" (hook "4")].

(** A middleware that notes the path it sees, delegates, and notes the
    path it sees afterwards. *)
Definition note (c : Context.t) : Context.t := push (Context.path c +:+ ";") c.

Definition probe : Middleware := Function (Update note (YieldNext (Update note Ret))).

(** A prefix route on [/:category] and [GET /users/:id]. *)
Definition scoped : Router.t :=
  Router.configured None
    [Router.Register None (Route.Template "/:category") [] [probe];
     Router.Verb "get" None (Route.Template "/users/:id") [probe]].

(** [GET /users/:id] only. *)
Definition user_by_id : Router.t :=
  Router.configured None
    [Router.Verb "get" None (Route.Template "/users/:id")
       [Function (Update (Context.set_status 200) Ret)]].

Definition nonstrict : Opts.t :=
  {| Opts.strict := false; Opts.caseSensitive := false; Opts.mergeParams := false |}.

(** A prefix route on [/info/], on a router that is not strict. *)
Definition info : Router.t :=
  Router.configured (Some nonstrict)
    [Router.Register None (Route.Template "/info/") [] [noop]].




(** A downstream that answers with a status of its own, and one that
    raises. *)
Definition answering : Router.Downstream :=
  fun c => (Returns tt, Context.set_status 200 c).

Definition raising : Router.Downstream := fun c => (Throws boom, c).

End Examples.

(** * Properties *)

(** ** Generators delegate to their continuation at most once *)

Section Linear.

Implicit Types (fr : Router.Frame) (g : Gen).

Local Abbreviation Cont := (Router.Frame -> option (Outcome unit * Router.Frame)).
Local Abbreviation run := (Koa.run Router.context Router.put).
Local Abbreviation call_gen := (Koa.call_gen Router.context Router.put).
Local Abbreviation compose := (Koa.compose Router.context Router.put).
Local Abbreviation call_fn := (Koa.call_fn Router.context Router.put).
Local Abbreviation compose_fns := (Koa.compose_fns Router.context Router.put).
Local Abbreviation call := (Koa.call Router.context Router.put).

Lemma locals_put c fr : Router.locals (Router.put c fr) = Router.locals fr.
Proof. reflexivity. Qed.

Lemma delegated_here (k : Cont) fr o fr' :
  k fr = Some (o, fr') -> Router.delegated k fr fr'.
Proof. intros Hk. exists fr, o, fr'. auto. Qed.

Lemma delegated_locals (k : Cont) fr0 fr fr' fr'' :
  Router.locals fr = Router.locals fr0 ->
  Router.locals fr'' = Router.locals fr' ->
  Router.delegated k fr fr' -> Router.delegated k fr0 fr''.
Proof.
  intros H0 H2 (fr1 & o1 & fr2 & Ha & Hb & Hc).
  exists fr1, o1, fr2. repeat split; congruence.
Qed.

(** Whatever a body does, the locals at its end are those at its start, or
    those its continuation left after the one run the body gave it. *)
Lemma run_linear g : forall (k : Cont) started fr o st fr',
  run g k started fr = Some (o, st, fr') ->
  (st = started /\ Router.locals fr' = Router.locals fr) \/
  (started = false /\ st = true /\ Router.delegated k fr fr').
Proof.
  induction g as [ | e | f g IH | f IH | g IH | body IHb handler IHh g IHk ];
    intros k started fr o st fr' Hrun; simpl in Hrun.
  - inversion Hrun; subst. left; auto.
  - inversion Hrun; subst. left; auto.
  - apply IH in Hrun as [[-> Hl] | (-> & -> & Hd)].
    + left. split; [reflexivity | exact Hl].
    + right. repeat split.
      eapply delegated_locals; [ | reflexivity | exact Hd ]. reflexivity.
  - eapply IH; exact Hrun.
  - destruct started.
    + apply IH in Hrun as [[-> Hl] | (Hf & _)]; [left; auto | discriminate].
    + destruct (k fr) as [[[[] | e] fr1] | ] eqn:Hk; try discriminate.
      * apply IH in Hrun as [[-> Hl] | (Hf & _)]; [ | discriminate ].
        right. repeat split. exists fr, (Returns tt), fr1. auto.
      * inversion Hrun; subst. right. repeat split.
        eapply delegated_here; exact Hk.
  - destruct (run body k started fr) as [[[ob stb] frb] | ] eqn:Hb; [ | discriminate ].
    apply IHb in Hb.
    assert (Hcont : forall g' o' st' fr'',
               (forall k started fr o st fr',
                   run g' k started fr = Some (o, st, fr') ->
                   (st = started /\ Router.locals fr' = Router.locals fr) \/
                   (started = false /\ st = true /\ Router.delegated k fr fr')) ->
               run g' k stb frb = Some (o', st', fr'') ->
               (st' = started /\ Router.locals fr'' = Router.locals fr) \/
               (started = false /\ st' = true /\ Router.delegated k fr fr'')).
    { intros g' o' st' fr'' IHg Hg. apply IHg in Hg.
      destruct Hb as [[-> Hlb] | (-> & -> & Hdb)].
      - destruct Hg as [[-> Hl] | (-> & -> & Hd)].
        + left. split; congruence.
        + right. repeat split. eapply delegated_locals; [ | reflexivity | exact Hd ].
          exact Hlb.
      - destruct Hg as [[-> Hl] | (Hf & _)]; [ | discriminate ].
        right. repeat split. eapply delegated_locals; [ reflexivity | | exact Hdb ].
        exact Hl. }
    destruct ob as [[] | e].
    + eapply Hcont; [ exact IHk | exact Hrun ].
    + destruct (run (handler e) k stb frb) as [[[oh sth] frh] | ] eqn:Hh; [ | discriminate ].
      pose proof (Hcont _ _ _ _ (IHh e) Hh) as Hmid.
      destruct oh as [[] | e'].
      * apply IHk in Hrun.
        destruct Hmid as [[-> Hlh] | (-> & -> & Hdh)].
        -- destruct Hrun as [[-> Hl] | (-> & -> & Hd)].
           ++ left. split; congruence.
           ++ right. repeat split. eapply delegated_locals; [ | reflexivity | exact Hd ].
              exact Hlh.
        -- destruct Hrun as [[-> Hl] | (Hf & _)]; [ | discriminate ].
           right. repeat split. eapply delegated_locals; [ reflexivity | | exact Hdh ].
           exact Hl.
      * inversion Hrun; subst. exact Hmid.
Qed.

(** A body runs to its end when its continuation does, on the locals the
    body started with. *)
Lemma run_total g : forall (k : Cont) started fr,
  (started = false ->
   forall fr1, Router.locals fr1 = Router.locals fr -> is_Some (k fr1)) ->
  is_Some (run g k started fr).
Proof.
  induction g as [ | e | f g IH | f IH | g IH | body IHb handler IHh g IHk ];
    intros k started fr Hk; simpl.
  - eauto.
  - eauto.
  - apply IH. intros Hs fr1 Hl. apply Hk; [exact Hs | exact Hl].
  - apply IH. exact Hk.
  - destruct started.
    + apply IH. intros Hs; discriminate.
    + destruct (Hk eq_refl fr eq_refl) as [[[[] | e] fr1] Hfr]; rewrite Hfr.
      * apply IH. intros Hs; discriminate.
      * eauto.
  - destruct (IHb k started fr Hk) as [[[ob stb] frb] Hb]. rewrite Hb.
    assert (Hnext : stb = false ->
              forall fr1, Router.locals fr1 = Router.locals frb -> is_Some (k fr1)).
    { intros Hs fr1 Hl.
      apply run_linear in Hb as [[-> Hlb] | (_ & -> & _)]; [ | discriminate ].
      apply Hk; [exact Hs | congruence]. }
    destruct ob as [[] | e].
    + apply IHk. exact Hnext.
    + destruct (IHh e k stb frb Hnext) as [[[oh sth] frh] Hh]. rewrite Hh.
      destruct oh as [[] | e']; [ | eauto ].
      apply IHk. intros Hs fr1 Hl.
      apply run_linear in Hh as [[-> Hlh] | (_ & -> & _)]; [ | discriminate ].
      apply Hnext; [exact Hs | congruence].
Qed.

Lemma call_gen_linear g (k : Cont) fr o fr' :
  call_gen g k fr = Some (o, fr') ->
  Router.locals fr' = Router.locals fr \/ Router.delegated k fr fr'.
Proof.
  unfold Koa.call_gen. intros Hc.
  destruct (run g k false fr) as [[[o1 st] fr1] | ] eqn:Hr; [ | discriminate ].
  inversion Hc; subst.
  apply run_linear in Hr as [[_ Hl] | (_ & _ & Hd)]; auto.
Qed.

Lemma call_gen_total g (k : Cont) fr :
  (forall fr1, Router.locals fr1 = Router.locals fr -> is_Some (k fr1)) ->
  is_Some (call_gen g k fr).
Proof.
  intros Hk. unfold Koa.call_gen.
  destruct (run_total g k false fr (fun _ => Hk)) as [[[o st] fr'] Hr].
  rewrite Hr. eauto.
Qed.

Lemma compose_linear gs (k : Cont) : forall fr o fr',
  compose gs k fr = Some (o, fr') ->
  Router.locals fr' = Router.locals fr \/ Router.delegated k fr fr'.
Proof.
  induction gs as [ | g gs IH ]; intros fr o fr' Hc; simpl in Hc.
  - right. eapply delegated_here; exact Hc.
  - apply call_gen_linear in Hc as [Hl | (fr1 & o1 & fr2 & Ha & Hb & Hd)]; [auto | ].
    apply IH in Hb as [Hl | Hdel].
    + left. congruence.
    + right. eapply delegated_locals; [ exact Ha | | exact Hdel ]. exact Hd.
Qed.

Lemma compose_total gs (k : Cont) : forall fr,
  (forall fr1, Router.locals fr1 = Router.locals fr -> is_Some (k fr1)) ->
  is_Some (compose gs k fr).
Proof.
  induction gs as [ | g gs IH ]; intros fr Hk; simpl.
  - apply Hk. reflexivity.
  - apply call_gen_total. intros fr1 Hl. apply IH.
    intros fr2 Hl2. apply Hk. congruence.
Qed.

Lemma call_fn_linear f (k : Cont) fr o fr' :
  call_fn f k fr = Some (o, fr') ->
  Router.locals fr' = Router.locals fr \/ Router.delegated k fr fr'.
Proof.
  destruct f as [g | gs]; simpl.
  - apply call_gen_linear.
  - apply compose_linear.
Qed.

Lemma call_fn_total f (k : Cont) fr :
  (forall fr1, Router.locals fr1 = Router.locals fr -> is_Some (k fr1)) ->
  is_Some (call_fn f k fr).
Proof.
  destruct f as [g | gs]; simpl.
  - apply call_gen_total.
  - apply compose_total.
Qed.

Lemma compose_fns_linear fs (k : Cont) : forall fr o fr',
  compose_fns fs k fr = Some (o, fr') ->
  Router.locals fr' = Router.locals fr \/ Router.delegated k fr fr'.
Proof.
  induction fs as [ | f fs IH ]; intros fr o fr' Hc; simpl in Hc.
  - right. eapply delegated_here; exact Hc.
  - apply call_fn_linear in Hc as [Hl | (fr1 & o1 & fr2 & Ha & Hb & Hd)]; [auto | ].
    apply IH in Hb as [Hl | Hdel].
    + left. congruence.
    + right. eapply delegated_locals; [ exact Ha | | exact Hdel ]. exact Hd.
Qed.

Lemma compose_fns_total fs (k : Cont) : forall fr,
  (forall fr1, Router.locals fr1 = Router.locals fr -> is_Some (k fr1)) ->
  is_Some (compose_fns fs k fr).
Proof.
  induction fs as [ | f fs IH ]; intros fr Hk; simpl.
  - apply Hk. reflexivity.
  - apply call_fn_total. intros fr1 Hl. apply IH.
    intros fr2 Hl2. apply Hk. congruence.
Qed.

Lemma call_linear mw (k : Cont) fr o fr' :
  call mw k fr = Some (o, fr') ->
  Router.locals fr' = Router.locals fr \/ Router.delegated k fr fr'.
Proof.
  destruct mw as [f | fs]; simpl.
  - apply call_fn_linear.
  - apply compose_fns_linear.
Qed.

Lemma call_total mw (k : Cont) fr :
  (forall fr1, Router.locals fr1 = Router.locals fr -> is_Some (k fr1)) ->
  is_Some (call mw k fr).
Proof.
  destruct mw as [f | fs]; simpl.
  - apply call_fn_total.
  - apply compose_fns_total.
Qed.

End Linear.

(** ** The walk over the matched routes *)

Section Walk.

Context `{Deps.t} (router : Router.t) (done : Router.Downstream).
Context (routes_ : list Matched.t) (pathname method : string).
Context (params_ : option (gmap string (option string))).

Implicit Types (fr : Router.Frame).

Local Abbreviation next := (Router.next router done routes_ pathname method params_).
Local Abbreviation exhausted := (Router.exhausted router done pathname params_).
Local Abbreviation rescope := (Router.rescope router params_).
Local Abbreviation applicable := (Router.applicable method).
Local Abbreviation shouldCallMiddleware := (Router.shouldCallMiddleware method).

Lemma element_Some {A} (l : list A) i x :
  Js.element l i = Some x -> 0 <= i < Z.of_nat (length l) /\ l !! Z.to_nat i = Some x.
Proof.
  unfold Js.element. destruct (i <? 0) eqn:Hi; [discriminate | ].
  intros Hl. apply Z.ltb_ge in Hi. split; [ | exact Hl ].
  apply lookup_lt_Some in Hl. lia.
Qed.

Lemma element_lt {A} (l : list A) i :
  0 <= i < Z.of_nat (length l) -> is_Some (Js.element l i).
Proof.
  intros Hi. unfold Js.element.
  destruct (i <? 0) eqn:Hlt; [apply Z.ltb_lt in Hlt; lia | ].
  apply lookup_lt_is_Some. lia.
Qed.

(** An applicable route that [shouldCallMiddleware] rejects answers a
    [HEAD] request, so nothing is recorded for it. *)
Lemma applicable_not_recorded route_ :
  applicable route_ = true ->
  negb (shouldCallMiddleware route_) && String.eqb method "OPTIONS" = false.
Proof.
  unfold Router.applicable.
  destruct (shouldCallMiddleware route_); [reflexivity | ]. simpl.
  destruct (String.eqb method "HEAD") eqn:Hm; [ | discriminate ].
  apply String.eqb_eq in Hm. subst method. reflexivity.
Qed.

Lemma not_applicable route_ :
  applicable route_ = false -> shouldCallMiddleware route_ = false.
Proof.
  unfold Router.applicable. destruct (shouldCallMiddleware route_); [discriminate | reflexivity].
Qed.

(** [next] always runs to an end when it is given the fuel it needs. *)
Lemma next_total : forall fuel fr,
  (Router.need (length routes_) fr <= fuel)%nat -> is_Some (next fuel fr).
Proof.
  induction fuel as [ | fuel IH ]; intros fr Hn.
  - unfold Router.need in Hn. lia.
  - simpl.
    destruct (Z.of_nat (length routes_) <=? Router.index fr + 1) eqn:Hend; [eauto | ].
    apply Z.leb_gt in Hend.
    destruct (Js.element routes_ (Router.index fr + 1)) as [m | ]; [ | eauto ].
    assert (Hrec : forall fr1, Router.index fr1 = Router.index fr + 1 ->
                               is_Some (next fuel fr1)).
    { intros fr1 Hi. apply IH. unfold Router.need in *. rewrite Hi. lia. }
    destruct (applicable (Matched.route m)).
    + destruct (Route.middleware (Matched.route m)) as [mw | ]; [ | eauto ].
      match goal with
      | |- context [Koa.call _ _ mw ?k ?f] =>
          destruct (call_total mw k f) as [[[[] | e] fr1] Hc]
      end.
      * intros fr1 Hl. apply Hrec.
        unfold Router.locals in Hl.
        destruct (negb _ && _); simpl in Hl; congruence.
      * rewrite Hc. eauto.
      * rewrite Hc. eauto.
    + apply Hrec. destruct (negb _ && _); reflexivity.
Qed.

(** When [next] returns, the path and the parameters of the context are
    those it found. *)
Lemma next_restores : forall fuel fr fr',
  next fuel fr = Some (Returns tt, fr') ->
  Context.path (Router.context fr') = Context.path (Router.context fr) /\
  Context.params (Router.context fr') = Context.params (Router.context fr).
Proof.
  induction fuel as [ | fuel IH ]; intros fr fr' Hn; [discriminate | ].
  simpl in Hn.
  destruct (Z.of_nat (length routes_) <=? Router.index fr + 1).
  - unfold Router.exhausted in Hn.
    destruct (Router.yield_done _ _) as [[[] | e] fr1]; [ | discriminate ].
    inversion Hn; subst. split; reflexivity.
  - destruct (Js.element routes_ (Router.index fr + 1)) as [m | ]; [ | discriminate ].
    destruct (applicable (Matched.route m)).
    + destruct (Route.middleware (Matched.route m)) as [mw | ]; [ | discriminate ].
      destruct (Koa.call _ _ mw _ _) as [[[[] | e] fr1] | ]; try discriminate.
      inversion Hn; subst. split; reflexivity.
    + apply IH in Hn as [Hp Hq].
      destruct (negb _ && _); simpl in Hp, Hq; auto.
Qed.

Lemma recorded_nil own : Router.recorded method [] own = own.
Proof. unfold Router.recorded. destruct (String.eqb method "OPTIONS"); reflexivity. Qed.

Lemma recorded_cons m rest own :
  Router.recorded method (m :: rest) own =
  Router.recorded method rest
    (if String.eqb method "OPTIONS"
     then foldl Js.define own (Route.methods (Matched.route m)) else own).
Proof.
  unfold Router.recorded. destruct (String.eqb method "OPTIONS"); [ | reflexivity ].
  simpl. rewrite foldl_app. reflexivity.
Qed.

(** Past routes none of which is applicable, [next] reaches its last
    branch with the cursor on the length of the array, nothing called, and
    the methods of those routes recorded. *)
Lemma next_falls_through : forall fuel fr,
  (Router.need (length routes_) fr <= fuel)%nat ->
  -1 <= Router.index fr <= Z.of_nat (length routes_) - 1 ->
  (forall m, m ∈ drop (Z.to_nat (Router.index fr + 1)) routes_ ->
             applicable (Matched.route m) = false) ->
  next fuel fr =
  Some (exhausted (Context.params (Router.context fr)) (Context.path (Router.context fr))
          (Router.set_methodsAvailable
             (Router.recorded method (drop (Z.to_nat (Router.index fr + 1)) routes_)
                (Router.methodsAvailable fr))
             (Router.set_index (Z.of_nat (length routes_)) fr))).
Proof.
  induction fuel as [ | fuel IH ]; intros fr Hn Hi Hall.
  - unfold Router.need in Hn. lia.
  - simpl.
    destruct (Z.of_nat (length routes_) <=? Router.index fr + 1) eqn:Hend.
    + apply Z.leb_le in Hend.
      assert (Heq : Router.index fr + 1 = Z.of_nat (length routes_)) by lia.
      rewrite drop_ge by lia. rewrite recorded_nil, Heq.
      destruct fr; reflexivity.
    + apply Z.leb_gt in Hend.
      destruct (element_lt routes_ (Router.index fr + 1)) as [m Hm]; [lia | ].
      rewrite Hm. apply element_Some in Hm as [_ Hm].
      rewrite (drop_S _ _ _ Hm) in Hall |- *.
      assert (Happ : applicable (Matched.route m) = false).
      { apply Hall. left. }
      rewrite Happ, (not_applicable _ Happ). simpl negb. rewrite andb_true_l.
      rewrite recorded_cons.
      assert (Hsucc : Z.to_nat (Router.index fr + 1 + 1) = S (Z.to_nat (Router.index fr + 1)))
        by lia.
      destruct (String.eqb method "OPTIONS").
      * rewrite IH; simpl.
        -- rewrite Hsucc. destruct fr; reflexivity.
        -- unfold Router.need in *. simpl. lia.
        -- lia.
        -- intros m' Hm'. apply Hall. right. rewrite Hsucc in Hm'. exact Hm'.
      * rewrite IH; simpl.
        -- rewrite Hsucc. destruct fr; reflexivity.
        -- unfold Router.need in *. simpl. lia.
        -- lia.
        -- intros m' Hm'. apply Hall. right. rewrite Hsucc in Hm'. exact Hm'.
Qed.

Local Abbreviation delegated_iff_exhausted := (Router.exhausted_once (length routes_)).

Lemma next_delegations : forall fuel fr o fr',
  Router.index fr < Z.of_nat (length routes_) ->
  Router.delegations fr = 0%nat ->
  next fuel fr = Some (o, fr') ->
  delegated_iff_exhausted fr'.
Proof.
  assert (Hloc : forall fr1 fr2, Router.locals fr1 = Router.locals fr2 ->
                   delegated_iff_exhausted fr2 -> delegated_iff_exhausted fr1).
  { intros fr1 fr2 Hl. unfold Router.exhausted_once, Router.locals in *.
    inversion Hl. congruence. }
  assert (Hin : forall fr, Router.index fr < Z.of_nat (length routes_) ->
                  Router.delegations fr = 0%nat -> delegated_iff_exhausted fr).
  { intros fr Hi Hd. unfold Router.exhausted_once. rewrite Hd.
    destruct (Z.of_nat (length routes_) <=? Router.index fr) eqn:E; [ | reflexivity ].
    apply Z.leb_le in E. lia. }
  induction fuel as [ | fuel IH ]; intros fr o fr' Hi Hd Hn; [discriminate | ].
  simpl in Hn.
  destruct (Z.of_nat (length routes_) <=? Router.index fr + 1) eqn:Hend.
  - apply Z.leb_le in Hend.
    unfold Router.exhausted, Router.yield_done in Hn. simpl in Hn. rewrite Hd in Hn.
    destruct (done _) as [[[] | e] c1]; inversion Hn; subst;
      unfold Router.exhausted_once;
      [ destruct (negb _ && _) | ]; simpl;
      (destruct (Z.of_nat (length routes_) <=? Router.index fr + 1) eqn:E;
       [reflexivity | apply Z.leb_gt in E; lia]).
  - apply Z.leb_gt in Hend.
    destruct (Js.element routes_ (Router.index fr + 1)) as [m | ].
    2:{ inversion Hn; subst. apply Hin; simpl; [lia | exact Hd]. }
    set (frm := if negb (shouldCallMiddleware (Matched.route m)) && String.eqb method "OPTIONS"
                then _ else _) in Hn.
    assert (Hfrm : Router.index frm = Router.index fr + 1 /\ Router.delegations frm = 0%nat).
    { subst frm. destruct (negb _ && _); simpl; auto. }
    destruct Hfrm as [Hfi Hfd].
    destruct (applicable (Matched.route m)).
    + destruct (Route.middleware (Matched.route m)) as [mw | ].
      2:{ inversion Hn; subst. apply Hin; simpl; [lia | exact Hfd]. }
      destruct (Koa.call _ _ mw _ _) as [[o1 fr1] | ] eqn:Hc; [ | discriminate ].
      assert (Hfr1 : delegated_iff_exhausted fr1).
      { apply call_linear in Hc as [Hl | (fa & oa & fb & Ha & Hb & Hl)].
        - eapply Hloc; [exact Hl | ]. apply Hin; simpl; [lia | exact Hfd].
        - eapply Hloc; [exact Hl | ].
          eapply IH; [ | | exact Hb ];
            unfold Router.locals in Ha; simpl in Ha; inversion Ha; lia. }
      destruct o1 as [[] | e]; inversion Hn; subst; [ | exact Hfr1 ].
      eapply Hloc; [ | exact Hfr1 ]. reflexivity.
    + eapply IH; [ | | exact Hn ]; lia.
Qed.

(** C1, as amended.  When the cursor reaches an applicable route, its
    middleware is called on the context rescoped to the route.  If the
    middleware returns, [next] returns with the path and the parameters
    the context had before the rescoping.  If the middleware raises, [next]
    raises the same error and the frame is as the middleware left it:
    nothing is put back on this way out. *)
Theorem route_scope_restored_on_return fuel fr m mw o fr2 :
  Js.element routes_ (Router.index fr + 1) = Some m ->
  applicable (Matched.route m) = true ->
  Route.middleware (Matched.route m) = Some mw ->
  Koa.call Router.context Router.put mw (next fuel)
    (rescope m (Router.set_called true (Router.set_index (Router.index fr + 1) fr)))
  = Some (o, fr2) ->
  exists fr',
    next (S fuel) fr = Some (o, fr') /\
    match o with
    | Returns _ =>
        fr' = Router.restore (Context.params (Router.context fr))
                (Context.path (Router.context fr)) fr2 /\
        Context.path (Router.context fr') = Context.path (Router.context fr) /\
        Context.params (Router.context fr') = Context.params (Router.context fr)
    | Throws _ => fr' = fr2
    end.
Proof.
  intros Hm Happ Hmw Hcall. simpl.
  pose proof (element_Some _ _ _ Hm) as [[_ Hlt] _].
  destruct (Z.of_nat (length routes_) <=? Router.index fr + 1) eqn:Hend;
    [apply Z.leb_le in Hend; lia | ].
  rewrite Hm, Happ, (applicable_not_recorded _ Happ), Hmw, Hcall.
  destruct o as [[] | e]; eexists; split; try reflexivity.
  repeat split.
Qed.

End Walk.

(** ** The router middleware *)

Section Middleware.

Context `{Deps.t}.

Implicit Types (router : Router.t) (done : Router.Downstream) (ctx : Context.t).

Lemma context_eta ctx :
  Context.set_params (Context.params ctx) (Context.set_path (Context.path ctx) ctx) = ctx.
Proof. destruct ctx; reflexivity. Qed.

(** The middleware always runs to an end: the fuel it gives [next] is
    enough. *)
Lemma middleware_total router done ctx :
  is_Some (Router.middleware router done ctx).
Proof.
  unfold Router.middleware.
  destruct (Router.match_ router (Context.path ctx)) as [routes_ | ]; [ | eauto ].
  apply next_total. unfold Router.need. simpl. lia.
Qed.

(** A request that matches routes none of which is applicable, with a
    downstream that returns without an explicit status: the status is
    written from what the walk recorded. *)
Lemma middleware_fallback router done ctx routes_ ctx1 :
  Router.match_ router (Context.path ctx) = Some routes_ ->
  (forall m, m ∈ routes_ ->
             Router.applicable (Context.method ctx) (Matched.route m) = false) ->
  done ctx = (Returns tt, ctx1) ->
  Context.explicitStatus ctx1 = false ->
  Router.middleware router done ctx =
  Some (Returns tt,
        {| Router.context :=
             Context.set_path (Context.path ctx)
               (Context.set_params (Context.params ctx)
                  (Router.synthesize router
                     (Router.recorded (Context.method ctx) routes_ []) ctx1));
           Router.index := Z.of_nat (length routes_);
           Router.called := false;
           Router.methodsAvailable := Router.recorded (Context.method ctx) routes_ [];
           Router.delegations := 1 |}).
Proof.
  intros Hmatch Hall Hdone Hexp. unfold Router.middleware. rewrite Hmatch.
  rewrite next_falls_through.
  - simpl. unfold Router.exhausted, Router.yield_done. simpl.
    rewrite context_eta, Hdone. simpl. rewrite Hexp. reflexivity.
  - unfold Router.need. simpl. lia.
  - simpl. lia.
  - simpl. exact Hall.
Qed.

(** When routes match and the middleware returns, the context has the
    path and the parameters of the request again. *)
Lemma middleware_restores router done ctx routes_ fr' :
  Router.match_ router (Context.path ctx) = Some routes_ ->
  Router.middleware router done ctx = Some (Returns tt, fr') ->
  Context.path (Router.context fr') = Context.path ctx /\
  Context.params (Router.context fr') = Context.params ctx.
Proof.
  intros Hmatch Hrun. unfold Router.middleware in Hrun. rewrite Hmatch in Hrun.
  apply next_restores in Hrun. exact Hrun.
Qed.

Lemma restored_status a b ctx :
  Context.statusCode (Context.set_path a (Context.set_params b ctx)) = Context.statusCode ctx.
Proof. reflexivity. Qed.

Lemma restored_headers a b ctx :
  Context.headers (Context.set_path a (Context.set_params b ctx)) = Context.headers ctx.
Proof. reflexivity. Qed.

Lemma synthesize_status router avail ctx :
  Context.statusCode (Router.synthesize router avail ctx) =
  if Js.indexOf (Router.methods router) (Context.method ctx) <? 0 then 501
  else if String.eqb (Context.method ctx) "OPTIONS" then 204 else 405.
Proof.
  unfold Router.synthesize. simpl.
  destruct (Js.indexOf _ _ <? 0); reflexivity.
Qed.

Lemma synthesize_allow router avail ctx :
  Context.headers (Router.synthesize router avail ctx) !! "Allow" =
  Some (Js.join ", " (Js.keys avail)).
Proof.
  unfold Router.synthesize. simpl.
  destruct (Js.indexOf _ _ <? 0); simpl; apply lookup_insert_eq.
Qed.

End Middleware.

(** ** Registration *)

Section Registration.

Context `{Deps.t}.

Implicit Types (r : Router.t) (rt : Route.t) (c : Router.Call).

Lemma indexOf_ge l x : -1 <= Js.indexOf l x.
Proof.
  induction l as [ | y l IH ]; simpl; [lia | ].
  destruct (String.eqb y x); [lia | ].
  destruct (Js.indexOf l x <? 0) eqn:E; [lia | ]. apply Z.ltb_ge in E. lia.
Qed.

Lemma indexOf_elem l x : 0 <= Js.indexOf l x <-> x ∈ l.
Proof.
  induction l as [ | y l IH ]; simpl.
  - split; [lia | intros Hx; inversion Hx].
  - destruct (String.eqb y x) eqn:E.
    + apply String.eqb_eq in E. subst. split; [left | lia].
    + apply String.eqb_neq in E.
      destruct (Js.indexOf l x <? 0) eqn:El.
      * apply Z.ltb_lt in El. split; [lia | ].
        intros Hx. apply elem_of_cons in Hx as [-> | Hx]; [congruence | ].
        apply IH in Hx. lia.
      * apply Z.ltb_ge in El. split; [ | lia ].
        intros _. right. apply IH. exact El.
Qed.

Lemma accept_adds ms m : exists added, Router.accept ms m = (ms ++ added)%list.
Proof.
  unfold Router.accept. destruct (Js.indexOf ms m <? 0).
  - exists [m]. reflexivity.
  - exists []. rewrite app_nil_r. reflexivity.
Qed.

Lemma foldl_accept_adds l : forall ms,
  exists added, foldl Router.accept ms l = (ms ++ added)%list.
Proof.
  induction l as [ | m l IH ]; intros ms; simpl.
  - exists []. rewrite app_nil_r. reflexivity.
  - destruct (accept_adds ms m) as [a1 ->]. destruct (IH (ms ++ a1)%list) as [a2 ->].
    exists (a1 ++ a2)%list. rewrite app_assoc. reflexivity.
Qed.

(** [mount] hands [null] to the constructor, which reads its [length]. *)
Lemma mount_raises name path mws r :
  Router.mount name path mws r =
  Throws (TypeError "Cannot read property 'length' of null").
Proof. reflexivity. Qed.

(** Every registration call leaves the accepted methods it found, and may
    add some behind them. *)
Lemma after_adds r c :
  exists added, Router.methods (Router.after r c) = (Router.methods r ++ added)%list.
Proof.
  assert (Hsame : exists added, Router.methods r = (Router.methods r ++ added)%list).
  { exists []. rewrite app_nil_r. reflexivity. }
  assert (Hreg : forall name path ms mws,
             exists added,
               Router.methods
                 match Router.returning_this (Router.register name path ms mws r) with
                 | Returns r' => r'
                 | Throws _ => r
                 end = (Router.methods r ++ added)%list).
  { intros name path ms mws. unfold Router.register.
    destruct (Route.new _ _ _ _ _) as [rt | e]; simpl; [ | exact Hsame ].
    apply foldl_accept_adds. }
  unfold Router.after. destruct c as [name path ms mws | m name path mws | name path mws
                                     | name path mws | p fn ]; simpl.
  - apply Hreg.
  - unfold Router.verb. destruct (0 <=? Js.indexOf Deps.methods m); [apply Hreg | exact Hsame].
  - apply Hreg.
  - exact Hsame.
  - exact Hsame.
Qed.

Lemma configured_from r calls :
  exists added,
    Router.methods (foldl Router.after r calls) = (Router.methods r ++ added)%list.
Proof.
  revert r. induction calls as [ | c calls IH ]; intros r; simpl.
  - exists []. rewrite app_nil_r. reflexivity.
  - destruct (after_adds r c) as [a1 H1]. destruct (IH (Router.after r c)) as [a2 H2].
    exists (a1 ++ a2)%list. rewrite H2, H1, app_assoc. reflexivity.
Qed.

Lemma configured_accepts_options opts calls :
  0 <= Js.indexOf (Router.methods (Router.configured opts calls)) "OPTIONS".
Proof.
  unfold Router.configured.
  destruct (configured_from (Router.new opts) calls) as [added ->].
  apply indexOf_elem. simpl. left.
Qed.






End Registration.

(** ** Matching a path against a route *)

Section Matching.

Implicit Types (r : Route.t) (p : string).


Lemma positional_keeps caps : forall i params q,
  (forall j, (i <= j)%nat -> q <> pretty j) ->
  Route.positional i caps params !! q = params !! q.
Proof.
  induction caps as [ | c caps IH ]; intros i params q Hq; simpl; [reflexivity | ].
  rewrite IH.
  - apply lookup_insert_ne. intros Heq. apply (Hq i); [lia | congruence].
  - intros j Hj. apply Hq. lia.
Qed.

(** Capture [i] of a route without parameter names is stored under [i]. *)
Lemma positional_lookup caps : forall i params n c,
  caps !! n = Some c ->
  Route.positional i caps params !! pretty (i + n)%nat = Some (Route.decode_capture c).
Proof.
  induction caps as [ | c0 caps IH ]; intros i params n c Hn; [inversion Hn | ].
  destruct n as [ | n ]; simpl in *.
  - inversion Hn; subst. rewrite positional_keeps.
    + rewrite Nat.add_0_r. apply lookup_insert_eq.
    + intros j Hj Heq. apply (inj pretty) in Heq. lia.
  - replace (i + S n)%nat with (S i + n)%nat by lia. apply IH. exact Hn.
Qed.

Lemma named_keeps keys : forall caps params q,
  q ∉ map P2R.name keys -> Route.named keys caps params !! q = params !! q.
Proof.
  induction keys as [ | k keys IH ]; intros caps params q Hq; destruct caps as [ | c caps];
    simpl; try reflexivity.
  rewrite IH.
  - apply lookup_insert_ne. intros Heq. apply Hq. simpl. rewrite Heq. left.
  - intros Hin. apply Hq. simpl. right. exact Hin.
Qed.

(** Capture [i] of a route with parameter names is stored under the name
    of key [i], when no later key has the same name. *)
Lemma named_lookup keys : forall caps params i k c,
  NoDup (map P2R.name keys) ->
  keys !! i = Some k -> caps !! i = Some c ->
  Route.named keys caps params !! P2R.name k = Some (Route.decode_capture c).
Proof.
  induction keys as [ | k0 keys IH ]; intros caps params i k c Hnd Hk Hc; [inversion Hk | ].
  destruct caps as [ | c0 caps ]; [inversion Hc | ].
  simpl in Hnd. apply NoDup_cons in Hnd as [Hnotin Hnd].
  destruct i as [ | i ]; simpl in *.
  - inversion Hk; inversion Hc; subst.
    rewrite named_keeps by exact Hnotin. apply lookup_insert_eq.
  - eapply IH; eauto.
Qed.

(** C7.  Whenever a route matches a path, the path of the match record
    starts with a slash (so it starts with a slash or is empty): it is what
    is left of the path behind the matched text, with a slash put in front
    unless there is one. *)
Theorem match_path_starts_with_slash r p c :
  Route.match_ r p = Some c ->
  (Js.charAt0 (Captured.path c) = Some "/"%char \/ Captured.path c = "") /\
  exists matched captures,
    P2R.exec (Route.regexp r) p = Some (matched, captures) /\
    let rest := Js.substr (String.length matched) p in
    (Js.charAt0 rest = Some "/"%char /\ Captured.path c = rest) \/
    (Js.charAt0 rest <> Some "/"%char /\ Captured.path c = "/" +:+ rest).
Proof.
  unfold Route.match_.
  destruct (P2R.exec (Route.regexp r) p) as [[matched caps] | ]; [ | discriminate ].
  intros Hc; inversion Hc; subst; clear Hc. simpl.
  destruct (Js.substr (String.length matched) p) as [ | a rest ] eqn:Hrest.
  - simpl. split; [left; reflexivity | ].
    exists matched, caps. split; [reflexivity | ]. cbv zeta. rewrite Hrest. right. split; [discriminate | reflexivity].
  - destruct (Ascii.ascii_dec a "/") as [-> | Hne].
    + simpl. split; [left; reflexivity | ].
      exists matched, caps. split; [reflexivity | ]. cbv zeta. rewrite Hrest. left. split; reflexivity.
    + assert (Hpath : match Js.charAt0 (String a rest) with
                      | Some "/"%char => String a rest
                      | _ => "/" +:+ String a rest
                      end = "/" +:+ String a rest).
      { simpl. destruct a as [[] [] [] [] [] [] [] []]; try reflexivity.
        exfalso. apply Hne. reflexivity. }
      rewrite Hpath. split; [left; reflexivity | ].
      exists matched, caps. split; [reflexivity | ]. cbv zeta. rewrite Hrest. right. split; [ | reflexivity ].
      simpl. congruence.
Qed.


End Matching.

(** ** Generating a URL *)

Section Url.

Lemma split_not_nil sep s : Js.split sep s <> [].
Proof.
  destruct s as [ | c r ]; simpl; [discriminate | ].
  destruct (Ascii.eqb c sep); [discriminate | ].
  destruct (Js.split sep r); discriminate.
Qed.

Lemma split_no_slash s : Js.no_slash s = true -> Js.split "/" s = [s].
Proof.
  induction s as [ | c r IH ]; simpl; [reflexivity | ].
  intros Hs. apply andb_true_iff in Hs as [Hc Hr].
  apply negb_true_iff in Hc. rewrite Hc, (IH Hr). reflexivity.
Qed.

Lemma split_segment s t :
  Js.no_slash s = true -> Js.split "/" (s +:+ String "/" t) = s :: Js.split "/" t.
Proof.
  induction s as [ | c r IH ]; simpl; [reflexivity | ].
  intros Hs. apply andb_true_iff in Hs as [Hc Hr].
  apply negb_true_iff in Hc. rewrite Hc, (IH Hr). reflexivity.
Qed.

(** Splitting at the slashes undoes joining with slashes, for segments
    without a slash. *)
Lemma split_join l :
  l <> [] -> Forall (fun s => Js.no_slash s = true) l ->
  Js.split "/" (Js.join "/" l) = l.
Proof.
  induction l as [ | x l IH ]; intros Hne Hall; [congruence | ].
  apply Forall_cons in Hall as [Hx Hl].
  destruct l as [ | y l ].
  - simpl. apply split_no_slash. exact Hx.
  - change (Js.join "/" (x :: y :: l)) with (x +:+ String "/" (Js.join "/" (y :: l))).
    rewrite split_segment by exact Hx. rewrite IH; [reflexivity | discriminate | exact Hl].
Qed.

Lemma hex_digit_no_slash c :
  Ascii.eqb (Uri.hex_digit (nat_of_ascii c / 16)) "/" = false /\
  Ascii.eqb (Uri.hex_digit (nat_of_ascii c mod 16)) "/" = false.
Proof. destruct c as [[] [] [] [] [] [] [] []]; vm_compute; split; reflexivity. Qed.

Lemma unreserved_no_slash c : Uri.unreserved c = true -> Ascii.eqb c "/" = false.
Proof.
  intros Hc. destruct (Ascii.eqb c "/") eqn:E; [ | reflexivity ].
  apply Ascii.eqb_eq in E. subst c. vm_compute in Hc. discriminate.
Qed.

(** An encoded segment has no slash. *)
Lemma encode_no_slash s : Js.no_slash (Uri.escape s) = true.
Proof.
  induction s as [ | c r IH ]; [reflexivity | ].
  cbn [Uri.escape].
  destruct (Uri.unreserved c) eqn:Hc; cbn [Js.no_slash].
  - rewrite (unreserved_no_slash c Hc), IH. reflexivity.
  - destruct (hex_digit_no_slash c) as [H1 H2]. rewrite H1, H2, IH. reflexivity.
Qed.

(** Components that can all be encoded are all escaped. *)
Lemma encode_all l k :
  mapM Uri.encodeURIComponent l = Some k ->
  k = map Uri.escape l /\ Forall (fun s => Uri.utf8 s = true) l.
Proof.
  revert k. induction l as [ | x l IH ]; intros k Hk; cbn in Hk.
  - inversion Hk. split; [reflexivity | apply Forall_nil; exact I].
  - destruct (Uri.encodeURIComponent x) as [y | ] eqn:Ex; cbn in Hk; [ | discriminate ].
    destruct (mapM Uri.encodeURIComponent l) as [k' | ] eqn:Ek; cbn in Hk; [ | discriminate ].
    inversion Hk; subst k. unfold Uri.encodeURIComponent in Ex.
    destruct (Uri.utf8 x) eqn:Hx; [ | discriminate ]. inversion Ex; subst y.
    destruct (IH k' eq_refl) as [-> Hl].
    split; [reflexivity | apply Forall_cons; split; assumption].
Qed.

Lemma encode_all_utf8 l :
  Forall (fun s => Uri.utf8 s = true) l ->
  mapM Uri.encodeURIComponent l = Some (map Uri.escape l).
Proof.
  induction l as [ | x l IH ]; intros Hl; [reflexivity | ].
  apply Forall_cons in Hl as [Hx Hl]. cbn.
  assert (Ex : Uri.encodeURIComponent x = Some (Uri.escape x))
    by (unfold Uri.encodeURIComponent; rewrite Hx; reflexivity).
  rewrite Ex. cbn. rewrite (IH Hl). reflexivity.
Qed.

(** A generated URL is the template after substitution, with each of its
    segments escaped on its own. *)
Lemma url_returns rt args u :
  Route.url rt args = Returns u ->
  u = Js.join "/" (map Uri.escape (Js.split "/" (Route.substitute (Route.path rt) args))) /\
  Forall (fun s => Uri.utf8 s = true)
         (Js.split "/" (Route.substitute (Route.path rt) args)).
Proof.
  unfold Route.url.
  destruct (mapM _ _) as [k | ] eqn:Hk; [ | discriminate ].
  intros Hu. inversion Hu. apply encode_all in Hk as [-> Hall]. auto.
Qed.

Lemma url_segments rt args u :
  Route.url rt args = Returns u ->
  Js.split "/" u =
  map Uri.escape (Js.split "/" (Route.substitute (Route.path rt) args)).
Proof.
  intros Hu. apply url_returns in Hu as [-> _]. apply split_join.
  - intros Hnil. apply map_eq_nil in Hnil. exact (split_not_nil _ _ Hnil).
  - apply Forall_forall. intros s Hs. apply list_elem_of_fmap in Hs as (s0 & -> & _).
    apply encode_no_slash.
Qed.

End Url.

(** ** Dispatch: the fallback response and the downstream *)

Section Fallback.

Context `{Deps.t}.

Implicit Types (router : Router.t) (done : Router.Downstream) (ctx : Context.t).

Lemma none_applicable method (routes_ : list Matched.t) :
  forallb (fun m => negb (Router.applicable method (Matched.route m))) routes_ = true ->
  forall m, m ∈ routes_ -> Router.applicable method (Matched.route m) = false.
Proof.
  intros Hall m Hm. rewrite forallb_forall in Hall.
  apply list_elem_of_In in Hm. apply Hall in Hm. apply negb_true_iff in Hm. exact Hm.
Qed.

(** C2, as amended.  When at least one route matches the path of the
    request, none of the matching routes is applicable to its method, and
    the downstream returns without an explicit status, the router writes a
    status: 204 if the method is [OPTIONS], else 405 if the method is among
    the accepted methods of the router, else 501.  (When no route matches
    the path the router writes nothing.) *)
Theorem fallback_status_synthesized opts calls done ctx routes_ ctx1 :
  let router := Router.configured opts calls in
  Router.match_ router (Context.path ctx) = Some routes_ ->
  forallb (fun m => negb (Router.applicable (Context.method ctx) (Matched.route m)))
          routes_ = true ->
  done ctx = (Returns tt, ctx1) ->
  Context.explicitStatus ctx1 = false ->
  exists fr',
    Router.middleware router done ctx = Some (Returns tt, fr') /\
    Context.statusCode (Router.context fr') =
      if String.eqb (Context.method ctx1) "OPTIONS" then 204
      else if 0 <=? Js.indexOf (Router.methods router) (Context.method ctx1) then 405
      else 501.
Proof.
  intros router Hmatch Hall Hdone Hexp.
  rewrite (middleware_fallback router done ctx routes_ ctx1 Hmatch
             (none_applicable _ _ Hall) Hdone Hexp).
  eexists; split; [reflexivity | ]. cbn [Router.context].
  rewrite restored_status, synthesize_status.
  destruct (String.eqb (Context.method ctx1) "OPTIONS") eqn:Hm.
  - apply String.eqb_eq in Hm. rewrite Hm.
    pose proof (configured_accepts_options opts calls) as Hopt. fold router in Hopt.
    destruct (Js.indexOf (Router.methods router) "OPTIONS" <? 0) eqn:E; [ | reflexivity ].
    apply Z.ltb_lt in E. lia.
  - destruct (Js.indexOf (Router.methods router) (Context.method ctx1) <? 0) eqn:E.
    + apply Z.ltb_lt in E.
      destruct (0 <=? Js.indexOf (Router.methods router) (Context.method ctx1)) eqn:E';
        [apply Z.leb_le in E'; lia | reflexivity].
    + apply Z.ltb_ge in E.
      destruct (0 <=? Js.indexOf (Router.methods router) (Context.method ctx1)) eqn:E';
        [reflexivity | apply Z.leb_gt in E'; lia].
Qed.

(** C3, as amended.  Whenever the router writes a fallback status it
    sets the [Allow] header to the names recorded in [methodsAvailable],
    joined by a comma and a space.  Names are recorded for an [OPTIONS]
    request only: the header then lists the methods of the routes that
    matched the path, and for a request with any other method it is the
    empty string. *)
Theorem allow_header_synthesized router done ctx routes_ ctx1 :
  Router.match_ router (Context.path ctx) = Some routes_ ->
  forallb (fun m => negb (Router.applicable (Context.method ctx) (Matched.route m)))
          routes_ = true ->
  done ctx = (Returns tt, ctx1) ->
  Context.explicitStatus ctx1 = false ->
  exists fr',
    Router.middleware router done ctx = Some (Returns tt, fr') /\
    Context.headers (Router.context fr') !! "Allow" =
      Some (if String.eqb (Context.method ctx) "OPTIONS"
            then Js.join ", "
                   (Js.keys (foldl Js.define []
                      (concat (map (fun m => Route.methods (Matched.route m)) routes_))))
            else "").
Proof.
  intros Hmatch Hall Hdone Hexp.
  rewrite (middleware_fallback router done ctx routes_ ctx1 Hmatch
             (none_applicable _ _ Hall) Hdone Hexp).
  eexists; split; [reflexivity | ]. cbn [Router.context].
  rewrite restored_headers, synthesize_allow. unfold Router.recorded.
  destruct (String.eqb (Context.method ctx) "OPTIONS"); reflexivity.
Qed.

(** C5, as amended.  In every dispatch the downstream is delegated to at
    most once.  It runs exactly once when no route matches the path.  When
    routes match it runs exactly once if the cursor leaves the array of
    matched routes, which it does whenever none of them is applicable, and
    it does not run at all if the cursor does not: a middleware that
    returns or raises without delegating to its continuation keeps the
    downstream from running. *)
Theorem downstream_at_most_once router done ctx :
  exists o fr',
    Router.middleware router done ctx = Some (o, fr') /\
    (Router.delegations fr' <= 1)%nat /\
    match Router.match_ router (Context.path ctx) with
    | None => Router.delegations fr' = 1%nat
    | Some routes_ =>
        Router.exhausted_once (length routes_) fr' /\
        if forallb (fun m => negb (Router.applicable (Context.method ctx) (Matched.route m)))
                   routes_
        then Router.delegations fr' = 1%nat else True
    end.
Proof.
  destruct (middleware_total router done ctx) as [[o fr'] Hrun].
  exists o, fr'. split; [exact Hrun | ].
  unfold Router.middleware in Hrun.
  destruct (Router.match_ router (Context.path ctx)) as [routes_ | ].
  - assert (Hex : Router.exhausted_once (length routes_) fr').
    { eapply next_delegations; [ | | exact Hrun ]; simpl; [lia | reflexivity]. }
    split; [ | split; [exact Hex | ] ].
    + unfold Router.exhausted_once in Hex. rewrite Hex.
      destruct (Z.of_nat (length routes_) <=? Router.index fr'); lia.
    + destruct (forallb _ routes_) eqn:Hall; [ | exact I ].
      rewrite next_falls_through in Hrun.
      * unfold Router.exhausted, Router.yield_done in Hrun. simpl in Hrun.
        destruct (done _) as [[[] | e] c1]; inversion Hrun; subst;
          [destruct (negb (Context.explicitStatus c1)) | ]; reflexivity.
      * unfold Router.need. simpl. lia.
      * simpl. lia.
      * simpl. apply none_applicable. exact Hall.
  - unfold Router.yield_done in Hrun. simpl in Hrun.
    destruct (done ctx) as [o1 c1]. inversion Hrun; subst. simpl. split; [lia | reflexivity].
Qed.

(** C10.  A router is made with [OPTIONS] as its only accepted method, a
    registration call keeps the accepted methods it finds and only adds
    behind them, so [OPTIONS] is accepted by every router; the status that
    the fallback writes for an [OPTIONS] request is therefore 204, never
    501. *)
Theorem options_always_accepted opts calls :
  let router := Router.configured opts calls in
  Router.methods (Router.new opts) = ["OPTIONS"] /\
  (forall r c, exists added,
      Router.methods (Router.after r c) = (Router.methods r ++ added)%list) /\
  "OPTIONS" ∈ Router.methods router /\
  (forall avail ctx,
      Context.statusCode (Router.synthesize router avail ctx) =
      if String.eqb (Context.method ctx) "OPTIONS" then 204
      else if 0 <=? Js.indexOf (Router.methods router) (Context.method ctx) then 405
      else 501).
Proof.
  intros router.
  pose proof (configured_accepts_options opts calls) as Hopt. fold router in Hopt.
  split; [reflexivity | ]. split; [exact after_adds | ].
  split; [apply indexOf_elem; exact Hopt | ].
  intros avail ctx. rewrite synthesize_status.
  destruct (String.eqb (Context.method ctx) "OPTIONS") eqn:Hm.
  - apply String.eqb_eq in Hm. rewrite Hm.
    destruct (Js.indexOf (Router.methods router) "OPTIONS" <? 0) eqn:E; [ | reflexivity ].
    apply Z.ltb_lt in E. lia.
  - destruct (Js.indexOf (Router.methods router) (Context.method ctx) <? 0) eqn:E.
    + apply Z.ltb_lt in E.
      destruct (0 <=? Js.indexOf (Router.methods router) (Context.method ctx)) eqn:E';
        [apply Z.leb_le in E'; lia | reflexivity].
    + apply Z.ltb_ge in E.
      destruct (0 <=? Js.indexOf (Router.methods router) (Context.method ctx)) eqn:E';
        [reflexivity | apply Z.leb_gt in E'; lia].
Qed.

End Fallback.

(** ** More on registration *)

Section Routes.

Context `{Deps.t}.

Implicit Types (r : Router.t) (rt : Route.t) (c : Router.Call).

Lemma register_inv name path ms mws r rt r' :
  Router.register name path ms mws r = Returns (rt, r') ->
  exists rt0,
    Route.new path (Some ms) mws name (Some (Router.opts r)) = Returns rt0 /\
    rt = Router.with_params r rt0 /\
    r' = {| Router.opts := Router.opts r;
            Router.methods := foldl Router.accept (Router.methods r) (Route.methods rt);
            Router.routes := Router.routes r ++ [rt];
            Router.params := Router.params r |}.
Proof.
  unfold Router.register.
  destruct (Route.new _ _ _ _ _) as [rt0 | e]; [ | discriminate ].
  intros Heq; inversion Heq; subst. exists rt0. auto.
Qed.

(** What a property of routers needs in order to hold after every
    sequence of registration calls. *)
Lemma configured_ind (P : Router.t -> Prop) :
  (forall opts, P (Router.new opts)) ->
  (forall r name path ms mws rt r',
      P r -> Router.register name path ms mws r = Returns (rt, r') -> P r') ->
  (forall r p fn, P r -> P (Router.param p fn r)) ->
  forall opts calls, P (Router.configured opts calls).
Proof.
  intros Hnew Hreg Hparam opts calls. unfold Router.configured.
  assert (Hstep : forall r c, P r -> P (Router.after r c)).
  { intros r c Hr.
    assert (Hthis : forall name path ms mws,
               P match Router.returning_this (Router.register name path ms mws r) with
                 | Returns r' => r'
                 | Throws _ => r
                 end).
    { intros name path ms mws.
      destruct (Router.register name path ms mws r) as [[rt r'] | e] eqn:E; simpl; [ | exact Hr ].
      eapply Hreg; [exact Hr | exact E]. }
    unfold Router.after.
    destruct c as [name path ms mws | m name path mws | name path mws | name path mws | p fn];
      simpl.
    - apply Hthis.
    - unfold Router.verb. destruct (0 <=? Js.indexOf Deps.methods m); [apply Hthis | exact Hr].
    - apply Hthis.
    - exact Hr.
    - apply Hparam. exact Hr. }
  assert (Hgen : forall r, P r -> P (foldl Router.after r calls)).
  { induction calls as [ | c calls IH ]; intros r Hr; simpl; [exact Hr | ].
    apply IH, Hstep, Hr. }
  apply Hgen, Hnew.
Qed.

(** The fields of a route that its hooks do not touch. *)
Lemma param_static p fn rt :
  Route.name (Route.param p fn rt) = Route.name rt /\
  Route.asPrefix (Route.param p fn rt) = Route.asPrefix rt /\
  Route.methods (Route.param p fn rt) = Route.methods rt /\
  Route.params (Route.param p fn rt) = Route.params rt /\
  Route.path (Route.param p fn rt) = Route.path rt /\
  Route.regexp (Route.param p fn rt) = Route.regexp rt /\
  Route.fns_middleware (Route.param p fn rt) = Route.fns_middleware rt.
Proof. repeat split. Qed.

Lemma with_params_static r rt :
  Route.name (Router.with_params r rt) = Route.name rt /\
  Route.asPrefix (Router.with_params r rt) = Route.asPrefix rt /\
  Route.methods (Router.with_params r rt) = Route.methods rt /\
  Route.params (Router.with_params r rt) = Route.params rt /\
  Route.path (Router.with_params r rt) = Route.path rt /\
  Route.regexp (Router.with_params r rt) = Route.regexp rt /\
  Route.fns_middleware (Router.with_params r rt) = Route.fns_middleware rt.
Proof.
  unfold Router.with_params.
  apply (map_fold_weak_ind
           (fun rt' (_ : gmap string Route.Hook) =>
              Route.name rt' = Route.name rt /\
              Route.asPrefix rt' = Route.asPrefix rt /\
              Route.methods rt' = Route.methods rt /\
              Route.params rt' = Route.params rt /\
              Route.path rt' = Route.path rt /\
              Route.regexp rt' = Route.regexp rt /\
              Route.fns_middleware rt' = Route.fns_middleware rt)).
  - repeat split.
  - intros p fn m rt' _ IH. exact IH.
Qed.

(** What the constructor has put into a route. *)
Lemma new_shape path ms mws name opts rt :
  Route.new path (Some ms) mws name opts = Returns rt ->
  Route.name rt = Route.truthy name /\
  Route.asPrefix rt = match ms with [] => true | _ :: _ => false end /\
  Route.methods rt = map Deps.toUpperCase ms /\
  Route.ensure_all ms name path mws = Returns (Route.fns_middleware rt).
Proof.
  unfold Route.new. destruct path as [s | re].
  - destruct (Deps.pathToRegexp _ _) as [[re keys] | e]; [ | discriminate ].
    destruct (Route.ensure_all _ _ _ _) as [fns | e]; [ | discriminate ].
    intros Hrt; inversion Hrt; subst; simpl. auto.
  - destruct (Route.ensure_all _ _ _ _) as [fns | e]; [ | discriminate ].
    intros Hrt; inversion Hrt; subst; simpl. auto.
Qed.

Lemma accept_elem ms m x : x ∈ Router.accept ms m <-> x ∈ ms \/ x = m.
Proof.
  unfold Router.accept. destruct (Js.indexOf ms m <? 0) eqn:E.
  - rewrite elem_of_app, list_elem_of_singleton. reflexivity.
  - apply Z.ltb_ge in E. apply indexOf_elem in E.
    split; [auto | ]. intros [Hx | ->]; assumption.
Qed.

Lemma accept_NoDup ms m : NoDup ms -> NoDup (Router.accept ms m).
Proof.
  intros Hnd. unfold Router.accept. destruct (Js.indexOf ms m <? 0) eqn:E; [ | exact Hnd ].
  apply Z.ltb_lt in E. apply NoDup_app. split; [exact Hnd | ]. split.
  - intros x Hx Hm. apply list_elem_of_singleton in Hm. subst x.
    apply indexOf_elem in Hx. lia.
  - apply NoDup_singleton.
Qed.

Lemma foldl_accept_elem l : forall ms x,
  x ∈ foldl Router.accept ms l <-> x ∈ ms \/ x ∈ l.
Proof.
  induction l as [ | m l IH ]; intros ms x; simpl.
  - split; [auto | ]. intros [Hx | Hx]; [exact Hx | inversion Hx].
  - rewrite IH, accept_elem, elem_of_cons. tauto.
Qed.

Lemma foldl_accept_NoDup l : forall ms, NoDup ms -> NoDup (foldl Router.accept ms l).
Proof.
  induction l as [ | m l IH ]; intros ms Hnd; simpl; [exact Hnd | ].
  apply IH, accept_NoDup, Hnd.
Qed.

(** X1.  After any sequence of registration calls, the accepted methods
    of the router hold every method of every route it owns, and hold no
    method twice. *)
Theorem accepted_methods_cover_routes opts calls :
  let router := Router.configured opts calls in
  NoDup (Router.methods router) /\
  forall rt m, rt ∈ Router.routes router -> m ∈ Route.methods rt ->
               m ∈ Router.methods router.
Proof.
  apply (configured_ind
           (fun r => NoDup (Router.methods r) /\
                     forall rt m, rt ∈ Router.routes r -> m ∈ Route.methods rt ->
                                  m ∈ Router.methods r)).
  - intros o. split; [apply NoDup_singleton | ]. intros rt m Hrt. inversion Hrt.
  - intros r name path ms mws rt r' [Hnd Hcov] Hreg.
    apply register_inv in Hreg as (rt0 & _ & _ & ->). simpl. split.
    + apply foldl_accept_NoDup, Hnd.
    + intros rt1 m Hrt1 Hm. apply foldl_accept_elem.
      apply elem_of_app in Hrt1 as [Hrt1 | Hrt1].
      * left. eapply Hcov; eauto.
      * apply list_elem_of_singleton in Hrt1. subst rt1. right. exact Hm.
  - intros r p fn [Hnd Hcov]. split; [exact Hnd | ]. simpl.
    intros rt m Hrt Hm. apply list_elem_of_fmap in Hrt as (rt0 & -> & Hrt0).
    eapply Hcov; [exact Hrt0 | exact Hm].
Qed.

(** X2.  No registration call removes or reorders routes: the routes
    after a call are the routes before it, in the same order, with at most
    one new route behind them (their hooks apart). *)
Theorem routes_only_appended r c :
  exists added,
    map Router.route_id (Router.routes (Router.after r c)) =
    (map Router.route_id (Router.routes r) ++ map Router.route_id added)%list /\
    (length added <= 1)%nat.
Proof.
  assert (Hsame : exists added,
             map Router.route_id (Router.routes r) =
             (map Router.route_id (Router.routes r) ++ map Router.route_id added)%list /\
             (length added <= 1)%nat).
  { exists []. simpl. rewrite app_nil_r. split; [reflexivity | lia]. }
  assert (Hthis : forall name path ms mws,
             exists added,
               map Router.route_id
                 (Router.routes
                    match Router.returning_this (Router.register name path ms mws r) with
                    | Returns r' => r'
                    | Throws _ => r
                    end) =
               (map Router.route_id (Router.routes r) ++ map Router.route_id added)%list /\
               (length added <= 1)%nat).
  { intros name path ms mws.
    destruct (Router.register name path ms mws r) as [[rt r'] | e] eqn:E; simpl;
      [ | exact Hsame ].
    apply register_inv in E as (rt0 & _ & _ & ->). simpl.
    exists [rt]. rewrite map_app. split; [reflexivity | simpl; lia]. }
  unfold Router.after.
  destruct c as [name path ms mws | m name path mws | name path mws | name path mws | p fn];
    simpl.
  - apply Hthis.
  - unfold Router.verb. destruct (0 <=? Js.indexOf Deps.methods m); [apply Hthis | exact Hsame].
  - apply Hthis.
  - exact Hsame.
  - exists []. simpl. rewrite app_nil_r, map_map. split; [ | lia ].
    apply map_ext. intros rt. reflexivity.
Qed.

Lemma configured_routes_shape opts calls rt :
  rt ∈ Router.routes (Router.configured opts calls) ->
  (Route.asPrefix rt = true <-> Route.methods rt = []) /\
  (forall m, m ∈ Route.methods rt -> exists m0, m = Deps.toUpperCase m0) /\
  Route.name rt <> Some "".
Proof.
  revert rt.
  apply (configured_ind
           (fun r => forall rt, rt ∈ Router.routes r ->
                       (Route.asPrefix rt = true <-> Route.methods rt = []) /\
                       (forall m, m ∈ Route.methods rt -> exists m0, m = Deps.toUpperCase m0) /\
                       Route.name rt <> Some "")).
  - intros o rt Hrt. inversion Hrt.
  - intros r name path ms mws rt r' IH Hreg rt1 Hrt1.
    apply register_inv in Hreg as (rt0 & Hnew & -> & ->). simpl in Hrt1.
    apply elem_of_app in Hrt1 as [Hrt1 | Hrt1]; [apply IH, Hrt1 | ].
    apply list_elem_of_singleton in Hrt1. subst rt1.
    destruct (with_params_static r rt0) as (-> & -> & -> & _).
    apply new_shape in Hnew as (-> & -> & -> & _).
    split; [ | split ].
    + destruct ms; simpl; split; intros Hx; try reflexivity; discriminate.
    + intros m Hm. apply list_elem_of_fmap in Hm as (m0 & -> & _).
      exists m0. reflexivity.
    + destruct name as [[ | a n] | ]; simpl; discriminate.
  - intros r p fn IH rt Hrt. simpl in Hrt.
    apply list_elem_of_fmap in Hrt as (rt0 & -> & Hrt0). exact (IH rt0 Hrt0).
Qed.

Lemma lookup_Some routes_ name rt :
  Router.lookup routes_ name = Some rt ->
  exists i, routes_ !! i = Some rt /\ Route.name rt = Some name /\
            forall j rt', (j < i)%nat -> routes_ !! j = Some rt' ->
                          Route.name rt' <> Some name.
Proof.
  induction routes_ as [ | rt0 routes_ IH ]; simpl; [discriminate | ].
  destruct (Route.name rt0) as [n | ] eqn:Hn.
  - destruct (String.eqb n name) eqn:E.
    + apply String.eqb_eq in E. subst n. intros Heq; inversion Heq; subst.
      exists 0%nat. repeat split; [exact Hn | ]. intros j rt' Hj. lia.
    + apply String.eqb_neq in E. intros Hl. apply IH in Hl as (i & Hi & Hname & Hbefore).
      exists (S i). repeat split; [exact Hi | exact Hname | ].
      intros [ | j] rt' Hj Hrt'; simpl in Hrt'.
      * inversion Hrt'; subst. congruence.
      * eapply Hbefore; [ | exact Hrt' ]. lia.
  - intros Hl. apply IH in Hl as (i & Hi & Hname & Hbefore).
    exists (S i). repeat split; [exact Hi | exact Hname | ].
    intros [ | j] rt' Hj Hrt'; simpl in Hrt'.
    + inversion Hrt'; subst. congruence.
    + eapply Hbefore; [ | exact Hrt' ]. lia.
Qed.

Lemma lookup_None routes_ name :
  Router.lookup routes_ name = None <->
  forall rt, rt ∈ routes_ -> Route.name rt <> Some name.
Proof.
  induction routes_ as [ | rt0 routes_ IH ]; simpl.
  - split; [ | reflexivity ]. intros _ rt Hrt. inversion Hrt.
  - destruct (Route.name rt0) as [n | ] eqn:Hn.
    + destruct (String.eqb n name) eqn:E.
      * apply String.eqb_eq in E. subst n. split; [discriminate | ].
        intros Hall. exfalso. apply (Hall rt0); [left | exact Hn].
      * apply String.eqb_neq in E. rewrite IH. split.
        -- intros Hall rt Hrt. apply elem_of_cons in Hrt as [-> | Hrt];
             [congruence | apply Hall, Hrt].
        -- intros Hall rt Hrt. apply Hall. right. exact Hrt.
    + rewrite IH. split.
      * intros Hall rt Hrt. apply elem_of_cons in Hrt as [-> | Hrt];
          [congruence | apply Hall, Hrt].
      * intros Hall rt Hrt. apply Hall. right. exact Hrt.
Qed.

Lemma lookup_app l1 l2 name :
  Router.lookup (l1 ++ l2) name =
  match Router.lookup l1 name with
  | Some rt => Some rt
  | None => Router.lookup l2 name
  end.
Proof.
  induction l1 as [ | rt0 l1 IH ]; simpl; [reflexivity | ].
  destruct (Route.name rt0) as [n | ]; [ | exact IH ].
  destruct (String.eqb n name); [reflexivity | exact IH].
Qed.


(** X4.  [Router#route] finds the first route with the name, in the order
    of registration, and finds none exactly when no route has the name;
    [Router#url] then returns an [Error] object. *)
Theorem route_first_match_wins r name :
  match Router.route r name with
  | Some rt =>
      exists i, Router.routes r !! i = Some rt /\ Route.name rt = Some name /\
                forall j rt', (j < i)%nat -> Router.routes r !! j = Some rt' ->
                              Route.name rt' <> Some name
  | None =>
      (forall rt, rt ∈ Router.routes r -> Route.name rt <> Some name) /\
      forall args, Router.url r name args
                   = Returns (Router.Failed (mkError ("No route found for name: " +:+ name)))
  end.
Proof.
  unfold Router.route, Router.url, Router.route.
  destruct (Router.lookup (Router.routes r) name) as [rt | ] eqn:E.
  - apply lookup_Some. exact E.
  - split; [apply lookup_None, E | reflexivity].
Qed.

(** X5.  A route registered under a name that is not empty can be looked
    up by it afterwards, unless an earlier route has the name already: then
    the earlier route is still the one found. *)
Theorem register_then_route name path ms mws r rt r' :
  Router.register (Some name) path ms mws r = Returns (rt, r') ->
  name <> "" ->
  Router.route r' name =
  match Router.route r name with
  | Some earlier => Some earlier
  | None => Some rt
  end.
Proof.
  intros Hreg Hname. apply register_inv in Hreg as (rt0 & Hnew & Hrt & ->).
  unfold Router.route. simpl. rewrite lookup_app.
  destruct (Router.lookup (Router.routes r) name); [reflexivity | ].
  simpl. assert (Hn : Route.name rt = Some name).
  { rewrite Hrt. destruct (with_params_static r rt0) as (-> & _).
    apply new_shape in Hnew as (-> & _). destruct name; [congruence | reflexivity]. }
  rewrite Hn, String.eqb_refl. reflexivity.
Qed.

(** X6.  The empty string names no route: a route registered under it
    has no name, so looking it up finds nothing in any router. *)
Theorem empty_name_never_found opts calls :
  Router.route (Router.configured opts calls) "" = None.
Proof.
  apply lookup_None. intros rt Hrt.
  apply configured_routes_shape in Hrt as (_ & _ & Hn). exact Hn.
Qed.

End Routes.

(** ** More on hooks, matching and the constructor *)

Section Hooks.

Context `{Deps.t}.

Implicit Types (r : Router.t) (rt : Route.t).

Lemma route_param_replaces p f1 f2 rt :
  Route.param p f2 (Route.param p f1 rt) = Route.param p f2 rt.
Proof. unfold Route.param. simpl. rewrite insert_insert_eq. reflexivity. Qed.

Lemma route_param_commutes p q f g rt :
  p <> q -> Route.param p f (Route.param q g rt) = Route.param q g (Route.param p f rt).
Proof.
  intros Hne. unfold Route.param. simpl.
  rewrite (insert_insert_ne (Route.fns_params rt) p q) by exact Hne. reflexivity.
Qed.

(** X7.  Registering a hook again under the same name replaces the
    earlier one, and hooks under different names can be registered in
    either order: the router and its routes end up the same. *)
Theorem param_replaces_and_commutes :
  (forall p f1 f2 r,
     Router.param p f2 (Router.param p f1 r) = Router.param p f2 r) /\
  (forall p q f g r,
     p <> q ->
     Router.param p f (Router.param q g r) = Router.param q g (Router.param p f r)).
Proof.
  split.
  - intros p f1 f2 r. unfold Router.param. simpl.
    rewrite insert_insert_eq, map_map. f_equal.
    apply map_ext. intros rt. apply route_param_replaces.
  - intros p q f g r Hne. unfold Router.param. simpl.
    rewrite (insert_insert_ne (Router.params r) p q) by exact Hne.
    rewrite !map_map. f_equal.
    apply map_ext. intros rt. apply route_param_commutes. exact Hne.
Qed.

Lemma lookup_param p fn routes_ name :
  Router.lookup (map (Route.param p fn) routes_) name =
  Route.param p fn <$> Router.lookup routes_ name.
Proof.
  induction routes_ as [ | rt routes_ IH ]; simpl; [reflexivity | ].
  destruct (Route.name rt) as [n | ]; [ | exact IH ].
  destruct (String.eqb n name); [reflexivity | exact IH].
Qed.

(** X8.  Registering a hook changes neither which routes match a path,
    nor what they capture, nor the URLs generated by name. *)
Theorem param_keeps_matching_and_urls p fn r :
  (forall pathname,
     Router.match_ (Router.param p fn r) pathname =
     map (fun m => {| Matched.params := Matched.params m;
                      Matched.path := Matched.path m;
                      Matched.route := Route.param p fn (Matched.route m) |})
       <$> Router.match_ r pathname) /\
  (forall name args, Router.url (Router.param p fn r) name args = Router.url r name args).
Proof.
  split.
  - intros pathname. unfold Router.match_. simpl.
    assert (Homap : omap (fun route_ =>
                        (fun m => {| Matched.params := Captured.params m;
                                     Matched.path := Captured.path m;
                                     Matched.route := route_ |})
                          <$> Route.match_ route_ pathname)
                      (map (Route.param p fn) (Router.routes r)) =
                    map (fun m => {| Matched.params := Matched.params m;
                                     Matched.path := Matched.path m;
                                     Matched.route := Route.param p fn (Matched.route m) |})
                      (omap (fun route_ =>
                               (fun m => {| Matched.params := Captured.params m;
                                            Matched.path := Captured.path m;
                                            Matched.route := route_ |})
                                 <$> Route.match_ route_ pathname)
                            (Router.routes r))).
    { induction (Router.routes r) as [ | rt l IH ]; [reflexivity | ].
      cbn [map omap list_omap].
      change (Route.match_ (Route.param p fn rt) pathname) with (Route.match_ rt pathname).
      destruct (Route.match_ rt pathname) as [cap | ]; cbn; rewrite IH; reflexivity. }
    rewrite Homap.
    destruct (omap _ (Router.routes r)); reflexivity.
  - intros name args. unfold Router.url, Router.route. simpl.
    rewrite lookup_param.
    destruct (Router.lookup (Router.routes r) name); reflexivity.
Qed.

(** X9.  [Router#match] returns the routes that match the path in the
    order of registration, each with what its own [match] returned, and
    returns [null] exactly when no route matches. *)
Theorem match_in_registration_order r pathname :
  match Router.match_ r pathname with
  | Some ms =>
      ms <> [] /\
      map Matched.route ms =
      List.filter (fun rt => match Route.match_ rt pathname with
                             | Some _ => true
                             | None => false
                             end) (Router.routes r) /\
      Forall (fun m => Route.match_ (Matched.route m) pathname
                       = Some {| Captured.params := Matched.params m;
                                 Captured.path := Matched.path m |}) ms
  | None => Forall (fun rt => Route.match_ rt pathname = None) (Router.routes r)
  end.
Proof.
  unfold Router.match_.
  set (f := fun route_ =>
              (fun m => {| Matched.params := Captured.params m;
                           Matched.path := Captured.path m;
                           Matched.route := route_ |}) <$> Route.match_ route_ pathname).
  assert (Hall : map Matched.route (omap f (Router.routes r)) =
                 List.filter (fun rt => match Route.match_ rt pathname with
                                        | Some _ => true
                                        | None => false
                                        end) (Router.routes r) /\
                 Forall (fun m => Route.match_ (Matched.route m) pathname
                                  = Some {| Captured.params := Matched.params m;
                                            Captured.path := Matched.path m |})
                        (omap f (Router.routes r)) /\
                 (omap f (Router.routes r) = [] ->
                  Forall (fun rt => Route.match_ rt pathname = None) (Router.routes r))).
  { unfold f. induction (Router.routes r) as [ | rt l (IH1 & IH2 & IH3) ].
    - repeat split; constructor.
    - cbn [omap list_omap List.filter].
      destruct (Route.match_ rt pathname) as [[ps pa] | ] eqn:E; cbn.
      + split; [f_equal; exact IH1 | ]. split; [ | intros Hx; inversion Hx ].
        constructor; [exact E | exact IH2].
      + split; [exact IH1 | ]. split; [exact IH2 | ].
        intros Hnil. constructor; [exact E | apply IH3, Hnil]. }
  destruct Hall as (H1 & H2 & H3).
  destruct (omap f (Router.routes r)) as [ | m ms ] eqn:E.
  - apply H3. reflexivity.
  - split; [discriminate | ]. split; [exact H1 | exact H2].
Qed.

(** X10.  When a route matches, every capture is stored: under the name
    of its parameter when the pattern has parameter names (and no name
    twice), under its index otherwise.  A capture is stored decoded, an
    empty capture as the empty string, and a group that did not take part
    in the match as [undefined], not left out.  The names are those an
    array takes as ordinary own properties, which [length] and [__proto__]
    are not. *)
Theorem captures_stored rt p matched captures i c :
  P2R.exec (Route.regexp rt) p = Some (matched, captures) ->
  captures !! i = Some c ->
  NoDup (map P2R.name (Route.params rt)) ->
  Forall (fun k => P2R.name k <> "length" /\ P2R.name k <> "__proto__") (Route.params rt) ->
  exists cap,
    Route.match_ rt p = Some cap /\
    let stored := match c with
                  | None => None
                  | Some EmptyString => Some EmptyString
                  | Some text => Some (Route.safeDecodeURIComponent text)
                  end in
    match Route.params rt with
    | [] => Captured.params cap !! pretty i = Some stored
    | _ :: _ =>
        match Route.params rt !! i with
        | Some k => Captured.params cap !! P2R.name k = Some stored
        | None => True
        end
    end.
Proof.
  intros Hexec Hc Hnd _. unfold Route.match_. rewrite Hexec.
  eexists; split; [reflexivity | ]. cbn [Captured.params].
  destruct (Route.params rt) as [ | k0 keys ] eqn:Hkeys.
  - apply (positional_lookup captures 0 ∅ i). exact Hc.
  - destruct ((k0 :: keys) !! i) as [k | ] eqn:Hk; [ | exact I ].
    eapply named_lookup; eauto.
Qed.

Lemma ensure_all_legal ms name path mws :
  Forall (fun mw => forall ty, mw <> Other ty) mws ->
  exists fns, Route.ensure_all ms name path mws = Returns fns /\
              length fns = length mws.
Proof.
  induction mws as [ | mw mws IH ]; intros Hall; simpl.
  - exists []. auto.
  - apply Forall_cons in Hall as [Hmw Hall]. destruct (IH Hall) as (fns & -> & Hlen).
    destruct mw as [g | gs | ty]; simpl.
    + eexists; split; [reflexivity | simpl; lia].
    + eexists; split; [reflexivity | simpl; lia].
    + exfalso. eapply Hmw. reflexivity.
Qed.

Lemma ensure_all_illegal ms name path pre ty post :
  Forall (fun mw => forall ty', mw <> Other ty') pre ->
  Route.ensure_all ms name path (pre ++ Other ty :: post) =
  match Route.ensure ms name path (Other ty) with
  | Throws e => Throws e
  | Returns _ => Returns []
  end.
Proof.
  induction pre as [ | mw pre IH ]; intros Hall; simpl.
  - reflexivity.
  - apply Forall_cons in Hall as [Hmw Hall]. rewrite (IH Hall).
    destruct mw as [g | gs | ty']; simpl; try reflexivity.
    exfalso. eapply Hmw. reflexivity.
Qed.

(** X11.  A registration whose pattern is a regular expression succeeds
    exactly when every middleware is a function or an application; so does
    one whose pattern is a template that compiles. *)
Theorem register_succeeds_iff name path ms mws r :
  match path with
  | Route.Pattern _ => True
  | Route.Template s =>
      exists compiled,
        Deps.pathToRegexp s
          (Route.regexp_options (Router.opts r) match ms with [] => true | _ => false end)
        = Returns compiled
  end ->
  (exists rt r', Router.register name path ms mws r = Returns (rt, r')) <->
  Forall (fun mw => forall ty, mw <> Other ty) mws.
Proof.
  intros Hpath. unfold Router.register, Route.new. simpl.
  assert (Hens : (exists fns, Route.ensure_all ms name path mws = Returns fns) <->
                 Forall (fun mw => forall ty, mw <> Other ty) mws).
  { split.
    - intros (fns & Hfns). apply Forall_forall. intros mw Hin ty ->.
      apply list_elem_of_split in Hin as (pre & post & ->).
      revert fns Hfns. induction pre as [ | mw pre IH ]; intros fns Hfns; simpl in Hfns.
      + discriminate.
      + destruct (Route.ensure ms name path mw); [ | discriminate ].
        destruct (Route.ensure_all ms name path (pre ++ Other ty :: post)) eqn:E;
          [ | discriminate ].
        eapply IH. reflexivity.
    - intros Hall. destruct (ensure_all_legal ms name path mws Hall) as (fns & Hfns & _).
      eauto. }
  rewrite <- Hens. destruct path as [s | re].
  - destruct Hpath as ([re keys] & ->).
    destruct (Route.ensure_all ms name (Route.Template s) mws) as [fns | e].
    + split; eauto.
    + split; [intros (rt & r' & Hx); discriminate | intros (fns & Hx); discriminate].
  - destruct (Route.ensure_all ms name (Route.Pattern re) mws) as [fns | e].
    + split; eauto.
    + split; [intros (rt & r' & Hx); discriminate | intros (fns & Hx); discriminate].
Qed.

(** A registration with a middleware that is neither a function nor an
    application raises, and leaves the router as it was. *)
Lemma register_refuses name path ms pre ty post r :
  Forall (fun mw => forall ty', mw <> Other ty') pre ->
  match path with
  | Route.Pattern _ => True
  | Route.Template s =>
      exists compiled,
        Deps.pathToRegexp s
          (Route.regexp_options (Router.opts r) match ms with [] => true | _ => false end)
        = Returns compiled
  end ->
  Router.register name path ms (pre ++ Other ty :: post) r =
  Throws (mkError
    (Js.join "," ms +:+ " `" +:+
     match name with
     | Some (String a n) => String a n
     | _ => match path with
            | Route.Template s => s
            | Route.Pattern re => "/" +:+ P2R.source re +:+ "/"
            end
     end +:+
     "`: `middleware` must be a function or application, not `" +:+ ty +:+ "`")) /\
  Router.after r (Router.Register name path ms (pre ++ Other ty :: post)) = r.
Proof.
  intros Hpre Hpath.
  assert (Hreg : Router.register name path ms (pre ++ Other ty :: post) r =
                 Throws (mkError
                   (Js.join "," ms +:+ " `" +:+
                    match name with
                    | Some (String a n) => String a n
                    | _ => match path with
                           | Route.Template s => s
                           | Route.Pattern re => "/" +:+ P2R.source re +:+ "/"
                           end
                    end +:+
                    "`: `middleware` must be a function or application, not `" +:+ ty
                    +:+ "`"))).
  { unfold Router.register, Route.new. simpl.
    rewrite (ensure_all_illegal ms name path pre ty post Hpre).
    destruct path as [s | re].
    - destruct Hpath as ([re keys] & ->). simpl.
      destruct name as [[ | a n] | ]; reflexivity.
    - simpl. destruct name as [[ | a n] | ]; reflexivity. }
  split; [exact Hreg | ].
  unfold Router.after. simpl. rewrite Hreg. reflexivity.
Qed.

(** X12.  When the template compiles and some middleware is neither a
    function nor an application, the registration raises an [Error] whose
    message gives the methods as they were passed, the name of the route or
    else its template, and the type of the first such value; the router is
    left as it was. *)
Theorem illegal_middleware_refused name s ms pre ty post r compiled :
  Forall (fun mw => forall ty', mw <> Other ty') pre ->
  Deps.pathToRegexp s
    (Route.regexp_options (Router.opts r) match ms with [] => true | _ => false end)
  = Returns compiled ->
  Router.register name (Route.Template s) ms (pre ++ Other ty :: post) r =
  Throws (mkError
    (Js.join "," ms +:+ " `" +:+
     match name with
     | Some (String a n) => String a n
     | _ => s
     end +:+
     "`: `middleware` must be a function or application, not `" +:+ ty +:+ "`")) /\
  Router.after r (Router.Register name (Route.Template s) ms (pre ++ Other ty :: post)) = r.
Proof.
  intros Hpre Hcompiled.
  apply (register_refuses name (Route.Template s) ms pre ty post r Hpre).
  exists compiled. exact Hcompiled.
Qed.

End Hooks.

(** ** More on the dispatch *)

Section Fuel.

Implicit Types (fr : Router.Frame) (g : Gen).

Local Abbreviation Cont := (Router.Frame -> option (Outcome unit * Router.Frame)).
Local Abbreviation run := (Koa.run Router.context Router.put).

Local Abbreviation extends := Router.extends.

Lemma run_mono g : forall (k k' : Cont) started fr r,
  extends k k' -> run g k started fr = Some r -> run g k' started fr = Some r.
Proof.
  induction g as [ | e | f g IH | f IH | g IH | body IHb handler IHh g IHk ];
    intros k k' started fr r Hkk Hrun; simpl in *.
  - exact Hrun.
  - exact Hrun.
  - eapply IH; eauto.
  - eapply IH; eauto.
  - destruct started; [eapply IH; eauto | ].
    destruct (k fr) as [[o1 fr1] | ] eqn:Hk; [ | discriminate ].
    rewrite (Hkk _ _ Hk). destruct o1 as [[] | e]; [eapply IH; eauto | exact Hrun].
  - destruct (run body k started fr) as [[[ob stb] frb] | ] eqn:Hb; [ | discriminate ].
    rewrite (IHb _ _ _ _ _ Hkk Hb).
    destruct ob as [[] | e]; [eapply IHk; eauto | ].
    destruct (run (handler e) k stb frb) as [[[oh sth] frh] | ] eqn:Hh; [ | discriminate ].
    rewrite (IHh e _ _ _ _ _ Hkk Hh).
    destruct oh as [[] | e']; [eapply IHk; eauto | exact Hrun].
Qed.

Lemma call_gen_mono g (k k' : Cont) :
  extends k k' ->
  extends (Koa.call_gen Router.context Router.put g k)
          (Koa.call_gen Router.context Router.put g k').
Proof.
  intros Hkk fr r. unfold Koa.call_gen.
  destruct (run g k false fr) as [[[o st] fr1] | ] eqn:Hr; [ | discriminate ].
  rewrite (run_mono g _ _ _ _ _ Hkk Hr). auto.
Qed.

Lemma compose_mono gs : forall (k k' : Cont),
  extends k k' ->
  extends (Koa.compose Router.context Router.put gs k)
          (Koa.compose Router.context Router.put gs k').
Proof.
  induction gs as [ | g gs IH ]; intros k k' Hkk; simpl; [exact Hkk | ].
  apply call_gen_mono, IH, Hkk.
Qed.

Lemma call_fn_mono f (k k' : Cont) :
  extends k k' ->
  extends (Koa.call_fn Router.context Router.put f k)
          (Koa.call_fn Router.context Router.put f k').
Proof.
  destruct f as [g | gs]; simpl; [apply call_gen_mono | apply compose_mono].
Qed.

Lemma compose_fns_mono fs : forall (k k' : Cont),
  extends k k' ->
  extends (Koa.compose_fns Router.context Router.put fs k)
          (Koa.compose_fns Router.context Router.put fs k').
Proof.
  induction fs as [ | f fs IH ]; intros k k' Hkk; simpl; [exact Hkk | ].
  apply call_fn_mono, IH, Hkk.
Qed.

Lemma call_mono mw (k k' : Cont) :
  extends k k' ->
  extends (Koa.call Router.context Router.put mw k)
          (Koa.call Router.context Router.put mw k').
Proof.
  destruct mw as [f | fs]; simpl; [apply call_fn_mono | apply compose_fns_mono].
Qed.

End Fuel.

Section Dispatching.

Context `{Deps.t}.

Implicit Types (router : Router.t) (done : Router.Downstream) (ctx : Context.t).
Implicit Types (fr : Router.Frame).

Local Abbreviation extends := Router.extends.

(** More fuel does not change what [next] does. *)
Lemma next_more_fuel router done routes_ pathname method params_ : forall fuel,
  extends (Router.next router done routes_ pathname method params_ fuel)
          (Router.next router done routes_ pathname method params_ (S fuel)).
Proof.
  induction fuel as [ | fuel IH ]; intros fr r Hn; [discriminate | ].
  remember (S fuel) as n eqn:Hn'. simpl. subst n. simpl in Hn.
  destruct (Z.of_nat (length routes_) <=? Router.index fr + 1); [exact Hn | ].
  destruct (Js.element routes_ (Router.index fr + 1)) as [m | ]; [ | exact Hn ].
  destruct (Router.applicable method (Matched.route m)).
  - destruct (Route.middleware (Matched.route m)) as [mw | ]; [ | exact Hn ].
    destruct (Koa.call Router.context Router.put mw
                (Router.next router done routes_ pathname method params_ fuel) _)
      as [[o1 fr1] | ] eqn:Hc; [ | discriminate ].
    rewrite (call_mono mw _ _ IH _ _ Hc). exact Hn.
  - apply IH. exact Hn.
Qed.

Lemma next_any_fuel router done routes_ pathname method params_ fuel extra fr r :
  Router.next router done routes_ pathname method params_ fuel fr = Some r ->
  Router.next router done routes_ pathname method params_ (extra + fuel) fr = Some r.
Proof.
  intros Hn. induction extra as [ | extra IH ]; [exact Hn | ].
  apply next_more_fuel. exact IH.
Qed.

(** X13.  The dispatch always ends: the generators [next] never nest
    deeper than the number of matched routes plus one, which is the fuel
    the middleware gives them, and any larger bound gives the same
    outcome and the same frame. *)
Theorem dispatch_terminates router done ctx :
  exists result,
    Router.middleware router done ctx = Some result /\
    match Router.match_ router (Context.path ctx) with
    | Some routes_ =>
        forall extra,
          Router.next router done routes_ (Context.path ctx) (Context.method ctx)
            (Context.params ctx) (extra + S (length routes_)) (Router.initial ctx)
          = Some result
    | None => result = Router.yield_done done (Router.initial ctx)
    end.
Proof.
  destruct (middleware_total router done ctx) as [result Hrun].
  exists result. split; [exact Hrun | ].
  unfold Router.middleware in Hrun.
  destruct (Router.match_ router (Context.path ctx)) as [routes_ | ].
  - intros extra. apply next_any_fuel. exact Hrun.
  - inversion Hrun. reflexivity.
Qed.

(** X14.  When routes match the path and the dispatch returns, the path
    and the parameters of the context are those of the request again,
    whatever the middleware and the downstream have done to them. *)
Theorem dispatch_restores_scope router done ctx routes_ fr' :
  Router.match_ router (Context.path ctx) = Some routes_ ->
  Router.middleware router done ctx = Some (Returns tt, fr') ->
  Context.path (Router.context fr') = Context.path ctx /\
  Context.params (Router.context fr') = Context.params ctx.
Proof. apply middleware_restores. Qed.

End Dispatching.

Section Order.

Context `{Deps.t} (router : Router.t) (done : Router.Downstream).
Context (routes_ : list Matched.t) (pathname method : string).
Context (params_ : option (gmap string (option string))).

Implicit Types (fr : Router.Frame).

Local Abbreviation next := (Router.next router done routes_ pathname method params_).
Local Abbreviation applicable := (Router.applicable method).

(** Past routes that are not applicable, [next] goes on from the cursor
    behind them, with their methods recorded. *)
Lemma next_skips skipped : forall fuel fr m rest,
  drop (Z.to_nat (Router.index fr + 1)) routes_ = (skipped ++ m :: rest)%list ->
  -1 <= Router.index fr ->
  (forall s, s ∈ skipped -> applicable (Matched.route s) = false) ->
  next (length skipped + fuel) fr =
  next fuel
    (Router.set_methodsAvailable
       (Router.recorded method skipped (Router.methodsAvailable fr))
       (Router.set_index (Router.index fr + Z.of_nat (length skipped)) fr)).
Proof.
  induction skipped as [ | s skipped IH ]; intros fuel fr m rest Hdrop Hi Hall.
  - simpl. rewrite recorded_nil, Z.add_0_r. destruct fr; reflexivity.
  - assert (Hlen : (Z.to_nat (Router.index fr + 1) < length routes_)%nat).
    { destruct (decide (Z.to_nat (Router.index fr + 1) < length routes_)%nat) as [Hlt | Hge];
        [exact Hlt | ].
      rewrite drop_ge in Hdrop by lia. discriminate. }
    assert (Hs : routes_ !! Z.to_nat (Router.index fr + 1) = Some s).
    { rewrite <- (Nat.add_0_r (Z.to_nat (Router.index fr + 1))), <- lookup_drop, Hdrop.
      reflexivity. }
    assert (Hel : Js.element routes_ (Router.index fr + 1) = Some s).
    { unfold Js.element. destruct (Router.index fr + 1 <? 0) eqn:E;
        [apply Z.ltb_lt in E; lia | exact Hs]. }
    assert (Happ : applicable (Matched.route s) = false) by (apply Hall; left).
    cbn [length Nat.add]. cbn [Router.next Router.index Router.set_index].
    destruct (Z.of_nat (length routes_) <=? Router.index fr + 1) eqn:Hend;
      [apply Z.leb_le in Hend; lia | ].
    rewrite Hel, Happ, (not_applicable _ _ Happ). cbn [negb]. rewrite andb_true_l.
    rewrite (drop_S _ _ _ Hs) in Hdrop. simpl in Hdrop. inversion Hdrop as [Hdrop'].
    rewrite recorded_cons.
    assert (Hsucc : Z.to_nat (Router.index fr + 1 + 1) = S (Z.to_nat (Router.index fr + 1)))
      by lia.
    destruct (String.eqb method "OPTIONS").
    + rewrite (IH fuel _ m rest); cbn [Router.index Router.set_index Router.set_methodsAvailable].
      * f_equal. destruct fr; unfold Router.set_methodsAvailable, Router.set_index; simpl.
        f_equal; first [reflexivity | lia].
      * rewrite Hsucc. exact Hdrop'.
      * lia.
      * intros s' Hs'. apply Hall. right. exact Hs'.
    + rewrite (IH fuel _ m rest); cbn [Router.index Router.set_index Router.set_methodsAvailable].
      * f_equal. destruct fr; unfold Router.set_methodsAvailable, Router.set_index; simpl.
        f_equal; first [reflexivity | lia].
      * rewrite Hsucc. exact Hdrop'.
      * lia.
      * intros s' Hs'. apply Hall. right. exact Hs'.
Qed.

(** Once a route has been called, [called] stays set. *)
Lemma next_called : forall fuel fr o fr',
  Router.called fr = true -> next fuel fr = Some (o, fr') -> Router.called fr' = true.
Proof.
  induction fuel as [ | fuel IH ]; intros fr o fr' Hc Hn; [discriminate | ].
  simpl in Hn.
  destruct (Z.of_nat (length routes_) <=? Router.index fr + 1).
  - unfold Router.exhausted, Router.yield_done in Hn. simpl in Hn.
    destruct (Router.delegations fr).
    + destruct (done _) as [[[] | e] c1]; simpl in Hn.
      * rewrite Hc in Hn. simpl in Hn. inversion Hn; subst. exact Hc.
      * inversion Hn; subst. exact Hc.
    + simpl in Hn. rewrite Hc in Hn. simpl in Hn. inversion Hn; subst. exact Hc.
  - destruct (Js.element routes_ (Router.index fr + 1)) as [m | ].
    2:{ inversion Hn; subst. exact Hc. }
    destruct (applicable (Matched.route m)).
    + destruct (Route.middleware (Matched.route m)) as [mw | ].
      2:{ inversion Hn; subst. reflexivity. }
      destruct (Koa.call _ _ mw _ _) as [[o1 fr1] | ] eqn:Hcall; [ | discriminate ].
      assert (Hfr1 : Router.called fr1 = true).
      { apply call_linear in Hcall as [Hl | (fa & oa & fb & Ha & Hb & Hl)].
        - unfold Router.locals in Hl. inversion Hl as [[Hi Hcd Hm Hd]]. rewrite Hcd.
          destruct (negb _ && _); reflexivity.
        - unfold Router.locals in Hl, Ha. inversion Hl as [[Hi Hcd Hm Hd]]. rewrite Hcd.
          eapply IH; [ | exact Hb ]. inversion Ha as [[Hi' Hcd' Hm' Hd']]. rewrite Hcd'.
          destruct (negb _ && _); reflexivity. }
      destruct o1 as [[] | e]; inversion Hn; subst; exact Hfr1.
    + eapply IH; [ | exact Hn ]. destruct (negb _ && _); exact Hc.
Qed.

(** The step of [next] at an applicable route. *)
Lemma next_calls_route fuel fr m mw :
  Js.element routes_ (Router.index fr + 1) = Some m ->
  applicable (Matched.route m) = true ->
  Route.middleware (Matched.route m) = Some mw ->
  next (S fuel) fr =
  match Koa.call Router.context Router.put mw (next fuel)
          (Router.rescope router params_ m
             (Router.set_called true (Router.set_index (Router.index fr + 1) fr))) with
  | Some (Returns _, fr2) =>
      Some (Returns tt,
            Router.restore (Context.params (Router.context fr))
              (Context.path (Router.context fr)) fr2)
  | Some (Throws e, fr2) => Some (Throws e, fr2)
  | None => None
  end.
Proof.
  intros Hm Happ Hmw. simpl.
  pose proof (element_Some _ _ _ Hm) as [[_ Hlt] _].
  destruct (Z.of_nat (length routes_) <=? Router.index fr + 1) eqn:Hend;
    [apply Z.leb_le in Hend; lia | ].
  rewrite Hm, Happ, (applicable_not_recorded _ _ Happ), Hmw.
  destruct (Koa.call _ _ mw _ _) as [[[[] | e] fr2] | ]; reflexivity.
Qed.

(** At an applicable route [next] sets [called], and it stays set. *)
Lemma next_marks_called fuel fr m o fr' :
  Js.element routes_ (Router.index fr + 1) = Some m ->
  applicable (Matched.route m) = true ->
  next fuel fr = Some (o, fr') -> Router.called fr' = true.
Proof.
  intros Hm Happ Hn. destruct fuel as [ | fuel ]; [discriminate | ].
  destruct (Route.middleware (Matched.route m)) as [mw | ] eqn:Hmw.
  - rewrite (next_calls_route fuel fr m mw Hm Happ Hmw) in Hn.
    destruct (Koa.call _ _ mw _ _) as [[o1 fr1] | ] eqn:Hcall; [ | discriminate ].
    assert (Hfr1 : Router.called fr1 = true).
    { apply call_linear in Hcall as [Hl | (fa & oa & fb & Ha & Hb & Hl)].
      - unfold Router.locals in Hl. injection Hl as Hi Hcd Hmm Hd. exact Hcd.
      - unfold Router.locals in Hl, Ha. injection Hl as Hi Hcd Hmm Hd. rewrite Hcd.
        eapply next_called; [ | exact Hb ]. injection Ha as Hi' Hcd' Hm' Hd'. exact Hcd'. }
    destruct o1 as [[] | e]; inversion Hn; subst; exact Hfr1.
  - simpl in Hn.
    pose proof (element_Some _ _ _ Hm) as [[_ Hlt] _].
    destruct (Z.of_nat (length routes_) <=? Router.index fr + 1) eqn:Hend;
      [apply Z.leb_le in Hend; lia | ].
    rewrite Hm, Happ, (applicable_not_recorded _ _ Happ), Hmw in Hn.
    inversion Hn; subst. reflexivity.
Qed.

End Order.

Section Handling.

Context `{Deps.t}.

Implicit Types (router : Router.t) (done : Router.Downstream) (ctx : Context.t).

Lemma first_true {A} (f : A -> bool) (l : list A) :
  existsb f l = true ->
  exists pre x post,
    l = (pre ++ x :: post)%list /\ forallb (fun y => negb (f y)) pre = true /\ f x = true.
Proof.
  induction l as [ | a l IH ]; simpl; [discriminate | ].
  destruct (f a) eqn:Ha; simpl.
  - intros _. exists [], a, l. auto.
  - intros Hl. destruct (IH Hl) as (pre & x & post & -> & Hpre & Hx).
    exists (a :: pre), x, post. simpl. rewrite Ha. auto.
Qed.

Lemma none_true {A} (f : A -> bool) (l : list A) :
  existsb f l = false -> forallb (fun y => negb (f y)) l = true.
Proof.
  induction l as [ | a l IH ]; simpl; [reflexivity | ].
  destruct (f a); simpl; [discriminate | exact IH].
Qed.

(** The frame in which the walk reaches the route behind [skipped]. *)
Lemma middleware_skips router done ctx skipped m rest :
  Router.match_ router (Context.path ctx) = Some (skipped ++ m :: rest)%list ->
  forallb (fun s => negb (Router.applicable (Context.method ctx) (Matched.route s)))
          skipped = true ->
  Router.middleware router done ctx =
  Router.next router done (skipped ++ m :: rest) (Context.path ctx) (Context.method ctx)
    (Context.params ctx) (S (S (length rest)))
    {| Router.context := ctx;
       Router.index := Z.of_nat (length skipped) - 1;
       Router.called := false;
       Router.methodsAvailable := Router.recorded (Context.method ctx) skipped [];
       Router.delegations := 0 |}.
Proof.
  intros Hmatch Hskip. unfold Router.middleware. rewrite Hmatch.
  replace (S (length (skipped ++ m :: rest)))
    with (length skipped + S (S (length rest)))%nat
    by (rewrite length_app; simpl; lia).
  rewrite (next_skips router done _ _ _ _ skipped _ _ m rest).
  - f_equal. unfold Router.initial, Router.set_methodsAvailable, Router.set_index. simpl.
    f_equal. lia.
  - reflexivity.
  - simpl. lia.
  - apply none_applicable. exact Hskip.
Qed.

Lemma middle_element (skipped : list Matched.t) m rest :
  Js.element (skipped ++ m :: rest) (Z.of_nat (length skipped) - 1 + 1) = Some m.
Proof.
  unfold Js.element.
  destruct (Z.of_nat (length skipped) - 1 + 1 <? 0) eqn:E; [apply Z.ltb_lt in E; lia | ].
  replace (Z.to_nat (Z.of_nat (length skipped) - 1 + 1)) with (length skipped) by lia.
  apply list_lookup_middle. reflexivity.
Qed.

(** X15.  The routes that match the path are tried in the order of
    registration.  Those that are not applicable to the method are passed
    without being called; the first applicable one is called on the
    context rescoped to it, with [called] set, and with the generator
    [next] of the routes behind it as its continuation.  When it returns,
    the path and the parameters of the request are put back; when it
    raises, the error is raised again. *)
Theorem first_applicable_route_is_called router done ctx skipped m rest mw :
  Router.match_ router (Context.path ctx) = Some (skipped ++ m :: rest)%list ->
  forallb (fun s => negb (Router.applicable (Context.method ctx) (Matched.route s)))
          skipped = true ->
  Router.applicable (Context.method ctx) (Matched.route m) = true ->
  Route.middleware (Matched.route m) = Some mw ->
  Router.middleware router done ctx =
  match Koa.call Router.context Router.put mw
          (Router.next router done (skipped ++ m :: rest) (Context.path ctx)
             (Context.method ctx) (Context.params ctx) (S (length rest)))
          (Router.rescope router (Context.params ctx) m
             {| Router.context := ctx;
                Router.index := Z.of_nat (length skipped);
                Router.called := true;
                Router.methodsAvailable := Router.recorded (Context.method ctx) skipped [];
                Router.delegations := 0 |}) with
  | Some (Returns _, fr2) =>
      Some (Returns tt, Router.restore (Context.params ctx) (Context.path ctx) fr2)
  | Some (Throws e, fr2) => Some (Throws e, fr2)
  | None => None
  end.
Proof.
  intros Hmatch Hskip Happ Hmw.
  rewrite (middleware_skips router done ctx skipped m rest Hmatch Hskip).
  erewrite (next_calls_route router done _ _ _ _ _ _ m mw);
    [ | apply middle_element | exact Happ | exact Hmw ].
  cbn [Router.index Router.context Router.set_called Router.set_index
       Router.called Router.methodsAvailable Router.delegations].
  replace (Z.of_nat (length skipped) - 1 + 1) with (Z.of_nat (length skipped)) by lia.
  reflexivity.
Qed.

(** X16.  At the end of a dispatch, [called] tells whether one of the
    routes that matched the path was applicable to the method; it is what
    keeps the router from writing a status of its own. *)
Theorem called_iff_applicable router done ctx :
  exists o fr',
    Router.middleware router done ctx = Some (o, fr') /\
    Router.called fr' =
    match Router.match_ router (Context.path ctx) with
    | Some routes_ =>
        existsb (fun m => Router.applicable (Context.method ctx) (Matched.route m)) routes_
    | None => false
    end.
Proof.
  destruct (middleware_total router done ctx) as [[o fr'] Hrun].
  exists o, fr'. split; [exact Hrun | ].
  destruct (Router.match_ router (Context.path ctx)) as [routes_ | ] eqn:Hmatch.
  - destruct (existsb _ routes_) eqn:Hex.
    + apply first_true in Hex as (pre & m & post & -> & Hpre & Hm).
      rewrite (middleware_skips router done ctx pre m post Hmatch Hpre) in Hrun.
      eapply next_marks_called.
      3: exact Hrun.
      * apply middle_element.
      * exact Hm.
    + apply none_true in Hex. unfold Router.middleware in Hrun. rewrite Hmatch in Hrun.
      rewrite next_falls_through in Hrun.
      * unfold Router.exhausted, Router.yield_done in Hrun. simpl in Hrun.
        destruct (done _) as [[[] | e] c1]; inversion Hrun; subst;
          [destruct (negb (Context.explicitStatus c1)) | ]; reflexivity.
      * unfold Router.need. simpl. lia.
      * simpl. lia.
      * simpl. apply none_applicable. exact Hex.
  - unfold Router.middleware in Hrun. rewrite Hmatch in Hrun.
    unfold Router.yield_done in Hrun. simpl in Hrun.
    destruct (done ctx) as [o1 c1]. inversion Hrun; subst. reflexivity.
Qed.

(** The dispatch when no route that matches is applicable. *)
Lemma middleware_unhandled router done ctx routes_ :
  Router.match_ router (Context.path ctx) = Some routes_ ->
  forallb (fun m => negb (Router.applicable (Context.method ctx) (Matched.route m)))
          routes_ = true ->
  Router.middleware router done ctx =
  Some (Router.exhausted router done (Context.path ctx) (Context.params ctx)
          (Context.params ctx) (Context.path ctx)
          {| Router.context := ctx;
             Router.index := Z.of_nat (length routes_);
             Router.called := false;
             Router.methodsAvailable := Router.recorded (Context.method ctx) routes_ [];
             Router.delegations := 0 |}).
Proof.
  intros Hmatch Hall. unfold Router.middleware. rewrite Hmatch.
  rewrite next_falls_through.
  - reflexivity.
  - unfold Router.need. simpl. lia.
  - simpl. lia.
  - simpl. apply none_applicable. exact Hall.
Qed.

(** X17.  A downstream that has set the status itself is not overruled:
    when no route that matches is applicable and the downstream returns
    with an explicit status, the router writes neither status nor header,
    and only puts the path and the parameters back. *)
Theorem explicit_status_is_kept router done ctx routes_ ctx1 :
  Router.match_ router (Context.path ctx) = Some routes_ ->
  forallb (fun m => negb (Router.applicable (Context.method ctx) (Matched.route m)))
          routes_ = true ->
  done ctx = (Returns tt, ctx1) ->
  Context.explicitStatus ctx1 = true ->
  exists fr',
    Router.middleware router done ctx = Some (Returns tt, fr') /\
    Router.context fr' =
    Context.set_path (Context.path ctx) (Context.set_params (Context.params ctx) ctx1).
Proof.
  intros Hmatch Hall Hdone Hexp.
  rewrite (middleware_unhandled router done ctx routes_ Hmatch Hall).
  unfold Router.exhausted, Router.yield_done. simpl.
  rewrite context_eta, Hdone. simpl. rewrite Hexp. simpl.
  eexists. split; reflexivity.
Qed.

(** X18.  An error raised by the downstream is raised by the router: when
    no route matches, or none that matches is applicable, the dispatch
    raises the same error, writes no status, and leaves the context as the
    downstream left it. *)
Theorem downstream_error_propagates router done ctx e ctx1 :
  done ctx = (Throws e, ctx1) ->
  match Router.match_ router (Context.path ctx) with
  | Some routes_ =>
      forallb (fun m => negb (Router.applicable (Context.method ctx) (Matched.route m)))
              routes_ = true
  | None => True
  end ->
  exists fr',
    Router.middleware router done ctx = Some (Throws e, fr') /\
    Router.context fr' = ctx1.
Proof.
  intros Hdone Hall.
  destruct (Router.match_ router (Context.path ctx)) as [routes_ | ] eqn:Hmatch.
  - rewrite (middleware_unhandled router done ctx routes_ Hmatch Hall).
    unfold Router.exhausted, Router.yield_done. simpl.
    rewrite context_eta, Hdone. eexists. split; reflexivity.
  - unfold Router.middleware. rewrite Hmatch.
    unfold Router.yield_done. simpl. rewrite Hdone. eexists. split; reflexivity.
Qed.

(** X24.  With the option [mergeParams], the middleware of a route sees
    the parameters of the request merged with the captures of the route:
    a name the route captured has the route's value, also when that value
    is [undefined], and any other name has the value the request had.
    Without the option it sees the captures of the route only. *)
Theorem merged_params_route_wins router params_ m fr key :
  exists seen,
    Context.params (Router.context (Router.rescope router params_ m fr)) = Some seen /\
    seen !! key =
    match Matched.params m !! key with
    | Some v => Some v
    | None =>
        if Opts.mergeParams (Router.opts router) then default ∅ params_ !! key else None
    end.
Proof.
  unfold Router.rescope, Router.mergeParams.
  destruct (Opts.mergeParams (Router.opts router)); eexists; (split; [reflexivity | ]).
  - rewrite lookup_union.
    destruct (Matched.params m !! key); destruct (default ∅ params_ !! key); reflexivity.
  - destruct (Matched.params m !! key); reflexivity.
Qed.

(** X22.  What the router writes when nothing handled the request is the
    status code, the status message that [statuses] has for that code, and
    the [Allow] header, and nothing else: the status is not marked as
    explicit, and the body, the state and the headers with another name
    (in whatever letter case) are as the downstream left them. *)
Theorem fallback_writes_only_status router done ctx routes_ ctx1 :
  Router.match_ router (Context.path ctx) = Some routes_ ->
  forallb (fun m => negb (Router.applicable (Context.method ctx) (Matched.route m)))
          routes_ = true ->
  done ctx = (Returns tt, ctx1) ->
  Context.explicitStatus ctx1 = false ->
  exists fr',
    Router.middleware router done ctx = Some (Returns tt, fr') /\
    Context.statusMessage (Router.context fr')
    = Deps.statuses (Context.statusCode (Router.context fr')) /\
    Context.explicitStatus (Router.context fr') = false /\
    Context.body (Router.context fr') = Context.body ctx1 /\
    Context.state (Router.context fr') = Context.state ctx1 /\
    Context.method (Router.context fr') = Context.method ctx1 /\
    forall field,
      Js.fold_case field <> "ALLOW" ->
      Context.headers (Router.context fr') !! field = Context.headers ctx1 !! field.
Proof.
  intros Hmatch Hall Hdone Hexp.
  rewrite (middleware_fallback router done ctx routes_ ctx1 Hmatch
             (none_applicable _ _ Hall) Hdone Hexp).
  eexists. split; [reflexivity | ].
  cbn [Router.context]. unfold Router.synthesize.
  destruct (Js.indexOf (Router.methods router) _ <? 0); simpl;
    (split; [reflexivity | ]); (split; [exact Hexp | ]);
    (split; [reflexivity | ]); (split; [reflexivity | ]); (split; [reflexivity | ]);
    intros field Hfield; apply lookup_insert_ne; intros <-; apply Hfield; reflexivity.
Qed.

End Handling.

(** ** The [Allow] header *)

Section Allow.

Context `{Deps.t}.

Lemma define_elem own k x : x ∈ Js.define own k <-> x ∈ own \/ x = k.
Proof.
  unfold Js.define. destruct (0 <=? Js.indexOf own k) eqn:E.
  - apply Z.leb_le, indexOf_elem in E. split; [auto | ].
    intros [Hx | ->]; assumption.
  - rewrite elem_of_app, list_elem_of_singleton. reflexivity.
Qed.

Lemma define_NoDup own k : NoDup own -> NoDup (Js.define own k).
Proof.
  intros Hown. unfold Js.define. destruct (0 <=? Js.indexOf own k) eqn:E; [exact Hown | ].
  apply Z.leb_gt in E. apply NoDup_app. split; [exact Hown | split ].
  - intros x Hx Hk. apply list_elem_of_singleton in Hk. subst x.
    apply indexOf_elem in Hx. lia.
  - apply NoDup_singleton.
Qed.

Lemma foldl_define_elem l : forall own x,
  x ∈ foldl Js.define own l <-> x ∈ own \/ x ∈ l.
Proof.
  induction l as [ | k l IH ]; intros own x; simpl.
  - split; [auto | intros [Hx | Hx]; [exact Hx | inversion Hx]].
  - rewrite IH, define_elem, elem_of_cons. tauto.
Qed.

Lemma foldl_define_NoDup l : forall own, NoDup own -> NoDup (foldl Js.define own l).
Proof.
  induction l as [ | k l IH ]; intros own Hown; simpl; [exact Hown | ].
  apply IH, define_NoDup, Hown.
Qed.

Lemma insert_sorted_perm k l : Js.insert_sorted k l ≡ₚ k :: l.
Proof.
  induction l as [ | h t IH ]; simpl; [reflexivity | ].
  destruct (fst k <=? fst h)%N; [reflexivity | ].
  rewrite IH. apply Permutation_swap.
Qed.

(** [Object.keys] enumerates every own property once. *)
Lemma keys_perm own : Js.keys own ≡ₚ own.
Proof.
  unfold Js.keys.
  assert (Hsort : forall l, foldr Js.insert_sorted [] l ≡ₚ l).
  { induction l as [ | k l IH ]; simpl; [reflexivity | ].
    rewrite insert_sorted_perm, IH. reflexivity. }
  rewrite (Permutation_map snd (Hsort _)).
  induction own as [ | a own IH ]; simpl; [reflexivity | ].
  destruct (Js.array_index a) as [n | ]; simpl.
  - rewrite IH. reflexivity.
  - rewrite <- Permutation_middle, IH. reflexivity.
Qed.

(** X19.  When an [OPTIONS] request matches routes none of which is
    applicable and the downstream returns without an explicit status, the
    [Allow] header that the router writes is the list, joined with a comma
    and a space, of the methods that the matched routes declare: every
    such method is in it, nothing else is, and no name is in it twice,
    however many routes declare it.  (The methods are ordinary property
    names, which [__proto__] is not.) *)
Theorem allow_lists_each_method_once router done ctx routes_ ctx1 :
  Context.method ctx = "OPTIONS" ->
  Router.match_ router (Context.path ctx) = Some routes_ ->
  forallb (fun m => negb (Router.applicable (Context.method ctx) (Matched.route m)))
          routes_ = true ->
  done ctx = (Returns tt, ctx1) ->
  Context.explicitStatus ctx1 = false ->
  (forall m, m ∈ routes_ -> "__proto__" ∉ Route.methods (Matched.route m)) ->
  exists fr' names,
    Router.middleware router done ctx = Some (Returns tt, fr') /\
    Context.headers (Router.context fr') !! "Allow" = Some (Js.join ", " names) /\
    NoDup names /\
    forall x, x ∈ names <-> exists m, m ∈ routes_ /\ x ∈ Route.methods (Matched.route m).
Proof.
  intros Hmethod Hmatch Hall Hdone Hexp _.
  rewrite (middleware_fallback router done ctx routes_ ctx1 Hmatch
             (none_applicable _ _ Hall) Hdone Hexp).
  eexists. exists (Js.keys (Router.recorded (Context.method ctx) routes_ [])).
  split; [reflexivity | ]. cbn [Router.context].
  rewrite restored_headers, synthesize_allow. split; [reflexivity | ].
  rewrite Hmethod. unfold Router.recorded. cbn [String.eqb Ascii.eqb Bool.eqb].
  split.
  - rewrite keys_perm. apply foldl_define_NoDup, NoDup_nil_2.
  - intros x. rewrite keys_perm, foldl_define_elem. split.
    + intros [Hx | Hx]; [inversion Hx | ].
      apply list_elem_of_In, in_concat in Hx as (ms & Hms & Hx).
      apply in_map_iff in Hms as (m & <- & Hm).
      exists m. split; apply list_elem_of_In; assumption.
    + intros (m & Hm & Hx). right.
      apply list_elem_of_In, in_concat. exists (Route.methods (Matched.route m)).
      split; [ | apply list_elem_of_In; exact Hx ].
      apply in_map_iff. exists m. split; [reflexivity | apply list_elem_of_In; exact Hm].
Qed.

End Allow.

(** ** The encoding of generated URLs *)

Section Encoding.

Lemma chars_append a b :
  list_ascii_of_string (a +:+ b) = (list_ascii_of_string a ++ list_ascii_of_string b)%list.
Proof. induction a as [ | c a IH ]; simpl; [reflexivity | rewrite IH; reflexivity]. Qed.

Lemma hex_digit_unreserved c :
  Uri.unreserved (Uri.hex_digit (nat_of_ascii c / 16)) = true /\
  Uri.unreserved (Uri.hex_digit (nat_of_ascii c mod 16)) = true.
Proof. destruct c as [[] [] [] [] [] [] [] []]; vm_compute; split; reflexivity. Qed.

Lemma encode_chars s c :
  c ∈ list_ascii_of_string (Uri.escape s) ->
  Uri.unreserved c = true \/ c = "%"%char.
Proof.
  induction s as [ | a s IH ]; cbn [Uri.escape]; [intros Hc; inversion Hc | ].
  destruct (Uri.unreserved a) eqn:Ha; cbn [list_ascii_of_string].
  - rewrite elem_of_cons. intros [-> | Hc]; [left; exact Ha | exact (IH Hc)].
  - destruct (hex_digit_unreserved a) as [H1 H2].
    rewrite !elem_of_cons. intros [-> | [-> | [-> | Hc]]]; auto.
Qed.

Lemma join_chars l c :
  c ∈ list_ascii_of_string (Js.join "/" l) ->
  c = "/"%char \/ exists s, s ∈ l /\ c ∈ list_ascii_of_string s.
Proof.
  induction l as [ | x l IH ]; [intros Hc; inversion Hc | ].
  destruct l as [ | y l ].
  - simpl. intros Hc. right. exists x. split; [left | exact Hc].
  - change (Js.join "/" (x :: y :: l)) with (x +:+ String "/" (Js.join "/" (y :: l))).
    rewrite chars_append. cbn [list_ascii_of_string].
    rewrite elem_of_app, elem_of_cons. intros [Hc | [-> | Hc]].
    + right. exists x. split; [left | exact Hc].
    + left. reflexivity.
    + destruct (IH Hc) as [-> | (s & Hs & Hcs)]; [left; reflexivity | ].
      right. exists s. split; [right; exact Hs | exact Hcs].
Qed.

(** X20.  Whatever the template of the route and whatever the arguments,
    a generated URL consists of unreserved characters, percent signs and
    slashes only: every other character of a substituted value is escaped. *)
Theorem url_is_escaped rt args u c :
  Route.url rt args = Returns u ->
  c ∈ list_ascii_of_string u ->
  Uri.unreserved c = true \/ c = "%"%char \/ c = "/"%char.
Proof.
  intros Hu Hc. apply url_returns in Hu as [-> _].
  apply join_chars in Hc as [-> | (s & Hs & Hc)]; [auto | ].
  apply list_elem_of_In, in_map_iff in Hs as (s0 & <- & _).
  apply encode_chars in Hc as [Hc | Hc]; auto.
Qed.

Local Abbreviation token :=
  (fun c : ascii => (negb (Uri.unreserved c), N_of_ascii c)).

Lemma unescape_plain c r :
  c <> "%"%char ->
  Uri.unescape (String c r) =
  match Uri.unescape r with
  | Some t => Some ((false, N_of_ascii c) :: t)
  | None => None
  end.
Proof.
  intros Hc. destruct c as [[] [] [] [] [] [] [] []]; try reflexivity.
  contradiction Hc. reflexivity.
Qed.

Lemma hex_value_digit c :
  match Uri.hex_value (Uri.hex_digit (nat_of_ascii c / 16)),
        Uri.hex_value (Uri.hex_digit (nat_of_ascii c mod 16)) with
  | Some a, Some b => (16 * a + b)%N = N_of_ascii c
  | _, _ => False
  end.
Proof. destruct c as [[] [] [] [] [] [] [] []]; vm_compute; reflexivity. Qed.

Lemma unreserved_small c : Uri.unreserved c = true -> (N_of_ascii c <? 128)%N = true.
Proof. destruct c as [[] [] [] [] [] [] [] []]; vm_compute; intros Hc; congruence. Qed.

Lemma unescape_encode s :
  Uri.unescape (Uri.escape s) = Some (map token (list_ascii_of_string s)).
Proof.
  induction s as [ | c s IH ]; [reflexivity | ].
  cbn [Uri.escape list_ascii_of_string map].
  destruct (Uri.unreserved c) eqn:Hc.
  - rewrite unescape_plain, IH.
    + reflexivity.
    + intros ->. vm_compute in Hc. discriminate.
  - pose proof (hex_value_digit c) as Hab.
    destruct (Uri.hex_value (Uri.hex_digit (nat_of_ascii c / 16))) as [a | ] eqn:Ha;
      [ | destruct Hab ].
    destruct (Uri.hex_value (Uri.hex_digit (nat_of_ascii c mod 16))) as [b | ] eqn:Hb;
      [ | destruct Hab ].
    cbn [Uri.unescape]. rewrite Ha, Hb, IH, Hab. reflexivity.
Qed.

(** Whether a character below 128 is escaped makes no difference to the
    check of the UTF-8 sequences. *)
Lemma well_formed_token l : forall need cp lo,
  Uri.well_formed need cp lo (map token l) =
  Uri.well_formed need cp lo (map (fun c => (true, N_of_ascii c)) l).
Proof.
  induction l as [ | c l IH ]; intros need cp lo; [reflexivity | ].
  cbn [map]. destruct (Uri.unreserved c) eqn:Hc.
  - apply unreserved_small in Hc. cbn [Uri.well_formed negb orb andb].
    destruct need as [ | need ].
    + rewrite Hc. apply IH.
    + apply N.ltb_lt in Hc.
      destruct (128 <=? N_of_ascii c)%N eqn:E; [apply N.leb_le in E; lia | reflexivity].
  - cbn [Uri.well_formed negb orb andb].
    destruct need as [ | [ | need ] ];
      repeat match goal with
             | |- context [if ?b then _ else _] => destruct b
             end;
      rewrite ?IH; reflexivity.
Qed.

Lemma chars_back s :
  string_of_list_ascii
    (map (fun t : bool * N => ascii_of_N (snd t)) (map token (list_ascii_of_string s))) = s.
Proof.
  induction s as [ | c s IH ]; [reflexivity | ].
  cbn [list_ascii_of_string map string_of_list_ascii snd].
  rewrite IH, ascii_N_embedding. reflexivity.
Qed.

(** Decoding undoes encoding. *)
Lemma decode_encoded value encoded :
  Uri.encodeURIComponent value = Some encoded ->
  Route.decode_capture (Some encoded) = Some value.
Proof.
  unfold Uri.encodeURIComponent. destruct (Uri.utf8 value) eqn:Hs; [ | discriminate ].
  intros He. inversion He as [He']. clear He.
  assert (Hsafe : Route.safeDecodeURIComponent (Uri.escape value) = value).
  { unfold Route.safeDecodeURIComponent, Uri.decodeURIComponent.
    rewrite unescape_encode, well_formed_token. unfold Uri.utf8 in Hs. rewrite Hs.
    apply chars_back. }
  unfold Route.decode_capture.
  destruct (Uri.escape value) as [ | c r ] eqn:He; [ | rewrite Hsafe; reflexivity ].
  destruct value as [ | a s ]; [reflexivity | ].
  cbn [Uri.escape] in He. destruct (Uri.unreserved a); discriminate.
Qed.

(** X21.  When the text that a named parameter captures is what
    [encodeURIComponent] gives for a value, which is how [Route#url]
    writes a value that has no slash into a segment, [Route#match] stores
    the value itself under the name of the parameter.  (The names are
    distinct and are ordinary own properties of an array.) *)
Theorem capture_decodes_what_url_encodes rt p matched captures i k value encoded :
  P2R.exec (Route.regexp rt) p = Some (matched, captures) ->
  Route.params rt !! i = Some k ->
  captures !! i = Some (Some encoded) ->
  Uri.encodeURIComponent value = Some encoded ->
  NoDup (map P2R.name (Route.params rt)) ->
  Forall (fun k => P2R.name k <> "length" /\ P2R.name k <> "__proto__") (Route.params rt) ->
  exists cap,
    Route.match_ rt p = Some cap /\
    Captured.params cap !! P2R.name k = Some (Some value).
Proof.
  intros Hexec Hk Hc He Hnd _. unfold Route.match_. rewrite Hexec.
  eexists; split; [reflexivity | ]. cbn [Captured.params].
  destruct (Route.params rt) as [ | k0 keys ] eqn:Hkeys; [inversion Hk | ].
  rewrite <- (decode_encoded value encoded He).
  eapply named_lookup; eauto.
Qed.

Lemma search_placeholder_none s :
  (forall c, c ∈ list_ascii_of_string s -> c <> ":"%char) ->
  Js.search_placeholder s = None.
Proof.
  induction s as [ | a s IH ]; [reflexivity | ].
  intros Hs. cbn [Js.search_placeholder].
  destruct (Ascii.eqb a ":") eqn:Ha.
  - apply Ascii.eqb_eq in Ha. exfalso. apply (Hs a); [left | exact Ha].
  - rewrite IH; [reflexivity | ]. intros c Hc. apply Hs. right. exact Hc.
Qed.

Lemma search_none key s :
  (forall c, c ∈ list_ascii_of_string s -> c <> ":"%char) ->
  Js.search (String ":" key) s = None.
Proof.
  induction s as [ | a s IH ]; [reflexivity | ].
  intros Hs. cbn [Js.search String.prefix].
  destruct (ascii_dec ":" a) as [Ha | Ha].
  - exfalso. apply (Hs a); [left | symmetry; exact Ha].
  - rewrite IH; [reflexivity | ]. intros c Hc. apply Hs. right. exact Hc.
Qed.

Lemma substitute_literal s args :
  (forall c, c ∈ list_ascii_of_string s -> c <> ":"%char) ->
  Route.substitute s args = s.
Proof.
  intros Hs.
  assert (Hp : forall A (f : A -> string) (l : list A),
             foldl (fun u a => Js.replace_placeholder (f a) u) s l = s).
  { intros A f l. induction l as [ | a l IH ]; simpl; [reflexivity | ].
    unfold Js.replace_placeholder at 2. rewrite (search_placeholder_none s Hs). exact IH. }
  unfold Route.substitute.
  destruct (Route.is_object _); [ | exact (Hp _ Route.to_string args) ].
  destruct (default Route.Undefined (args !! 0%nat)) as [entries | items | | | ];
    try reflexivity.
  - induction entries as [ | kv entries IH ]; simpl; [reflexivity | ].
    unfold Js.replace at 2.
    change (":" +:+ fst kv) with (String ":" (fst kv)).
    rewrite (search_none (fst kv) s Hs). exact IH.
  - exact (Hp _ (fun a => a) items).
Qed.

Lemma join_cons_char c x l :
  Js.join "/" (String c x :: l) = String c (Js.join "/" (x :: l)).
Proof. destruct l; reflexivity. Qed.

Lemma join_encode_split s :
  (forall c, c ∈ list_ascii_of_string s -> Uri.unreserved c = true \/ c = "/"%char) ->
  Js.join "/" (map Uri.escape (Js.split "/" s)) = s.
Proof.
  induction s as [ | a s IH ]; [reflexivity | ].
  intros Hs.
  assert (Hs' : forall c, c ∈ list_ascii_of_string s ->
                          Uri.unreserved c = true \/ c = "/"%char).
  { intros c Hc. apply Hs. right. exact Hc. }
  specialize (IH Hs'). cbn [Js.split].
  destruct (Ascii.eqb a "/") eqn:Ha.
  - apply Ascii.eqb_eq in Ha. subst a. cbn [map].
    pose proof (split_not_nil "/" s) as Hne.
    destruct (Js.split "/" s) as [ | w ws ]; [congruence | ].
    change (Js.join "/" (Uri.escape "" :: map Uri.escape (w :: ws)))
      with (String "/" (Js.join "/" (map Uri.escape (w :: ws)))).
    rewrite IH. reflexivity.
  - assert (Hun : Uri.unreserved a = true).
    { destruct (Hs a) as [Hu | ->]; [left | exact Hu | vm_compute in Ha; discriminate]. }
    pose proof (split_not_nil "/" s) as Hne.
    destruct (Js.split "/" s) as [ | w ws ]; [congruence | ].
    cbn [map] in *. cbn [Uri.escape]. rewrite Hun.
    rewrite join_cons_char, IH. reflexivity.
Qed.

(** The characters of a segment are characters of the text. *)
Lemma split_chars s : forall seg c,
  seg ∈ Js.split "/" s -> c ∈ list_ascii_of_string seg -> c ∈ list_ascii_of_string s.
Proof.
  induction s as [ | a s IH ]; intros seg c Hseg Hc.
  - simpl in Hseg. apply list_elem_of_singleton in Hseg. subst seg. exact Hc.
  - cbn [Js.split] in Hseg. cbn [list_ascii_of_string].
    destruct (Ascii.eqb a "/").
    + apply elem_of_cons in Hseg as [-> | Hseg]; [inversion Hc | ].
      right. exact (IH seg c Hseg Hc).
    + pose proof (split_not_nil "/" s) as Hne.
      destruct (Js.split "/" s) as [ | w ws ]; [congruence | ].
      apply elem_of_cons in Hseg as [-> | Hseg].
      * cbn [list_ascii_of_string] in Hc. apply elem_of_cons in Hc as [-> | Hc]; [left | ].
        right. apply (IH w c); [left | exact Hc].
      * right. apply (IH seg c); [right; exact Hseg | exact Hc].
Qed.

(** A text in ASCII has no lone surrogate. *)
Lemma ascii_utf8 s :
  (forall c, c ∈ list_ascii_of_string s -> (N_of_ascii c <? 128)%N = true) ->
  Uri.utf8 s = true.
Proof.
  unfold Uri.utf8. induction s as [ | a s IH ]; [reflexivity | ].
  intros Hs. cbn [list_ascii_of_string map Uri.well_formed negb orb].
  rewrite (Hs a) by left. apply IH. intros c Hc. apply Hs. right. exact Hc.
Qed.

(** X23.  A route whose template has no placeholder generates its own
    template: when the path of the route is made of unreserved characters
    and slashes, [Route#url] returns it unchanged, whatever the arguments. *)
Theorem literal_route_url rt args :
  (forall c, c ∈ list_ascii_of_string (Route.path rt) ->
             Uri.unreserved c = true \/ c = "/"%char) ->
  Route.url rt args = Returns (Route.path rt).
Proof.
  intros Hp. unfold Route.url.
  rewrite substitute_literal.
  - rewrite encode_all_utf8.
    + rewrite (join_encode_split _ Hp). reflexivity.
    + apply Forall_forall. intros seg Hseg. apply ascii_utf8. intros c Hc.
      destruct (Hp c (split_chars _ seg c Hseg Hc)) as [Hu | ->];
        [apply unreserved_small, Hu | reflexivity].
  - intros c Hc ->. destruct (Hp _ Hc) as [Hu | Hu]; vm_compute in Hu; discriminate.
Qed.

End Encoding.

(** ** The hooks of a route, as they run *)

Section Chains.

Context {S : Type} (get : S -> Context.t) (put : Context.t -> S -> S).

(** A generator sees of its continuation only what it does. *)
Lemma run_ext g : forall (k k' : Koa.Cont) started (s : S),
  (forall s, k s = k' s) ->
  Koa.run get put g k started s = Koa.run get put g k' started s.
Proof.
  induction g as [ | e | f g IH | f IH | g IH | body IHb handler IHh g IHk ];
    intros k k' started s Hkk; simpl.
  - reflexivity.
  - reflexivity.
  - apply IH, Hkk.
  - apply IH, Hkk.
  - destruct started; [apply IH, Hkk | ].
    rewrite Hkk. destruct (k' s) as [[[[] | e] s'] | ]; [apply IH, Hkk | reflexivity | reflexivity].
  - rewrite (IHb k k' started s Hkk).
    destruct (Koa.run get put body k' started s) as [[[[[] | e] stb] sb] | ];
      [apply IHk, Hkk | | reflexivity].
    rewrite (IHh e k k' stb sb Hkk).
    destruct (Koa.run get put (handler e) k' stb sb) as [[[[[] | e'] sth] sh] | ];
      [apply IHk, Hkk | reflexivity | reflexivity].
Qed.

Lemma call_gen_ext g (k k' : Koa.Cont) (s : S) :
  (forall s, k s = k' s) ->
  Koa.call_gen get put g k s = Koa.call_gen get put g k' s.
Proof. intros Hkk. unfold Koa.call_gen. rewrite (run_ext g k k' false s Hkk). reflexivity. Qed.



End Chains.

Section HooksRun.

Context `{Deps.t}.




End HooksRun.

(** ** Substitution into a template *)

Section Substitution.


Lemma prefix_cons a p b s :
  String.prefix (String a p) (String b s) = if Ascii.eqb a b then String.prefix p s else false.
Proof.
  simpl. destruct (ascii_dec a b) as [-> | Hab].
  - rewrite Ascii.eqb_refl. reflexivity.
  - apply Ascii.eqb_neq in Hab. rewrite Hab. reflexivity.
Qed.



Lemma append_nil_r (s : string) : s +:+ "" = s.
Proof.
  induction s as [ | a s IH ]; [reflexivity | ].
  change (String a s +:+ "") with (String a (s +:+ "")). rewrite IH. reflexivity.
Qed.

Lemma append_assoc (a b c : string) : (a +:+ b) +:+ c = a +:+ (b +:+ c).
Proof.
  induction a as [ | x a IH ]; [reflexivity | ].
  change (String x ((a +:+ b) +:+ c) = String x (a +:+ (b +:+ c))). rewrite IH. reflexivity.
Qed.



(** A text that is empty or begins with a slash. *)
Local Abbreviation boundary u := (u = "" \/ exists u', u = String "/" u').



Lemma GetSubstitution_plain m b a v :
  Js.free "$" v = true -> Js.GetSubstitution m b a v = v.
Proof.
  induction v as [ | c v IH ]; [reflexivity | ].
  intros Hv. cbn [Js.free] in Hv. apply andb_true_iff in Hv as [Hc Hv].
  apply negb_true_iff, Ascii.eqb_neq in Hc.
  specialize (IH Hv).
  destruct c as [[] [] [] [] [] [] [] []]; try (cbn [Js.GetSubstitution]; rewrite IH; reflexivity).
  contradiction Hc. reflexivity.
Qed.

(** What is behind the first segment of a rendered template. *)
Local Abbreviation behind segs :=
  (match segs%list with
   | nil => ""
   | cons _ _ => String "/" (Route.render segs)
   end).

Lemma render_cons seg segs :
  Route.render (seg :: segs) = Route.segment_text seg +:+ behind segs.
Proof.
  unfold Route.render. destruct segs as [ | seg' segs ]; cbn [map Js.join].
  - rewrite append_nil_r. reflexivity.
  - reflexivity.
Qed.

Lemma behind_boundary segs : boundary (behind segs).
Proof. destruct segs; [left; reflexivity | right; eexists; reflexivity]. Qed.



Lemma prefix_refl (s : string) : String.prefix s s = true.
Proof.
  induction s as [ | a s IH ]; [reflexivity | ].
  rewrite prefix_cons, Ascii.eqb_refl. exact IH.
Qed.





Lemma free_no_slash s : Js.free "/" s = Js.no_slash s.
Proof. induction s as [ | a s IH ]; [reflexivity | ]. simpl. rewrite IH. reflexivity. Qed.


Lemma search_placeholder_passes t : forall u,
  Js.free ":" t = true ->
  Js.search_placeholder (t +:+ u) =
  match Js.search_placeholder u with
  | Some (b, m, a) => Some (t +:+ b, m, a)
  | None => None
  end.
Proof.
  induction t as [ | c t IH ]; intros u Ht.
  - change ("" +:+ u) with u. destruct (Js.search_placeholder u) as [[[b m] a] | ]; reflexivity.
  - cbn [Js.free] in Ht. apply andb_true_iff in Ht as [Hc Ht].
    apply negb_true_iff in Hc.
    change (String c t +:+ u) with (String c (t +:+ u)).
    cbn [Js.search_placeholder]. rewrite Hc, (IH u Ht).
    destruct (Js.search_placeholder u) as [[[b m] a] | ]; reflexivity.
Qed.

Lemma span_noslash_name name : forall u,
  Js.free "/" name = true -> boundary u ->
  Js.span_noslash (name +:+ u) = (name, u).
Proof.
  induction name as [ | c name IH ]; intros u Hname Hu.
  - change ("" +:+ u) with u. destruct Hu as [-> | (u' & ->)]; reflexivity.
  - cbn [Js.free] in Hname. apply andb_true_iff in Hname as [Hc Hname].
    apply negb_true_iff in Hc.
    change (String c name +:+ u) with (String c (name +:+ u)).
    cbn [Js.span_noslash]. rewrite Hc, (IH u Hname Hu). reflexivity.
Qed.

Lemma search_placeholder_finds name u :
  name <> "" -> Js.free "/" name = true -> boundary u ->
  Js.search_placeholder (String ":" name +:+ u) = Some ("", String ":" name, u).
Proof.
  intros Hne Hname Hu.
  change (String ":" name +:+ u) with (String ":" (name +:+ u)).
  cbn [Js.search_placeholder]. rewrite Ascii.eqb_refl.
  rewrite (span_noslash_name name u Hname Hu).
  destruct name; [congruence | reflexivity].
Qed.

Lemma replace_placeholder_plain value s :
  Js.free "$" value = true ->
  Js.replace_placeholder value s =
  match Js.search_placeholder s with
  | Some (b, m, a) => b +:+ value +:+ a
  | None => s
  end.
Proof.
  intros Hv. unfold Js.replace_placeholder.
  destruct (Js.search_placeholder s) as [[[b m] a] | ]; [ | reflexivity ].
  rewrite GetSubstitution_plain by exact Hv. reflexivity.
Qed.

Lemma supply_first value : forall segs values,
  Route.supply_in_order (value :: values) segs =
  Route.supply_in_order values (Route.supply_in_order [value] segs).
Proof.
  assert (Hnone : forall segs values,
            Route.supply_in_order values (Route.supply_in_order [] segs) =
            Route.supply_in_order values segs).
  { induction segs as [ | [text | name] segs IH ]; intros values; [reflexivity | | ].
    - cbn [Route.supply_in_order]. rewrite IH. reflexivity.
    - cbn [Route.supply_in_order]. destruct values as [ | v values ]; rewrite IH; reflexivity. }
  induction segs as [ | [text | name] segs IH ]; intros values; [reflexivity | | ].
  - cbn [Route.supply_in_order]. rewrite IH. reflexivity.
  - cbn [Route.supply_in_order]. rewrite Hnone. reflexivity.
Qed.

Lemma supply_none segs : Route.supply_in_order [] segs = segs.
Proof.
  induction segs as [ | [text | name] segs IH ]; [reflexivity | | ];
    cbn [Route.supply_in_order]; rewrite IH; reflexivity.
Qed.

(** Replacing the first placeholder of a template. *)
Lemma replace_first_placeholder value : forall segs,
  Forall (fun seg => match seg with
                     | Route.Literal text =>
                         Js.free ":" text = true /\ Js.free "/" text = true
                     | Route.Placeholder name => name <> "" /\ Js.free "/" name = true
                     end) segs ->
  Js.free "$" value = true ->
  Js.replace_placeholder value (Route.render segs) =
  Route.render (Route.supply_in_order [value] segs).
Proof.
  intros segs Hwf Hvalue.
  rewrite replace_placeholder_plain by exact Hvalue.
  assert (Hgoal :
    match Js.search_placeholder (Route.render segs) with
    | Some (b, m, a) => b +:+ value +:+ a
    | None => Route.render segs
    end = Route.render (Route.supply_in_order [value] segs) /\
    match Js.search_placeholder (behind segs) with
    | Some (b, m, a) => b +:+ value +:+ a
    | None => behind segs
    end = behind (Route.supply_in_order [value] segs)); [ | exact (proj1 Hgoal) ].
  induction segs as [ | seg segs IH ]; [split; reflexivity | ].
  apply Forall_cons in Hwf as [Hseg Hwf].
  assert (Hhere :
    match Js.search_placeholder (Route.render (seg :: segs)) with
    | Some (b, m, a) => b +:+ value +:+ a
    | None => Route.render (seg :: segs)
    end = Route.render (Route.supply_in_order [value] (seg :: segs))).
  { rewrite render_cons.
    destruct seg as [text | name]; cbn [Route.supply_in_order]; rewrite render_cons;
      cbn [Route.segment_text].
    - destruct Hseg as [Hcolon _]. destruct (IH Hwf) as [_ IHb].
      rewrite (search_placeholder_passes text _ Hcolon).
      destruct (Js.search_placeholder (behind segs)) as [[[b m] a] | ].
      + rewrite append_assoc, IHb. reflexivity.
      + rewrite IHb. reflexivity.
    - destruct Hseg as [Hne Hslash].
      rewrite (search_placeholder_finds name _ Hne Hslash (behind_boundary segs)).
      rewrite supply_none. reflexivity. }
  split; [exact Hhere | ].
  pose proof (search_placeholder_passes "/" (Route.render (seg :: segs)) eq_refl) as Hs.
  change ("/" +:+ Route.render (seg :: segs))
    with (String "/" (Route.render (seg :: segs))) in Hs.
  assert (Hcons : forall l, l <> [] -> behind l = String "/" (Route.render l)).
  { intros [ | x l ] Hl; [congruence | reflexivity]. }
  rewrite (Hcons (Route.supply_in_order [value] (seg :: segs))).
  - cbn iota. rewrite Hs.
    destruct (Js.search_placeholder (Route.render (seg :: segs))) as [[[b m] a] | ].
    + change (("/" +:+ b) +:+ value +:+ a) with (String "/" (b +:+ value +:+ a)).
      rewrite Hhere. reflexivity.
    + rewrite Hhere. reflexivity.
  - destruct seg; discriminate.
Qed.

Lemma supply_in_order_wf value segs :
  Js.free ":" value = true -> Js.free "/" value = true ->
  Forall (fun seg => match seg with
                     | Route.Literal text =>
                         Js.free ":" text = true /\ Js.free "/" text = true
                     | Route.Placeholder name => name <> "" /\ Js.free "/" name = true
                     end) segs ->
  Forall (fun seg => match seg with
                     | Route.Literal text =>
                         Js.free ":" text = true /\ Js.free "/" text = true
                     | Route.Placeholder name => name <> "" /\ Js.free "/" name = true
                     end) (Route.supply_in_order [value] segs).
Proof.
  intros Hc Hs. induction segs as [ | [text | name] segs IH ]; intros Hwf.
  - exact Hwf.
  - apply Forall_cons in Hwf as [Hseg Hwf]. cbn [Route.supply_in_order].
    apply Forall_cons. split; [exact Hseg | exact (IH Hwf)].
  - apply Forall_cons in Hwf as [Hseg Hwf]. cbn [Route.supply_in_order].
    rewrite supply_none. apply Forall_cons. split; [split; assumption | exact Hwf].
Qed.

Lemma substitute_in_order values : forall segs,
  Forall (fun seg => match seg with
                     | Route.Literal text =>
                         Js.free ":" text = true /\ Js.free "/" text = true
                     | Route.Placeholder name => name <> "" /\ Js.free "/" name = true
                     end) segs ->
  Forall (fun value => Js.free ":" value = true /\ Js.free "$" value = true /\
                       Js.free "/" value = true) values ->
  foldl (fun u a => Js.replace_placeholder (Route.to_string a) u) (Route.render segs)
        (map Route.Str values) =
  Route.render (Route.supply_in_order values segs).
Proof.
  induction values as [ | value values IH ]; intros segs Hwf Hvalues.
  - cbn [map foldl]. rewrite supply_none. reflexivity.
  - apply Forall_cons in Hvalues as [(Hc & Hd & Hs) Hvalues].
    cbn [map foldl Route.to_string].
    rewrite (replace_first_placeholder value segs Hwf Hd).
    rewrite IH; [ | apply supply_in_order_wf; assumption | exact Hvalues ].
    rewrite <- supply_first. reflexivity.
Qed.

Lemma segments_no_slash values : forall segs,
  Forall (fun seg => match seg with
                     | Route.Literal text =>
                         Js.free ":" text = true /\ Js.free "/" text = true
                     | Route.Placeholder name => name <> "" /\ Js.free "/" name = true
                     end) segs ->
  Forall (fun value => Js.free ":" value = true /\ Js.free "$" value = true /\
                       Js.free "/" value = true) values ->
  Forall (fun seg => Js.no_slash (Route.segment_text seg) = true)
         (Route.supply_in_order values segs).
Proof.
  intros segs. revert values.
  induction segs as [ | [text | name] segs IH ]; intros values Hwf Hvalues.
  - apply Forall_nil. exact I.
  - apply Forall_cons in Hwf as [[_ Hs] Hwf]. cbn [Route.supply_in_order].
    apply Forall_cons. split; [ | exact (IH values Hwf Hvalues) ].
    cbn [Route.segment_text]. rewrite <- free_no_slash. exact Hs.
  - apply Forall_cons in Hwf as [[_ Hs] Hwf]. cbn [Route.supply_in_order].
    destruct values as [ | value values ].
    + apply Forall_cons. split; [ | exact (IH [] Hwf Hvalues) ].
      cbn [Route.segment_text Js.no_slash]. rewrite <- free_no_slash, Hs. reflexivity.
    + apply Forall_cons in Hvalues as [(_ & _ & Hv) Hvalues].
      apply Forall_cons. split; [ | exact (IH values Hwf Hvalues) ].
      cbn [Route.segment_text]. rewrite <- free_no_slash. exact Hv.
Qed.

(** X25.  Called with values by position, on a route whose path is a
    template of literal segments and placeholders, [Route#url] returns the
    template with the first value in the place of the first placeholder,
    the second in the place of the second, and so on, every segment
    encoded on its own; placeholders without a value stay as they are, and
    values without a placeholder are dropped.  (The values have no colon,
    no dollar sign and no slash, and what is encoded has no lone
    surrogate.) *)
Theorem url_by_position rt segs values :
  Route.path rt = Route.render segs ->
  segs <> [] ->
  Forall (fun seg => match seg with
                     | Route.Literal text =>
                         Js.free ":" text = true /\ Js.free "/" text = true
                     | Route.Placeholder name => name <> "" /\ Js.free "/" name = true
                     end) segs ->
  Forall (fun value => Js.free ":" value = true /\ Js.free "$" value = true /\
                       Js.free "/" value = true) values ->
  Forall (fun seg => Uri.utf8 (Route.segment_text seg) = true)
         (Route.supply_in_order values segs) ->
  Route.url rt (map Route.Str values) =
  Returns (Js.join "/" (map (fun seg => Uri.escape (Route.segment_text seg))
                            (Route.supply_in_order values segs))).
Proof.
  intros Hpath Hne Hwf Hvalues Hutf8. unfold Route.url.
  assert (Hsub : Route.substitute (Route.path rt) (map Route.Str values) =
                 foldl (fun u a => Js.replace_placeholder (Route.to_string a) u)
                       (Route.path rt) (map Route.Str values)).
  { destruct values; reflexivity. }
  rewrite Hsub, Hpath, (substitute_in_order values segs Hwf Hvalues).
  unfold Route.render. rewrite split_join.
  - rewrite encode_all_utf8.
    + rewrite map_map. reflexivity.
    + apply Forall_fmap. exact Hutf8.
  - intros Hnil. apply map_eq_nil in Hnil.
    destruct segs as [ | [text | name] segs ]; [congruence | discriminate | ].
    destruct values; discriminate.
  - apply Forall_fmap. exact (segments_no_slash values segs Hwf Hvalues).
Qed.

Section ByName.

Context `{Deps.t}.


End ByName.

End Substitution.

(** ** The claims on the example routers *)

Import Model.



(** The route [/:category/:title] with two values by position. *)
Lemma url_by_position_witness :
  exists rt,
    Router.routes Examples.books !! 0%nat = Some rt /\
    Route.url rt [Route.Str "programming"; Route.Str "how to node"]
    = Returns "/programming/how%20to%20node".
Proof.
  eexists. split; [reflexivity | ].
  match goal with |- Route.url ?r _ = _ => set (rt := r) end.
  refine (url_by_position rt
            [Route.Literal ""; Route.Placeholder "category"; Route.Placeholder "title"]
            ["programming"; "how to node"] eq_refl _ _ _ _).
  - discriminate.
  - apply Forall_cons. split; [split; reflexivity | ].
    repeat (apply Forall_cons; split; [split; [discriminate | reflexivity] | ]).
    apply Forall_nil. exact I.
  - repeat (apply Forall_cons; split; [repeat split | ]).
    apply Forall_nil. exact I.
  - repeat (apply Forall_cons; split; [reflexivity | ]).
    apply Forall_nil. exact I.
Defined.

(** C1 fails as it is stated: the middleware of [GET /user] raises, the
    error reaches the caller of the router, and the context still has the
    path and the parameters of the route, not [/user] and no parameters. *)
Lemma scope_not_restored_when_middleware_raises :
  exists fr,
    Router.middleware Examples.failing idle (request "GET" "/user")
    = Some (Throws Examples.boom, fr) /\
    Context.path (Router.context fr) = "/" /\
    Context.path (Router.context fr) <> Context.path (request "GET" "/user") /\
    Context.params (Router.context fr) = Some ∅ /\
    Context.params (Router.context fr) <> Context.params (request "GET" "/user").
Proof.
  eexists. split; [vm_compute; reflexivity | ]. repeat split; discriminate.
Qed.

(** C2 fails as it is stated: [DELETE /nothing] matches no route of the
    router, no middleware handles it, the downstream writes nothing, and
    the status is still the 404 the context came with. *)
Lemma fallback_not_synthesized_without_match :
  exists fr,
    Router.middleware Examples.users idle (request "DELETE" "/nothing")
    = Some (Returns tt, fr) /\
    Router.called fr = false /\
    Context.explicitStatus (Router.context fr) = false /\
    Context.statusCode (Router.context fr) = 404 /\
    Context.statusCode (Router.context fr) <> 501 /\
    Context.statusMessage (Router.context fr) = None.
Proof.
  eexists. split; [vm_compute; reflexivity | ]. repeat split; discriminate.
Qed.

(** C3 fails as it is stated: with [GET /user] and [POST /user],
    [DELETE /user] gets 501 and an empty [Allow]; and when [DELETE] is
    accepted because of another route, it gets 405, still with an empty
    [Allow]. *)
Lemma delete_user_not_405_with_allow :
  (exists fr,
     Router.middleware Examples.users idle (request "DELETE" "/user")
     = Some (Returns tt, fr) /\
     Context.statusCode (Router.context fr) = 501 /\
     Context.statusCode (Router.context fr) <> 405 /\
     Context.headers (Router.context fr) !! "Allow" = Some "" /\
     Context.headers (Router.context fr) !! "Allow" <> Some "GET, POST") /\
  (exists fr,
     Router.middleware Examples.users_and_others idle (request "DELETE" "/user")
     = Some (Returns tt, fr) /\
     Context.statusCode (Router.context fr) = 405 /\
     Context.headers (Router.context fr) !! "Allow" = Some "" /\
     Context.headers (Router.context fr) !! "Allow" <> Some "GET, POST").
Proof.
  split; eexists; (split; [vm_compute; reflexivity | ]); repeat split; discriminate.
Qed.

(** C5 fails as it is stated: the middleware of [GET /user] returns
    without delegating to its continuation, and the downstream does not
    run. *)
Lemma downstream_skipped_by_short_circuit :
  exists fr,
    Router.middleware Examples.users idle (request "GET" "/user")
    = Some (Returns tt, fr) /\
    Router.called fr = true /\
    Router.delegations fr = 0%nat /\
    Router.delegations fr <> 1%nat.
Proof.
  eexists. split; [vm_compute; reflexivity | ]. repeat split; discriminate.
Qed.

(** *** Instances of the theorems *)

(** C1 at [GET /user]: the middleware returns, and the path and the
    parameters of the request are back. *)
Lemma route_scope_restored_on_return_witness :
  exists routes_ m mw fr2,
    Router.match_ Examples.users "/user" = Some routes_ /\
    Js.element routes_ (Router.index (Router.initial (request "GET" "/user")) + 1) = Some m /\
    Router.applicable "GET" (Matched.route m) = true /\
    Route.middleware (Matched.route m) = Some mw /\
    Koa.call Router.context Router.put mw
      (Router.next Examples.users idle routes_ "/user" "GET" None 2)
      (Router.rescope Examples.users None m
         (Router.set_called true
            (Router.set_index 0 (Router.initial (request "GET" "/user")))))
    = Some (Returns tt, fr2) /\
    exists fr',
      Router.next Examples.users idle routes_ "/user" "GET" None 3
        (Router.initial (request "GET" "/user")) = Some (Returns tt, fr') /\
      fr' = Router.restore None "/user" fr2 /\
      Context.path (Router.context fr') = "/user" /\
      Context.params (Router.context fr') = None.
Proof.
  do 4 eexists.
  split; [reflexivity | ]. split; [reflexivity | ]. split; [reflexivity | ].
  split; [reflexivity | ]. split; [reflexivity | ].
  eapply (route_scope_restored_on_return Examples.users idle _ "/user" "GET" None 2
            (Router.initial (request "GET" "/user")) _ _ (Returns tt) _);
    reflexivity.
Defined.

(** C2 at [DELETE /user] against [GET /user] and [POST /user]: 501. *)
Lemma fallback_status_synthesized_witness :
  exists routes_,
    Router.match_ Examples.users "/user" = Some routes_ /\
    forallb (fun m => negb (Router.applicable "DELETE" (Matched.route m))) routes_ = true /\
    idle (request "DELETE" "/user") = (Returns tt, request "DELETE" "/user") /\
    Context.explicitStatus (request "DELETE" "/user") = false /\
    exists fr',
      Router.middleware Examples.users idle (request "DELETE" "/user")
      = Some (Returns tt, fr') /\
      Context.statusCode (Router.context fr') = 501.
Proof.
  eexists.
  split; [reflexivity | ]. split; [reflexivity | ]. split; [reflexivity | ].
  split; [reflexivity | ].
  refine (fallback_status_synthesized None
            [Router.Verb "get" None (Route.Template "/user") [Examples.noop];
             Router.Verb "post" None (Route.Template "/user") [Examples.noop]]
            idle (request "DELETE" "/user") _ (request "DELETE" "/user") _ _ _ _);
    reflexivity.
Defined.

(** C3 at [OPTIONS /user] against [GET /user] and [POST /user]: the
    header lists both methods. *)
Lemma allow_header_synthesized_witness :
  exists routes_,
    Router.match_ Examples.users "/user" = Some routes_ /\
    forallb (fun m => negb (Router.applicable "OPTIONS" (Matched.route m))) routes_ = true /\
    idle (request "OPTIONS" "/user") = (Returns tt, request "OPTIONS" "/user") /\
    Context.explicitStatus (request "OPTIONS" "/user") = false /\
    exists fr',
      Router.middleware Examples.users idle (request "OPTIONS" "/user")
      = Some (Returns tt, fr') /\
      Context.headers (Router.context fr') !! "Allow" = Some "GET, POST".
Proof.
  eexists.
  split; [reflexivity | ].
  match goal with |- forallb _ ?rs = true /\ _ => set (routes_ := rs) end.
  split; [reflexivity | ]. split; [reflexivity | ]. split; [reflexivity | ].
  refine (allow_header_synthesized Examples.users idle (request "OPTIONS" "/user") routes_
            (request "OPTIONS" "/user") _ _ _ _);
    reflexivity.
Defined.


(** C7 at the prefix route [/info/] and the path [/info/x/y]. *)
Lemma match_path_starts_with_slash_witness :
  exists rt c,
    Router.routes Examples.info !! 0%nat = Some rt /\
    Route.match_ rt "/info/x/y" = Some c /\
    Captured.path c = "/x/y" /\
    (Js.charAt0 (Captured.path c) = Some "/"%char \/ Captured.path c = "").
Proof.
  do 2 eexists. split; [reflexivity | ].
  match goal with |- Route.match_ ?r _ = Some _ /\ _ => set (rt := r) end.
  split; [reflexivity | ]. split; [reflexivity | ].
  match goal with
  | |- Js.charAt0 (Captured.path ?c) = _ \/ _ =>
      exact (proj1 (match_path_starts_with_slash rt "/info/x/y" c eq_refl))
  end.
Defined.


(** C4, on the code.  The pattern of a prefix route is compiled without
    an anchor at the end, and that of any other route with one.  But
    [strict] is what the options of the router say for a prefix route, and
    always on for any other route; and [mount] itself raises before it has
    registered anything.  So on a router that is not strict, [mount] of
    [/info/] raises, and the prefix route on [/info/], registered with an
    empty list of methods, matches [/info]. *)
Theorem mount_strictness_follows_option :
  (forall opts, P2R.end_ (Route.regexp_options opts true) = false) /\
  (forall opts, P2R.end_ (Route.regexp_options opts false) = true) /\
  (forall opts, P2R.strict (Route.regexp_options opts true) = Opts.strict opts) /\
  (forall opts, P2R.strict (Route.regexp_options opts false) = true) /\
  (forall (D : Deps.t) name path mws r,
      Router.mount name path mws r =
      Throws (TypeError "Cannot read property 'length' of null")) /\
  Router.after (Router.new (Some Examples.nonstrict))
    (Router.Mount None (Route.Template "/info/") [Examples.noop])
  = Router.new (Some Examples.nonstrict) /\
  (exists rt,
     Router.routes Examples.info = [rt] /\
     Route.asPrefix rt = true /\
     Route.match_ rt "/info"
     = Some {| Captured.params := ∅; Captured.path := "/" |}).
Proof.
  split; [reflexivity | ]. split; [reflexivity | ].
  split; [intros opts; simpl; apply orb_false_r | ].
  split; [intros opts; simpl; apply orb_true_r | ].
  split; [reflexivity | ]. split; [reflexivity | ].
  eexists. repeat split.
Qed.

(** *** The tests of the repository that the sources pass *)

(** [OPTIONS /user] against [GET /user] and [POST /user]. *)
Example options_user :
  exists fr,
    Router.middleware Examples.users idle (request "OPTIONS" "/user")
    = Some (Returns tt, fr) /\
    Context.statusCode (Router.context fr) = 204 /\
    Context.statusMessage (Router.context fr) = Some "No Content" /\
    Context.headers (Router.context fr) !! "Allow" = Some "GET, POST".
Proof. eexists. split; [vm_compute; reflexivity | ]. repeat split. Qed.

(** [DELETE /user] when [DELETE /others] is registered. *)
Example delete_user_with_others :
  exists fr,
    Router.middleware Examples.users_and_others idle (request "DELETE" "/user")
    = Some (Returns tt, fr) /\
    Context.statusCode (Router.context fr) = 405.
Proof. eexists. split; [vm_compute; reflexivity | reflexivity]. Qed.

(** A downstream that writes a status itself is not overruled. *)
Example downstream_status_kept :
  exists fr,
    Router.middleware Examples.users
      (fun c => (Returns tt, Context.set_status 204 c)) (request "DELETE" "/user")
    = Some (Returns tt, fr) /\
    Context.statusCode (Router.context fr) = 204 /\
    Context.headers (Router.context fr) !! "Allow" = None.
Proof. eexists. split; [vm_compute; reflexivity | ]. repeat split. Qed.

(** [HEAD /users/1] is answered by [GET /users/:id]. *)
Example head_defaults_to_get :
  exists fr,
    Router.middleware Examples.user_by_id idle (request "HEAD" "/users/1")
    = Some (Returns tt, fr) /\
    Router.called fr = true /\
    Context.statusCode (Router.context fr) = 200.
Proof. eexists. split; [vm_compute; reflexivity | ]. repeat split. Qed.

(** The hooks run in the order of the parameters in the pattern, then the
    middleware of the route. *)
Example hooks_run_in_url_order :
  exists fr,
    Router.middleware Examples.nested idle (request "GET" "/id1/users/id2")
    = Some (Returns tt, fr) /\
    Context.state (Router.context fr) !! "orders" = Some "123".
Proof. eexists. split; [vm_compute; reflexivity | reflexivity]. Qed.

(** Inside the prefix route [/:category] the path is [/abc], inside
    [GET /users/:id] it is [/], the downstream sees [/users/abc], and each
    middleware finds its own path again when its continuation returns. *)
Example paths_seen_while_routing :
  exists fr,
    Router.middleware Examples.scoped (fun c => (Returns tt, Examples.note c))
      (request "GET" "/users/abc")
    = Some (Returns tt, fr) /\
    Context.state (Router.context fr) !! "orders" = Some "/abc;/;/users/abc;/;/abc;" /\
    Context.path (Router.context fr) = "/users/abc" /\
    Context.params (Router.context fr) = None /\
    Router.delegations fr = 1%nat.
Proof. eexists. split; [vm_compute; reflexivity | ]. repeat split. Qed.

(** Captures are decoded. *)
Example captures_decoded :
  exists rt c,
    Router.routes Examples.books = [rt] /\
    Route.match_ rt "/programming/how%20to%20node" = Some c /\
    Captured.params c !! "category" = Some (Some "programming") /\
    Captured.params c !! "title" = Some (Some "how to node") /\
    Captured.path c = "/".
Proof. do 2 eexists. split; [reflexivity | ]. split; [reflexivity | ]. repeat split. Qed.

(** A value that is not a function is refused, with the message of the
    source. *)
Example illegal_middleware :
  Router.verb "get" None (Route.Template "/foo") [Other "undefined"] (Router.new None)
  = Throws (mkError
      "get `/foo`: `middleware` must be a function or application, not `undefined`").
Proof. vm_compute. reflexivity. Qed.


(** *** Instances of the further properties *)


(** A route registered as [home] on a fresh router is found under that
    name. *)
Lemma register_then_route_witness :
  exists rt r',
    Router.register (Some "home") (Route.Template "/home") ["get"] [Examples.noop]
      (Router.new None) = Returns (rt, r') /\
    "home" <> "" /\
    Router.route r' "home" = Some rt.
Proof.
  do 2 eexists. split; [reflexivity | ]. split; [discriminate | ].
  match goal with
  | |- Router.route ?r _ = Some ?t =>
      refine (register_then_route "home" (Route.Template "/home") ["get"] [Examples.noop]
                (Router.new None) t r _ _); [reflexivity | discriminate]
  end.
Defined.

(** [GET /:category/:title] on the path [/a%20b/c]: the first capture is
    stored decoded under [category]. *)
Lemma captures_stored_witness :
  exists rt,
    Router.routes Examples.books !! 0%nat = Some rt /\
    exists cap,
      Route.match_ rt "/a%20b/c" = Some cap /\
      Captured.params cap !! "category" = Some (Some "a b").
Proof.
  eexists. split; [reflexivity | ].
  match goal with |- exists c, Route.match_ ?r _ = Some c /\ _ => set (rt := r) end.
  destruct (captures_stored rt "/a%20b/c" "/a%20b/c" [Some "a%20b"; Some "c"] 0%nat
              (Some "a%20b")) as (cap & Hm & Hs).
  - reflexivity.
  - reflexivity.
  - apply NoDup_cons. split; [ | apply NoDup_singleton ].
    intros Hin. apply list_elem_of_singleton in Hin. discriminate.
  - repeat (apply Forall_cons; split; [split; discriminate | ]).
    apply Forall_nil. exact I.
  - exists cap. split; [exact Hm | exact Hs].
Defined.

(** Registering [GET /user] with a function succeeds. *)
Lemma register_succeeds_iff_witness :
  (exists rt r',
     Router.register None (Route.Template "/user") ["get"] [Examples.noop] (Router.new None)
     = Returns (rt, r')) <->
  Forall (fun mw => forall ty, mw <> Other ty) [Examples.noop].
Proof.
  apply (register_succeeds_iff None (Route.Template "/user") ["get"] [Examples.noop]
           (Router.new None)).
  eexists. reflexivity.
Defined.

(** Registering [GET /user] with a function and a string. *)
Lemma illegal_middleware_refused_witness :
  Router.register None (Route.Template "/user") ["get"] [Examples.noop; Other "string"]
    (Router.new None) =
  Throws (mkError
    "get `/user`: `middleware` must be a function or application, not `string`") /\
  Router.after (Router.new None)
    (Router.Register None (Route.Template "/user") ["get"]
       [Examples.noop; Other "string"]) = Router.new None.
Proof.
  refine (illegal_middleware_refused None "/user" ["get"] [Examples.noop]
            "string" [] (Router.new None) _ _ _).
  - apply Forall_cons. split; [intros ty'; discriminate | apply Forall_nil; exact I].
  - reflexivity.
Defined.

(** [GET /users/7] on [scoped]: both routes run and move the path, and
    the dispatch ends on the path of the request. *)
Lemma dispatch_restores_scope_witness :
  exists routes_ fr',
    Router.match_ Examples.scoped "/users/7" = Some routes_ /\
    Router.middleware Examples.scoped idle (request "GET" "/users/7")
    = Some (Returns tt, fr') /\
    Context.path (Router.context fr') = "/users/7" /\
    Context.params (Router.context fr') = None.
Proof.
  do 2 eexists. split; [reflexivity | ]. split; [vm_compute; reflexivity | ].
  match goal with
  | |- Context.path (Router.context ?f) = _ /\ _ =>
      refine (dispatch_restores_scope Examples.scoped idle (request "GET" "/users/7")
                _ f _ _); [reflexivity | vm_compute; reflexivity]
  end.
Defined.

(** [POST /user] against [GET /user] and [POST /user]: the first route
    is passed and the second one is called. *)
Lemma first_applicable_route_is_called_witness :
  exists a b mw,
    Router.match_ Examples.users "/user" = Some [a; b] /\
    forallb (fun s => negb (Router.applicable "POST" (Matched.route s))) [a] = true /\
    Router.applicable "POST" (Matched.route b) = true /\
    Route.middleware (Matched.route b) = Some mw /\
    Router.middleware Examples.users idle (request "POST" "/user") =
    match Koa.call Router.context Router.put mw
            (Router.next Examples.users idle [a; b] "/user" "POST" None 1)
            (Router.rescope Examples.users None b
               {| Router.context := request "POST" "/user";
                  Router.index := 1;
                  Router.called := true;
                  Router.methodsAvailable := [];
                  Router.delegations := 0 |}) with
    | Some (Returns _, fr2) => Some (Returns tt, Router.restore None "/user" fr2)
    | Some (Throws e, fr2) => Some (Throws e, fr2)
    | None => None
    end.
Proof.
  do 3 eexists. split; [reflexivity | ].
  match goal with
  | |- forallb _ [?x] = true /\ _ /\ Route.middleware (Matched.route ?y) = _ /\ _ =>
      set (a := x); set (b := y)
  end.
  split; [reflexivity | ]. split; [reflexivity | ]. split; [reflexivity | ].
  exact (first_applicable_route_is_called Examples.users idle (request "POST" "/user")
           [a] b [] (Single (Plain Ret)) eq_refl eq_refl eq_refl eq_refl).
Defined.

(** [DELETE /user] against [GET /user] and [POST /user], with a
    downstream that answers 200: the status stays. *)
Lemma explicit_status_is_kept_witness :
  exists routes_,
    Router.match_ Examples.users "/user" = Some routes_ /\
    forallb (fun m => negb (Router.applicable "DELETE" (Matched.route m))) routes_ = true /\
    Examples.answering (request "DELETE" "/user")
    = (Returns tt, Context.set_status 200 (request "DELETE" "/user")) /\
    Context.explicitStatus (Context.set_status 200 (request "DELETE" "/user")) = true /\
    exists fr',
      Router.middleware Examples.users Examples.answering (request "DELETE" "/user")
      = Some (Returns tt, fr') /\
      Router.context fr' = Context.set_status 200 (request "DELETE" "/user").
Proof.
  eexists. split; [reflexivity | ].
  match goal with |- forallb _ ?rs = true /\ _ => set (routes_ := rs) end.
  split; [reflexivity | ]. split; [reflexivity | ]. split; [reflexivity | ].
  refine (explicit_status_is_kept Examples.users Examples.answering
            (request "DELETE" "/user") routes_
            (Context.set_status 200 (request "DELETE" "/user")) _ _ _ _); reflexivity.
Defined.

(** The same request with a downstream that raises. *)
Lemma downstream_error_propagates_witness :
  Examples.raising (request "DELETE" "/user")
  = (Throws Examples.boom, request "DELETE" "/user") /\
  exists fr',
    Router.middleware Examples.users Examples.raising (request "DELETE" "/user")
    = Some (Throws Examples.boom, fr') /\
    Router.context fr' = request "DELETE" "/user".
Proof.
  split; [reflexivity | ].
  refine (downstream_error_propagates Examples.users Examples.raising
            (request "DELETE" "/user") Examples.boom (request "DELETE" "/user") _ _);
    reflexivity.
Defined.

(** The URL of [books] for [a b] and [c] is [/a%20b/c]; its fourth
    character is the percent sign of the escape. *)
Lemma url_is_escaped_witness :
  exists rt,
    Router.routes Examples.books !! 0%nat = Some rt /\
    Route.url rt [Route.Str "a b"; Route.Str "c"] = Returns "/a%20b/c" /\
    (Uri.unreserved "%" = true \/ "%"%char = "%"%char \/ "%"%char = "/"%char).
Proof.
  eexists. split; [reflexivity | ].
  match goal with |- Route.url ?r _ = _ /\ _ => set (rt := r) end.
  split; [vm_compute; reflexivity | ].
  apply (url_is_escaped rt [Route.Str "a b"; Route.Str "c"] "/a%20b/c").
  - vm_compute. reflexivity.
  - apply list_elem_of_lookup. exists 2%nat. reflexivity.
Defined.

(** [GET /:category/:title] on the path [/a%20b/c], whose first segment
    is what [encodeURIComponent] gives for [a b]. *)
Lemma capture_decodes_what_url_encodes_witness :
  exists rt,
    Router.routes Examples.books !! 0%nat = Some rt /\
    Uri.encodeURIComponent "a b" = Some "a%20b" /\
    exists cap,
      Route.match_ rt "/a%20b/c" = Some cap /\
      Captured.params cap !! "category" = Some (Some "a b").
Proof.
  eexists. split; [reflexivity | ]. split; [reflexivity | ].
  match goal with |- exists c, Route.match_ ?r _ = Some c /\ _ => set (rt := r) end.
  refine (capture_decodes_what_url_encodes rt "/a%20b/c" "/a%20b/c"
            [Some "a%20b"; Some "c"] 0%nat
            {| P2R.name := "category"; P2R.optional := false |} "a b" "a%20b" _ _ _ _ _ _).
  - reflexivity.
  - reflexivity.
  - reflexivity.
  - reflexivity.
  - apply NoDup_cons. split; [ | apply NoDup_singleton ].
    intros Hin. apply list_elem_of_singleton in Hin. discriminate.
  - repeat (apply Forall_cons; split; [split; discriminate | ]).
    apply Forall_nil. exact I.
Defined.

(** [DELETE /user] against [GET /user] and [POST /user], with a
    downstream that does nothing: 501 and its message are written, and the
    status is not marked as explicit. *)
Lemma fallback_writes_only_status_witness :
  exists routes_,
    Router.match_ Examples.users "/user" = Some routes_ /\
    forallb (fun m => negb (Router.applicable "DELETE" (Matched.route m))) routes_ = true /\
    idle (request "DELETE" "/user") = (Returns tt, request "DELETE" "/user") /\
    Context.explicitStatus (request "DELETE" "/user") = false /\
    exists fr',
      Router.middleware Examples.users idle (request "DELETE" "/user")
      = Some (Returns tt, fr') /\
      Context.statusMessage (Router.context fr') = Some "Not Implemented" /\
      Context.explicitStatus (Router.context fr') = false.
Proof.
  eexists. split; [reflexivity | ].
  match goal with |- forallb _ ?rs = true /\ _ => set (routes_ := rs) end.
  split; [reflexivity | ]. split; [reflexivity | ]. split; [reflexivity | ].
  destruct (fallback_writes_only_status Examples.users idle (request "DELETE" "/user")
              routes_ (request "DELETE" "/user") eq_refl eq_refl eq_refl eq_refl)
    as (fr' & Hrun & Hmsg & Hexp & _).
  exists fr'. split; [exact Hrun | ]. split; [ | exact Hexp ].
  rewrite Hmsg.
  assert (Hfr : Some (Returns tt, fr')
                = Router.middleware Examples.users idle (request "DELETE" "/user"))
    by (symmetry; exact Hrun).
  vm_compute in Hfr. injection Hfr as ->. reflexivity.
Defined.

(** The route [GET /user] has no placeholder: its URL is [/user],
    whatever the arguments. *)
Lemma literal_route_url_witness :
  exists rt,
    Router.routes Examples.users !! 0%nat = Some rt /\
    Forall (fun c => Uri.unreserved c = true \/ c = "/"%char)
           (list_ascii_of_string (Route.path rt)) /\
    Route.url rt [Route.Str "x"] = Returns "/user".
Proof.
  eexists. split; [reflexivity | ].
  match goal with |- _ /\ Route.url ?r _ = _ => set (rt := r) end.
  assert (Hp : Forall (fun c => Uri.unreserved c = true \/ c = "/"%char)
                      (list_ascii_of_string (Route.path rt))).
  { repeat (apply Forall_cons; split;
            [first [left; reflexivity | right; reflexivity] | ]).
    apply Forall_nil. exact I. }
  split; [exact Hp | ].
  apply (literal_route_url rt [Route.Str "x"]).
  intros c Hc. exact (proj1 (Forall_forall _ _) Hp c Hc).
Defined.

(** [OPTIONS /user] against [GET /user] and [POST /user]: the header is
    [GET, POST]. *)
Lemma allow_lists_each_method_once_witness :
  exists routes_,
    Router.match_ Examples.users "/user" = Some routes_ /\
    forallb (fun m => negb (Router.applicable "OPTIONS" (Matched.route m))) routes_ = true /\
    exists fr' names,
      Router.middleware Examples.users idle (request "OPTIONS" "/user")
      = Some (Returns tt, fr') /\
      Context.headers (Router.context fr') !! "Allow" = Some (Js.join ", " names) /\
      NoDup names.
Proof.
  eexists. split; [reflexivity | ].
  match goal with |- forallb _ ?rs = true /\ _ => set (routes_ := rs) end.
  split; [reflexivity | ].
  destruct (allow_lists_each_method_once Examples.users idle (request "OPTIONS" "/user")
              routes_ (request "OPTIONS" "/user") eq_refl eq_refl eq_refl eq_refl eq_refl)
    as (fr' & names & Hrun & Hallow & Hnd & _).
  - intros m Hm Hin.
    repeat (apply elem_of_cons in Hm as [-> | Hm];
            [apply list_elem_of_singleton in Hin; discriminate | ]).
    inversion Hm.
  - exists fr', names. split; [exact Hrun | ]. split; [exact Hallow | exact Hnd].
Defined.
